(** * framework4cpp: the shared buffer, the producer lifecycle and the CSV writer

    A shallow embedding of
    - [src/core/GlobalBuffer.cpp] and [include/framework4cpp/GlobalBuffer.h]
      (namespace [global_buffer]): the bounded queue with its optional
      memory-mapped ring of length-prefixed slots;
    - [include/framework4cpp/StreamingSessions.h]: [StreamingSession::start],
      [stop] and [threadMain];
    - [src/io/CsvWriter.cpp]: [CsvWriter::formatRecord] and [escape], and the
      consumer thread: [start], [stop] and the loop of [run];
    - [src/streaming/FileSession.cpp]: the read loop of [FileSession::run];
    - [src/config/Config.cpp]: [trim], [parseBool], [parseSize] and the
      functions built on it, and the line loop of [loadFromFile].

    Conventions.
    - [std::size_t] is the 64-bit unsigned type of an LP64 platform: values are
      in [N] and every size_t operation that can wrap is written with [wrap64].
      [std::uint32_t] conversions are written with [wrap32].
    - The mapped view is a [list byte]; [memcpy] into or out of it is defined
      only inside the view, and is [None] (undefined behaviour) otherwise.
    - Every member function of [GlobalBuffer] runs under [mutex_] from its wait
      predicate to its end, so each call is one atomic transition of the buffer
      state; a call whose wait predicate is false is the outcome [Blocks].
    - Allocation failure ([std::bad_alloc]) and the destructor are outside the
      model, except for the read buffer of [FileSession::run], whose size is
      a setting; condition-variable notifications change no state and are
      left out.
    - Loops that wait for another thread or for input run on fuel: the result
      says how the stretch of the loop ended, and the theorems give the fuel
      that is enough for the loop to end. Clocks are functions from the
      number of the reading to its value.
    - Text is read in the C locale, which the program never changes. *)

From Stdlib Require Import NArith ZArith Lia List String Ascii.
From Stdlib Require Import Strings.Byte.
From stdpp Require Import base list.
Import ListNotations.

Local Open Scope N_scope.

(** ** Machine integers and bytes *)

Definition wrap64 (n : N) : N := n mod 2 ^ 64.
Definition wrap32 (n : N) : N := n mod 2 ^ 32.

(** [std::numeric_limits<std::size_t>::max()] *)
Definition SIZE_MAX : N := 2 ^ 64 - 1.

Abbreviation bytes := (list byte).

Definition byte_of_N (n : N) : byte :=
  match Byte.of_N (n mod 256) with
  | Some b => b
  | None => Byte.x00
  end.

(** The object representation of a [std::uint32_t], least significant byte
    first. *)
Definition le_bytes32 (x : N) : bytes :=
  [ byte_of_N x; byte_of_N (x / 2 ^ 8); byte_of_N (x / 2 ^ 16); byte_of_N (x / 2 ^ 24) ].

Fixpoint le_value (bs : bytes) : N :=
  match bs with
  | [] => 0
  | b :: bs' => Byte.to_N b + 256 * le_value bs'
  end.

(** The platform's native byte order, which [memcpy] of a [std::uint32_t]
    exposes. *)
Inductive byte_order : Set := LittleEndian | BigEndian.

Definition store_u32 (o : byte_order) (x : N) : bytes :=
  match o with
  | LittleEndian => le_bytes32 x
  | BigEndian => rev (le_bytes32 x)
  end.

Definition load_u32 (o : byte_order) (bs : bytes) : N :=
  match o with
  | LittleEndian => le_value bs
  | BigEndian => le_value (rev bs)
  end.

(** [memcpy(view + off, src, |src|)] *)
Definition memcpy_to (view : bytes) (off : N) (src : bytes) : option bytes :=
  if off + N.of_nat (length src) <=? N.of_nat (length view)
  then Some (list_inserts (N.to_nat off) src view)
  else None.

(** [memcpy(dst, view + off, n)] *)
Definition memcpy_from (view : bytes) (off n : N) : option bytes :=
  if off + n <=? N.of_nat (length view)
  then Some (take (N.to_nat n) (drop (N.to_nat off) view))
  else None.

(** ** Exceptions *)

Inductive exn : Set :=
| invalid_argument (what : string)
| runtime_error (what : string).

Module Buffer.

(** ** Data model ([GlobalBuffer.h]) *)

Record FieldNames : Set := mkFieldNames {
  fn_source : string;
  fn_timestamp : string;
  fn_payload : string
}.

Definition defaultFieldNames : FieldNames :=
  mkFieldNames "source" "timestamp" "payload".

Record BufferItem : Set := mkItem {
  source : string;
  timestamp : Z;
  payload : bytes;
  fieldNames : FieldNames
}.

Record Options : Set := mkOptions {
  capacity : N;
  memoryMapped : bool;
  backingFile : string;
  maxPayloadSize : N;
  opt_fieldNames : FieldNames
}.

(** [Options{}] *)
Definition defaultOptions : Options :=
  mkOptions 1024 false "global_buffer.mmap" 4096 defaultFieldNames.

(** [QueueEntry::kInvalidSlot] *)
Definition kInvalidSlot : N := SIZE_MAX.

Record QueueEntry : Set := mkEntry {
  item : BufferItem;
  payloadSize : N;
  slotIndex : N
}.

Record GlobalBuffer : Set := mkBuffer {
  options_ : Options;
  capacity_ : N;
  fieldNames_ : FieldNames;
  queue_ : list QueueEntry;
  shutdown_ : bool;
  slotSize_ : N;
  writeIndex_ : N;
  mappedView_ : option bytes;   (* [nullptr] is [None] *)
  mappedSize_ : N
}.

Definition string_empty (s : string) : bool :=
  match s with
  | EmptyString => true
  | String _ _ => false
  end.

(** ** Construction *)

Definition normalizeOptions (input : Options) : Options :=
  let cap := if capacity input =? 0 then capacity defaultOptions else capacity input in
  let mps := if maxPayloadSize input =? 0 then maxPayloadSize defaultOptions
             else maxPayloadSize input in
  let file := if memoryMapped input && string_empty (backingFile input)
              then backingFile defaultOptions else backingFile input in
  let names := opt_fieldNames input in
  let src := if string_empty (fn_source names) then fn_source defaultFieldNames
             else fn_source names in
  let ts := if string_empty (fn_timestamp names) then fn_timestamp defaultFieldNames
            else fn_timestamp names in
  let pl := if string_empty (fn_payload names) then fn_payload defaultFieldNames
            else fn_payload names in
  mkOptions cap (memoryMapped input) file mps (mkFieldNames src ts pl).

(** What the operating system answers to [open], [ftruncate] and [mmap] in
    [initializeMapping]; [Mapped file] carries the bytes the backing file held
    before the call. *)
Inductive MappingEnv : Set :=
| OpenFails
| ResizeFails
| MapFails
| Mapped (file : bytes).

(** [initializeMapping] (POSIX branch): [ftruncate] makes the file exactly
    [mappedSize_] bytes long, cutting it or extending it with zero bytes, and
    [mmap] exposes those bytes. *)
Definition initializeMapping (size : N) (env : MappingEnv) : exn + bytes :=
  match env with
  | OpenFails => inl (runtime_error "Failed to open backing file for memory-mapped buffer")
  | ResizeFails => inl (runtime_error "Failed to resize backing file for memory-mapped buffer")
  | MapFails => inl (runtime_error "Failed to map backing file into memory")
  | Mapped file => inr (resize (N.to_nat size) Byte.x00 file)
  end.

Inductive constructed : Set :=
| Constructed (b : GlobalBuffer)
| CtorThrows (e : exn).

(** [GlobalBuffer::GlobalBuffer(const Options &)] *)
Definition GlobalBuffer_new (options : Options) (env : MappingEnv) : constructed :=
  let options_ := normalizeOptions options in
  let capacity_ := capacity options_ in
  let fieldNames_ := opt_fieldNames options_ in
  if capacity_ =? 0 then
    CtorThrows (invalid_argument "GlobalBuffer capacity must be greater than zero")
  else if memoryMapped options_ then
    if string_empty (backingFile options_) then
      CtorThrows (invalid_argument "Backing file must be provided when memory mapping is enabled")
    else if maxPayloadSize options_ =? 0 then
      CtorThrows (invalid_argument
        "Max payload size must be greater than zero when memory mapping is enabled")
    else
      let slotSize_ := wrap64 (4 + maxPayloadSize options_) in
      let mappedSize_ := wrap64 (slotSize_ * capacity_) in
      match initializeMapping mappedSize_ env with
      | inl e => CtorThrows e
      | inr view =>
          Constructed (mkBuffer options_ capacity_ fieldNames_ [] false
                                slotSize_ 0 (Some view) mappedSize_)
      end
  else
    Constructed (mkBuffer options_ capacity_ fieldNames_ [] false 0 0 None 0).

(** The delegating constructor
    [GlobalBuffer(capacity, memoryMapped, backingFile, maxPayloadSize)]. *)
Definition GlobalBuffer_legacy (cap : N) (mm : bool) (file : string) (mps : N)
    (env : MappingEnv) : constructed :=
  GlobalBuffer_new (mkOptions cap mm file mps defaultFieldNames) env.

(** ** Outcomes of a call *)

Inductive outcome (A : Type) : Type :=
| Returns (b : GlobalBuffer) (a : A)
| Throws (b : GlobalBuffer) (e : exn)
| Blocks
| Undefined.
Arguments Returns {A} b a.
Arguments Throws {A} b e.
Arguments Blocks {A}.
Arguments Undefined {A}.

Inductive result (A : Type) : Type :=
| Value (a : A)
| Raise (e : exn)
| OutOfBounds.
Arguments Value {A} a.
Arguments Raise {A} e.
Arguments OutOfBounds {A}.

Definition set_queue (b : GlobalBuffer) (q : list QueueEntry) : GlobalBuffer :=
  mkBuffer (options_ b) (capacity_ b) (fieldNames_ b) q (shutdown_ b)
           (slotSize_ b) (writeIndex_ b) (mappedView_ b) (mappedSize_ b).

Definition set_payload (it : BufferItem) (p : bytes) : BufferItem :=
  mkItem (source it) (timestamp it) p (fieldNames it).

Definition set_fieldNames (it : BufferItem) (f : FieldNames) : BufferItem :=
  mkItem (source it) (timestamp it) (payload it) f.

(** ** The ring invariant of the memory-mapped mode

    The slot geometry is representable in [std::size_t], the view covers
    exactly [capacity_] slots, and the queued entries sit in consecutive slots
    (modulo [capacity_]) that end just before the write cursor. *)
Record ring_ok (b : GlobalBuffer) : Prop := mkRingOk {
  ring_mapped : memoryMapped (options_ b) = true;
  ring_capacity : 0 < capacity_ b;
  ring_slotSize : slotSize_ b = 4 + maxPayloadSize (options_ b);
  ring_fits : slotSize_ b * capacity_ b < 2 ^ 64;
  ring_view : exists view,
      mappedView_ b = Some view /\ N.of_nat (length view) = slotSize_ b * capacity_ b;
  ring_length : N.of_nat (length (queue_ b)) <= capacity_ b;
  ring_slots : exists front,
      front < capacity_ b
      /\ writeIndex_ b = (front + N.of_nat (length (queue_ b))) mod capacity_ b
      /\ forall (i : nat) (e : QueueEntry), queue_ b !! i = Some e ->
           slotIndex e = (front + N.of_nat i) mod capacity_ b
           /\ payloadSize e <= maxPayloadSize (options_ b)
}.

(** The configuration under which the ring is representable: the byte size of
    the ring fits [std::size_t]. *)
Definition geometry_fits (b : GlobalBuffer) : Prop :=
  (4 + maxPayloadSize (options_ b)) * capacity_ b < 2 ^ 64.

(** Every payload the configuration admits has a length that fits the 4-byte
    length prefix. *)
Definition prefix_fits (b : GlobalBuffer) : Prop :=
  maxPayloadSize (options_ b) < 2 ^ 32.

(** What draining hands out for an item accepted by [push] in memory-mapped
    mode: the item itself when its length fits the 4-byte prefix, and the
    size-mismatch error otherwise. *)
Definition stored (b : GlobalBuffer) (it : BufferItem) : result BufferItem :=
  if N.of_nat (length (payload it)) <? 2 ^ 32
  then Value (set_fieldNames it (fieldNames_ b))
  else Raise (runtime_error "Memory-mapped payload size mismatch detected").

Section Operations.

Variable order : byte_order.

(** [GlobalBuffer::push] *)
Definition push (b : GlobalBuffer) (item0 : BufferItem) : outcome unit :=
  if negb (shutdown_ b || (N.of_nat (length (queue_ b)) <? capacity_ b)) then Blocks
  else if shutdown_ b then Returns b tt
  else
    let item1 := set_fieldNames item0 (fieldNames_ b) in
    let payloadSize := N.of_nat (length (payload item1)) in
    if memoryMapped (options_ b) then
      match mappedView_ b with
      | None => Throws b (runtime_error "Memory-mapped buffer is not initialized")
      | Some view =>
          if maxPayloadSize (options_ b) <? payloadSize then
            Throws b (runtime_error
              "Payload size exceeds configured maximum for memory-mapped buffer")
          else
            let slotIndex := writeIndex_ b in
            let offset := wrap64 (slotIndex * slotSize_ b) in
            let storedSize := wrap32 payloadSize in
            match memcpy_to view offset (store_u32 order storedSize) with
            | None => Undefined
            | Some view1 =>
                match (if 0 <? payloadSize
                       then memcpy_to view1 (offset + 4) (payload item1)
                       else Some view1) with
                | None => Undefined
                | Some view2 =>
                    Returns
                      (mkBuffer (options_ b) (capacity_ b) (fieldNames_ b)
                         (queue_ b ++ [mkEntry (set_payload item1 []) payloadSize slotIndex])
                         (shutdown_ b) (slotSize_ b)
                         (wrap64 (writeIndex_ b + 1) mod capacity_ b)
                         (Some view2) (mappedSize_ b))
                      tt
                end
            end
      end
    else
      Returns (set_queue b (queue_ b ++ [mkEntry item1 payloadSize kInvalidSlot])) tt.

(** [GlobalBuffer::materializeEntry] *)
Definition materializeEntry (b : GlobalBuffer) (entry : QueueEntry) : result BufferItem :=
  if memoryMapped (options_ b) && negb (slotIndex entry =? kInvalidSlot) then
    match mappedView_ b with
    | None => OutOfBounds
    | Some view =>
        let offset := wrap64 (slotIndex entry * slotSize_ b) in
        match memcpy_from view offset 4 with
        | None => OutOfBounds
        | Some header =>
            let storedSize := load_u32 order header in
            if negb (storedSize =? payloadSize entry) then
              Raise (runtime_error "Memory-mapped payload size mismatch detected")
            else if 0 <? payloadSize entry then
              match memcpy_from view (offset + 4) (payloadSize entry) with
              | None => OutOfBounds
              | Some data => Value (set_payload (item entry) data)
              end
            else Value (set_payload (item entry) [])
        end
    end
  else Value (item entry).

(** The common tail of [pop] and [tryPop]: the front entry has left the queue
    when [materializeEntry] runs. *)
Definition take_front (b : GlobalBuffer) (entry : QueueEntry) (rest : list QueueEntry)
    : outcome (option BufferItem) :=
  let b' := set_queue b rest in
  match materializeEntry b' entry with
  | Value it => Returns b' (Some it)
  | Raise e => Throws b' e
  | OutOfBounds => Undefined
  end.

(** [GlobalBuffer::pop] *)
Definition pop (b : GlobalBuffer) : outcome (option BufferItem) :=
  if negb (shutdown_ b || negb (N.of_nat (length (queue_ b)) =? 0)) then Blocks
  else
    match queue_ b with
    | [] => Returns b None
    | entry :: rest => take_front b entry rest
    end.

(** [GlobalBuffer::tryPop] *)
Definition tryPop (b : GlobalBuffer) : outcome (option BufferItem) :=
  match queue_ b with
  | [] => Returns b None
  | entry :: rest => take_front b entry rest
  end.

(** [GlobalBuffer::shutdown] *)
Definition shutdown (b : GlobalBuffer) : GlobalBuffer :=
  mkBuffer (options_ b) (capacity_ b) (fieldNames_ b) (queue_ b) true
           (slotSize_ b) (writeIndex_ b) (mappedView_ b) (mappedSize_ b).

(** ** Reachable states *)

Inductive op : Set :=
| OpPush (it : BufferItem)
| OpPop
| OpTryPop
| OpShutdown.

Definition state_of {A} (o : outcome A) : option GlobalBuffer :=
  match o with
  | Returns b _ => Some b
  | Throws b _ => Some b
  | Blocks => None
  | Undefined => None
  end.

(** The buffer once a call has completed, by returning or by throwing. *)
Definition after (b : GlobalBuffer) (o : op) : option GlobalBuffer :=
  match o with
  | OpPush it => state_of (push b it)
  | OpPop => state_of (pop b)
  | OpTryPop => state_of (tryPop b)
  | OpShutdown => Some (shutdown b)
  end.

Inductive reachable (b0 : GlobalBuffer) : GlobalBuffer -> Prop :=
| reach_init : reachable b0 b0
| reach_step b o b' : reachable b0 b -> after b o = Some b' -> reachable b0 b'.

(** ** Histories *)

(** What a completed call hands back to its caller. *)
Inductive reply : Set :=
| Pushed                       (* [push] returned, after enqueuing or as a no-op *)
| Popped (it : BufferItem)     (* [pop]/[tryPop] returned an item *)
| NoItem                       (* [pop]/[tryPop] returned [std::nullopt] *)
| Threw (e : exn)
| Done.                        (* [shutdown] returned *)

Definition reply_of_pop (o : outcome (option BufferItem)) : option (GlobalBuffer * reply) :=
  match o with
  | Returns b (Some it) => Some (b, Popped it)
  | Returns b None => Some (b, NoItem)
  | Throws b e => Some (b, Threw e)
  | Blocks => None
  | Undefined => None
  end.

Definition call (b : GlobalBuffer) (o : op) : option (GlobalBuffer * reply) :=
  match o with
  | OpPush it =>
      match push b it with
      | Returns b' _ => Some (b', Pushed)
      | Throws b' e => Some (b', Threw e)
      | Blocks => None
      | Undefined => None
      end
  | OpPop => reply_of_pop (pop b)
  | OpTryPop => reply_of_pop (tryPop b)
  | OpShutdown => Some (shutdown b, Done)
  end.

(** Runs the calls one after the other; [None] as soon as one of them blocks
    or leaves defined behaviour. *)
Fixpoint run (b : GlobalBuffer) (os : list op) : option (GlobalBuffer * list reply) :=
  match os with
  | [] => Some (b, [])
  | o :: os' =>
      match call b o with
      | None => None
      | Some (b1, r) =>
          match run b1 os' with
          | None => None
          | Some (b2, rs) => Some (b2, r :: rs)
          end
      end
  end.

(** What the queue would hand out, entry by entry, if it were drained now. *)
Definition contents (b : GlobalBuffer) : list (result BufferItem) :=
  map (materializeEntry b) (queue_ b).

(** The buffer that a [push] of [it] leaves behind in memory-mapped mode, when
    [view] is the mapped view before the call. *)
Definition pushed_mapped (b : GlobalBuffer) (it : BufferItem) (view : bytes) : GlobalBuffer :=
  let size := N.of_nat (length (payload it)) in
  let off := writeIndex_ b * slotSize_ b in
  mkBuffer (options_ b) (capacity_ b) (fieldNames_ b)
    (queue_ b ++ [mkEntry (set_payload (set_fieldNames it (fieldNames_ b)) [])
                          size (writeIndex_ b)])
    false (slotSize_ b) ((writeIndex_ b + 1) mod capacity_ b)
    (Some (list_inserts (N.to_nat (off + 4)) (payload it)
             (list_inserts (N.to_nat off) (store_u32 order (wrap32 size)) view)))
    (mappedSize_ b).

(** What every completed call preserves. *)
Record steady (b0 b : GlobalBuffer) : Prop := mkSteady {
  steady_options : options_ b = options_ b0;
  steady_capacity : capacity_ b = capacity_ b0;
  steady_names : fieldNames_ b = fieldNames_ b0;
  steady_ring : memoryMapped (options_ b0) = true -> ring_ok b;
  steady_intact : prefix_fits b0 -> exists items, contents b = map Value items
}.

End Operations.

(** The replies a buffer that is shut down and still holds [items] is expected
    to give to a sequence of calls: pushes are no-ops, and the pops hand out
    the items in order and then report that there is none. *)
Fixpoint drain_replies (items : list BufferItem) (os : list op) : list reply :=
  match os with
  | [] => []
  | OpPush _ :: os' => Pushed :: drain_replies items os'
  | OpShutdown :: os' => Done :: drain_replies items os'
  | _ :: os' =>
      match items with
      | [] => NoItem :: drain_replies [] os'
      | it :: items' => Popped it :: drain_replies items' os'
      end
  end.

(** The number of [pop] and [tryPop] calls in a sequence. *)
Fixpoint pops_in (os : list op) : nat :=
  match os with
  | [] => 0
  | OpPop :: os' => S (pops_in os')
  | OpTryPop :: os' => S (pops_in os')
  | _ :: os' => pops_in os'
  end.

(** ** Histories of pushes and pops *)

(** The items a history of replies handed out. *)
Fixpoint popped (rs : list reply) : list BufferItem :=
  match rs with
  | [] => []
  | Popped it :: rs' => it :: popped rs'
  | _ :: rs' => popped rs'
  end.

(** The items a history of calls put into the queue: those of the pushes that
    returned before the first [shutdown()], with the field names [names] the
    buffer gives them. [down] tells whether the buffer is shut down when the
    history starts. *)
Fixpoint enqueued (names : FieldNames) (down : bool) (os : list op) (rs : list reply)
    : list BufferItem :=
  match os, rs with
  | OpPush it :: os', Pushed :: rs' =>
      (if down then [] else [set_fieldNames it names]) ++ enqueued names down os' rs'
  | OpShutdown :: os', _ :: rs' => enqueued names true os' rs'
  | _ :: os', _ :: rs' => enqueued names down os' rs'
  | _, _ => []
  end.

(** ** Worked instances *)

Definition ex_item (p : bytes) : BufferItem := mkItem "dev0"%string 0 p defaultFieldNames.

(** A heap-mode buffer for two entries. *)
Definition ex_heap_options : Options := mkOptions 2 false EmptyString 0 defaultFieldNames.

Definition ex_heap : GlobalBuffer :=
  mkBuffer (normalizeOptions ex_heap_options) 2 defaultFieldNames [] false 0 0 None 0.

Definition ex_heap_full : GlobalBuffer :=
  set_queue ex_heap
    [ mkEntry (ex_item [x41]) 1 kInvalidSlot; mkEntry (ex_item [x42; x43]) 2 kInvalidSlot ].

(** A memory-mapped ring of two slots of [4 + 4] bytes. *)
Definition ex_ring_options : Options := mkOptions 2 true "ring.mmap"%string 4 defaultFieldNames.

Definition ex_ring : GlobalBuffer :=
  mkBuffer (normalizeOptions ex_ring_options) 2 defaultFieldNames [] false 8 0
           (Some (replicate 16 x00)) 16.

(** [ex_ring] after [push] of the payload [41 42]. *)
Definition ex_ring_one : GlobalBuffer :=
  mkBuffer (normalizeOptions ex_ring_options) 2 defaultFieldNames
    [ mkEntry (ex_item []) 2 0 ] false 8 1
    (Some ([x02; x00; x00; x00; x41; x42] ++ replicate 10 x00)%list) 16.

(** [ex_ring_one] with the length prefix of its slot altered from 2 to 3, as
    another process writing to the backing file can leave it. *)
Definition ex_ring_altered : GlobalBuffer :=
  mkBuffer (normalizeOptions ex_ring_options) 2 defaultFieldNames
    [ mkEntry (ex_item []) 2 0 ] false 8 1
    (Some ([x03; x00; x00; x00; x41; x42] ++ replicate 10 x00)%list) 16.

(** A history on [ex_ring]: two pushes with a pop in between. *)
Definition ex_history : list op :=
  [OpPush (ex_item [x61]); OpPop; OpPush (ex_item [x41; x42])].

Definition ex_history_end : GlobalBuffer :=
  Eval vm_compute in
    match run LittleEndian ex_ring ex_history with
    | Some (b, _) => b
    | None => ex_ring
    end.

End Buffer.

(** * The producer lifecycle ([StreamingSessions.h]) *)

Module Session.

Local Open Scope string_scope.

(** How the derived class's [run()] ends on the worker thread: it returns (the
    loop saw the flag cleared, reached end of input, or left with [break] on a
    read error), or it throws. *)
Inductive run_result : Set :=
| RunReturns
| RunThrows (e : exn).

(** [worker_]: no thread, a thread inside [threadMain], or a thread whose
    [threadMain] has returned but which has not been joined. The last two are
    [joinable()]. *)
Inductive worker : Set :=
| NoThread
| Active
| Finished.

Definition joinable (w : worker) : bool :=
  match w with
  | NoThread => false
  | Active => true
  | Finished => true
  end.

(** [runs] counts the worker threads spawned and [cleanups] the calls of the
    [cleanup()] hook; both are observations, not members of the class. *)
Record StreamingSession : Set := mkSession {
  running_ : bool;
  worker_ : worker;
  runs : nat;
  cleanups : nat
}.

Definition initial : StreamingSession := mkSession false NoThread 0 0.

(** [Terminated e]: [std::terminate] was called, which aborts the whole process
    and with it every producer thread, the consumer thread and the buffer. *)
Inductive process : Set :=
| Live (s : StreamingSession)
| Terminated (e : option exn).

Definition isRunning (s : StreamingSession) : bool := running_ s.

(** [StreamingSession::threadMain]: the session afterwards and the exception
    that leaves the function, if any. *)
Definition threadMain (r : run_result) (s : StreamingSession)
    : StreamingSession * option exn :=
  match r with
  | RunThrows e =>
      (* catch (...) { running_.store(false); throw; } *)
      (mkSession false (worker_ s) (runs s) (cleanups s), Some e)
  | RunReturns =>
      (mkSession false (worker_ s) (runs s) (cleanups s), None)
  end.

(** The worker thread runs [threadMain] as its initial function; an exception
    that leaves the initial function of a [std::thread] calls
    [std::terminate]. *)
Definition worker_exit (r : run_result) (s : StreamingSession) : process :=
  match threadMain r s with
  | (s', None) => Live (mkSession (running_ s') Finished (runs s') (cleanups s'))
  | (_, Some e) => Terminated (Some e)
  end.

(** [StreamingSession::start]. Move-assigning to a [std::thread] that is still
    joinable calls [std::terminate]. *)
Definition start (s : StreamingSession) : process :=
  if running_ s then Live s
  else if joinable (worker_ s) then Terminated None
  else Live (mkSession true Active (S (runs s)) (cleanups s)).

(** [cleanup()] *)
Definition cleanup (s : StreamingSession) : StreamingSession :=
  mkSession (running_ s) (worker_ s) (runs s) (S (cleanups s)).

(** [worker_.join()]. When the worker is still inside [threadMain], the call
    returns once the worker has ended, in the way [r] says; the thread is not
    joinable afterwards. *)
Definition join (r : run_result) (s : StreamingSession) : process :=
  match worker_ s with
  | Active =>
      match worker_exit r s with
      | Live s' => Live (mkSession (running_ s') NoThread (runs s') (cleanups s'))
      | Terminated e => Terminated e
      end
  | _ => Live (mkSession (running_ s) NoThread (runs s) (cleanups s))
  end.

(** [StreamingSession::stop] *)
Definition stop (r : run_result) (s : StreamingSession) : process :=
  let s1 := mkSession false (worker_ s) (runs s) (cleanups s) in
  match (if joinable (worker_ s1) then join r s1 else Live s1) with
  | Live s2 => Live (cleanup s2)
  | Terminated e => Terminated e
  end.

(** Calls of the owner and the end of the worker's [run()]. *)
Inductive event : Set :=
| Start
| Stop (r : run_result)
| WorkerEnds (r : run_result).

Definition step (p : process) (ev : event) : process :=
  match p with
  | Terminated e => Terminated e
  | Live s =>
      match ev with
      | Start => start s
      | Stop r => stop r s
      | WorkerEnds r =>
          match worker_ s with
          | Active => worker_exit r s
          | _ => Live s
          end
      end
  end.

Definition steps (p : process) (evs : list event) : process := fold_left step evs p.

(** The numbers of [start()] and of [stop()] calls in a sequence of events. *)
Definition is_start (ev : event) : bool :=
  match ev with Start => true | _ => false end.

Definition is_stop (ev : event) : bool :=
  match ev with Stop _ => true | _ => false end.

Definition starts_in (evs : list event) : nat :=
  length (List.filter is_start evs).

Definition stops_in (evs : list event) : nat :=
  length (List.filter is_stop evs).

(** How [FileSession::run] ends ([FileSession.cpp]): at once when the session
    is disabled, with an exception when the input file cannot be opened, and
    by returning when the read loop is left. *)
Definition FileSession_run (enabled : bool) (path : string) (opens : bool) : run_result :=
  if negb enabled then RunReturns
  else if negb opens then RunThrows (runtime_error ("Failed to open input file: " ++ path))
  else RunReturns.

End Session.

(** * Record formatting ([CsvWriter.cpp]) *)

Module Csv.

Import Buffer.

Local Open Scope string_scope.

Record CsvSettings : Set := mkCsv {
  outputPath : string;
  delimiter : ascii;
  quoteStrings : bool;
  includeTimestamp : bool;
  flushInterval : Z;
  timestampFormat : string
}.

(** The double quote character. *)
Definition dq : ascii := "034"%char.

(** [CsvWriter::escape] *)
Fixpoint escape (value : string) : string :=
  match value with
  | EmptyString => EmptyString
  | String ch rest =>
      if Ascii.eqb ch dq then String ch (String dq (escape rest))
      else String ch (escape rest)
  end.

(** One digit as [std::hex] prints it. *)
Definition hex_digit (n : N) : ascii :=
  match n with
  | 0 => "0" | 1 => "1" | 2 => "2" | 3 => "3" | 4 => "4" | 5 => "5" | 6 => "6" | 7 => "7"
  | 8 => "8" | 9 => "9" | 10 => "a" | 11 => "b" | 12 => "c" | 13 => "d" | 14 => "e"
  | _ => "f"
  end%N%char.

(** [std::hex << std::setfill('0') << std::setw(2) << static_cast<unsigned>(b)] *)
Definition hex_byte (b : byte) : string :=
  let n := Byte.to_N b in
  if (n <? 16)%N then String "0" (String (hex_digit n) EmptyString)
  else String (hex_digit (n / 16)) (String (hex_digit (n mod 16)) EmptyString).

(** The payload loop: a space follows every byte but the last
    ([i + 1 < item.payload.size()]). *)
Fixpoint hex_payload (p : bytes) : string :=
  match p with
  | [] => EmptyString
  | b :: rest =>
      hex_byte b ++ (match rest with [] => EmptyString | _ :: _ => " " end) ++ hex_payload rest
  end.

(** The spec's words for [escape]: every double quote is written twice and
    every other character once. *)
Definition doubled (value : string) : string :=
  string_of_list_ascii
    (flat_map (fun ch => if Ascii.eqb ch dq then [dq; dq] else [ch])
              (list_ascii_of_string value)).

(** A text between two double quotes, as it is. *)
Definition in_quotes (text : string) : string :=
  String dq (text ++ String dq EmptyString).

(** A column in quoting mode. *)
Definition quoted (value : string) : string :=
  String dq (doubled value ++ String dq EmptyString).

(** Lowercase hex byte pairs separated by single spaces. *)
Definition hex_pairs (p : bytes) : string := String.concat " " (map hex_byte p).

(** [s] does not begin with a double quote. *)
Definition no_quote_ahead (s : string) : Prop :=
  match s with
  | EmptyString => True
  | String c _ => c <> dq
  end.

(** The value of a digit [std::hex] prints; 16 for any other character. *)
Definition hex_value (c : ascii) : N :=
  match c with
  | "0" => 0 | "1" => 1 | "2" => 2 | "3" => 3 | "4" => 4 | "5" => 5 | "6" => 6 | "7" => 7
  | "8" => 8 | "9" => 9 | "a" => 10 | "b" => 11 | "c" => 12 | "d" => 13 | "e" => 14
  | "f" => 15 | _ => 16
  end%char%N.

Section Format.

(** [std::put_time] applied to [localtime] of the timestamp, with the format
    string of the settings: a function of the C library. *)
Variable put_time : Z -> string -> string.

Variable settings_ : CsvSettings.

(** The lambda [appendColumn], on the pair of [firstColumn] and the text
    written to [oss] so far. *)
Definition appendColumn (st : bool * string) (value : string) : bool * string :=
  let '(firstColumn, oss) := st in
  let oss1 := if negb firstColumn then oss ++ String (delimiter settings_) EmptyString
              else oss in
  let oss2 := if quoteStrings settings_
              then oss1 ++ String dq EmptyString ++ escape value ++ String dq EmptyString
              else oss1 ++ value in
  (false, oss2).

(** [CsvWriter::formatRecord] *)
Definition formatRecord (item : BufferItem) : string :=
  let st0 := (true, EmptyString) in
  let st1 := if includeTimestamp settings_
             then appendColumn st0 (put_time (timestamp item) (timestampFormat settings_))
             else st0 in
  let st2 := appendColumn st1 (source item) in
  let st3 := appendColumn st2 (hex_payload (payload item)) in
  snd st3.

(** The columns of a record, in order. *)
Definition columns (item : BufferItem) : list string :=
  ((if includeTimestamp settings_
    then [put_time (timestamp item) (timestampFormat settings_)] else [])
   ++ [source item; hex_pairs (payload item)])%list.

End Format.

End Csv.

(** * The consumer ([CsvWriter.cpp]) *)

Module Writer.

Import Buffer Csv.

Local Open Scope string_scope.

(** [std::ofstream output_], opened in append mode: [file] is the text the
    file holds and [pending] the text inserted into the stream and not yet
    flushed. (The stream may flush [pending] by itself earlier; the model
    keeps it until [flush] or [close], so that [file] is what is certain to
    have reached the file.) *)
Record stream : Set := mkStream {
  is_open : bool;
  file : string;
  pending : string
}.

Definition closed_stream : stream := mkStream false EmptyString EmptyString.

(** [output_ << text]: a stream that is not open takes nothing. *)
Definition insert (o : stream) (text : string) : stream :=
  if is_open o then mkStream true (file o) (pending o ++ text) else o.

(** [output_.flush()] *)
Definition flush (o : stream) : stream :=
  if is_open o then mkStream true (file o ++ pending o) EmptyString else o.

(** [output_.close()] *)
Definition close (o : stream) : stream :=
  mkStream false (file (flush o)) EmptyString.

(** The worker thread at the head of the loop of [run]: the local [nextFlush]
    and the number of readings of [steady_clock] taken so far. *)
Record loop_state : Set := mkLoop {
  nextFlush : Z;
  ticks : nat
}.

Record CsvWriter : Set := mkWriter {
  settings_ : CsvSettings;
  running_ : bool;
  output_ : stream;
  worker_ : option loop_state     (* [None]: not joinable *)
}.

Definition set_output (w : CsvWriter) (o : stream) : CsvWriter :=
  mkWriter (settings_ w) (running_ w) o (worker_ w).

Definition set_worker (w : CsvWriter) (l : option loop_state) : CsvWriter :=
  mkWriter (settings_ w) (running_ w) (output_ w) l.

Definition set_running (w : CsvWriter) (r : bool) : CsvWriter :=
  mkWriter (settings_ w) r (output_ w) (worker_ w).

(** How a stretch of the loop of [run] ends. *)
Inductive loop_end : Set :=
| Exits                 (* [break]: [run] returns *)
| Waits                 (* blocked in [buffer_.pop()] *)
| Goes_on               (* still looping when the fuel is used up *)
| Escapes (e : exn)     (* an exception of [pop] leaves [run] *)
| Undefined_read.       (* [pop] left defined behaviour *)

Section Run.

Variable order : byte_order.
Variable put_time : Z -> string -> string.

(** The readings of [std::chrono::steady_clock::now()], in the order in which
    they are taken. *)
Variable now : nat -> Z.

(** The loop of [CsvWriter::run], for at most [fuel] iterations, with no other
    thread acting on the buffer or on [running_] meanwhile. *)
Fixpoint run_loop (fuel : nat) (w : CsvWriter) (l : loop_state) (b : GlobalBuffer)
    : loop_end * CsvWriter * GlobalBuffer :=
  match fuel with
  | O => (Goes_on, set_worker w (Some l), b)
  | S fuel' =>
      match Buffer.pop order b with
      | Blocks => (Waits, set_worker w (Some l), b)
      | Undefined => (Undefined_read, set_worker w (Some l), b)
      | Throws b' e => (Escapes e, set_worker w (Some l), b')
      | Returns b' None =>
          if negb (running_ w) then (Exits, set_worker w (Some l), b')
          else run_loop fuel' w l b'
      | Returns b' (Some item) =>
          let line := formatRecord put_time (settings_ w) item in
          let w1 := set_output w (insert (output_ w) (line ++ String "010" EmptyString)) in
          if (flushInterval (settings_ w) =? 0)%Z then
            run_loop fuel' (set_output w1 (flush (output_ w1))) l b'
          else if (nextFlush l <=? now (ticks l))%Z then
            run_loop fuel' (set_output w1 (flush (output_ w1)))
              (mkLoop (now (S (ticks l)) + flushInterval (settings_ w))%Z (S (S (ticks l))))
              b'
          else run_loop fuel' w1 (mkLoop (nextFlush l) (S (ticks l))) b'
      end
  end.

Inductive started : Set :=
| Started (w : CsvWriter)
| StartThrows (w : CsvWriter) (e : exn)
| StartTerminates.

(** [CsvWriter::start]. [opens] tells whether the output file can be opened
    and [existing] is the text it holds then; [tick] is the number of clock
    readings taken before the worker starts. [open] on a stream that is
    already open fails and leaves it open. *)
Definition start (opens : bool) (existing : string) (tick : nat) (w : CsvWriter) : started :=
  if running_ w then Started w
  else
    let o := if is_open (output_ w) then output_ w
             else if opens then mkStream true existing EmptyString
             else output_ w in
    if negb (is_open o) then
      StartThrows (mkWriter (settings_ w) false o (worker_ w))
        (runtime_error ("Failed to open CSV output: " ++ outputPath (settings_ w)))
    else
      match worker_ w with
      | Some _ => StartTerminates
      | None =>
          Started (mkWriter (settings_ w) true o
                     (Some (mkLoop (now tick + flushInterval (settings_ w))%Z (S tick))))
      end.

Inductive stopped : Set :=
| Stopped (w : CsvWriter) (b : GlobalBuffer)
| StopTerminates (e : exn)    (* the worker's exception reached [std::terminate] *)
| StopHangs.                  (* [join] has not returned within the fuel *)

(** The end of [CsvWriter::stop]: flush and close when the stream is open. *)
Definition finish (w : CsvWriter) : CsvWriter :=
  if is_open (output_ w) then set_output w (close (flush (output_ w))) else w.

(** [CsvWriter::stop]; [join] lets the worker run its loop to the end. *)
Definition stop (fuel : nat) (w : CsvWriter) (b : GlobalBuffer) : stopped :=
  let w1 := set_running w false in
  let b1 := shutdown b in
  match worker_ w1 with
  | Some l =>
      match run_loop fuel w1 l b1 with
      | (Exits, w2, b2) => Stopped (finish (set_worker w2 None)) b2
      | (Escapes e, _, _) => StopTerminates e
      | _ => StopHangs
      end
  | None => Stopped (finish w1) b1
  end.

(** The lines [run] writes for a list of records. *)
Fixpoint lines (settings : CsvSettings) (items : list BufferItem) : string :=
  match items with
  | [] => EmptyString
  | it :: rest =>
      (formatRecord put_time settings it ++ String "010" EmptyString) ++ lines settings rest
  end.

(** All the text handed to the stream so far. *)
Definition written (w : CsvWriter) : string := file (output_ w) ++ pending (output_ w).

End Run.

(** A started writer, with one line already in its file. *)
Definition ex_writer : CsvWriter :=
  mkWriter (mkCsv "output.csv" "," true true 1000 "%Y-%m-%d") true
           (mkStream true ("old line" ++ String "010" EmptyString) EmptyString)
           (Some (mkLoop 0 0)).

End Writer.

(** * The file producer ([FileSession.cpp]) *)

Module FileInput.

Import Buffer.

Local Open Scope string_scope.

Record FileInputSettings : Set := mkFileInput {
  enabled : bool;
  path : string;
  follow : bool;
  readChunkSize : N;
  pollInterval : Z
}.

(** [std::ifstream input], opened in binary mode: the bytes after the read
    position, and whether the stream is [good()]. *)
Record ifstream : Set := mkInput {
  ahead : bytes;
  good : bool
}.

(** [input.read(temp.data(), n)], with the bytes it extracts; their number is
    [input.gcount()]. A stream that is not good extracts nothing; a good one
    extracts [n] bytes, or all the bytes that are left when these are fewer,
    and then sets [eofbit] and [failbit]. *)
Definition read (input : ifstream) (n : N) : bytes * ifstream :=
  if good input then
    let got := take (N.to_nat n) (ahead input) in
    (got, mkInput (drop (N.to_nat n) (ahead input)) (N.of_nat (length got) =? n)%N)
  else ([], input).

(** [input.clear()] *)
Definition clear (input : ifstream) : ifstream := mkInput (ahead input) true.

(** What the construction of the read buffer, [std::vector<char> temp(n)], can
    throw: [std::length_error] when [n] is above [max_size()], and
    [std::bad_alloc] when the allocator cannot provide [n] bytes. *)
Inductive alloc_error : Set :=
| length_error
| bad_alloc.

(** [std::vector<char>::max_size()] on an LP64 platform: [PTRDIFF_MAX]. *)
Definition max_size : N := 2 ^ 63 - 1.

(** How [run], or a stretch of its loop, ends. *)
Inductive run_end : Set :=
| Returned                        (* [run] returns *)
| Waiting                         (* blocked in [buffer_.push] *)
| Looping                         (* still looping when the fuel is used up *)
| Escaped (e : exn)               (* an exception leaves [run] *)
| Escaped_alloc (a : alloc_error) (* the read buffer could not be constructed *)
| Undefined_write.                (* [push] left defined behaviour *)

Section Run.

Variable order : byte_order.

(** The reading of [std::chrono::system_clock::now()] and the value of
    [isRunning()] in each iteration of the loop. *)
Variable now : nat -> Z.
Variable running : nat -> bool.

(** Whether the allocator can provide [n] bytes when [run] constructs its read
    buffer. *)
Variable allocates : N -> bool.

(** The loop of [FileSession::run] from its iteration [k] on, for at most
    [fuel] iterations, with the file unchanged and no other thread acting on
    the buffer meanwhile. The vector [temp] has [readChunkSize] elements. *)
Fixpoint read_loop (fuel : nat) (settings_ : FileInputSettings) (k : nat)
    (input : ifstream) (b : GlobalBuffer) : run_end * ifstream * GlobalBuffer :=
  match fuel with
  | O => (Looping, input, b)
  | S fuel' =>
      if negb (running k) then (Returned, input, b)
      else
        let (got, input1) := read input (readChunkSize settings_) in
        let count := length got in
        match (if (0 <? count)%nat
               then push order b (mkItem (path settings_) (now k) got defaultFieldNames)
               else Returns b tt) with
        | Blocks => (Waiting, input1, b)
        | Undefined => (Undefined_write, input1, b)
        | Throws b' e => (Escaped e, input1, b')
        | Returns b' _ =>
            if (count =? 0)%nat then
              if negb (follow settings_) then (Returned, input1, b')
              else read_loop fuel' settings_ (S k)
                     (if good input1 then input1 else clear input1) b'
            else read_loop fuel' settings_ (S k) input1 b'
        end
  end.

(** [FileSession::run]; [opens] tells whether the input file can be opened and
    [data] is what it holds. The read buffer [temp] is constructed after the
    file has been opened and before the loop is entered. *)
Definition run (fuel : nat) (settings_ : FileInputSettings) (opens : bool) (data : bytes)
    (b : GlobalBuffer) : run_end * GlobalBuffer :=
  if negb (enabled settings_) then (Returned, b)
  else if negb opens then
    (Escaped (runtime_error ("Failed to open input file: " ++ path settings_)), b)
  else if (max_size <? readChunkSize settings_)%N then (Escaped_alloc length_error, b)
  else if negb (allocates (readChunkSize settings_)) then (Escaped_alloc bad_alloc, b)
  else
    match read_loop fuel settings_ 0 (mkInput data true) b with
    | (e, _, b') => (e, b')
    end.

(** The queue entries of a heap-mode buffer for the chunks [cs] pushed from
    iteration [k] on. *)
Fixpoint pushed_chunks (settings_ : FileInputSettings) (names : FieldNames) (k : nat)
    (cs : list bytes) : list QueueEntry :=
  match cs with
  | [] => []
  | c :: cs' =>
      mkEntry (mkItem (path settings_) (now k) c names) (N.of_nat (length c)) kInvalidSlot
      :: pushed_chunks settings_ names (S k) cs'
  end.

End Run.

(** [data] cut into pieces of [n] bytes, the last one possibly shorter. *)
Fixpoint chunks (fuel n : nat) (data : bytes) : list bytes :=
  match fuel with
  | O => []
  | S fuel' =>
      match data with
      | [] => []
      | _ :: _ => take n data :: chunks fuel' n (drop n data)
      end
  end.

Definition ex_file_settings : FileInputSettings :=
  mkFileInput true "in.bin" false 2 200.

End FileInput.

(** * The configuration file ([Config.cpp], [Config.h]) *)

Module Config.

Local Open Scope string_scope.

(** What the functions of [Config.cpp] throw: their own [std::runtime_error],
    and the [std::invalid_argument] and [std::out_of_range] of
    [std::stoull]. *)
Inductive thrown : Set :=
| Std (e : exn)
| out_of_range (what : string).

(** The error monad of the parsing functions. *)
Definition parsed (A : Type) : Type := thrown + A.

Definition ret {A : Type} (a : A) : parsed A := inr a.

Definition throw {A : Type} (what : string) : parsed A := inl (Std (runtime_error what)).

Definition bind {A B : Type} (m : parsed A) (k : A -> parsed B) : parsed B :=
  match m with
  | inl e => inl e
  | inr a => k a
  end.

Notation "x <- m ;; k" := (bind m (fun x => k))
  (at level 100, m at level 99, k at level 100, right associativity).

(** ** Characters (the C locale, which the program never changes) *)

Definition isspace (ch : ascii) : bool :=
  let n := N_of_ascii ch in ((n =? 32) || ((9 <=? n) && (n <=? 13)))%N.

Definition isdigit (ch : ascii) : bool :=
  let n := N_of_ascii ch in ((48 <=? n) && (n <=? 57))%N.

Definition tolower (ch : ascii) : ascii :=
  let n := N_of_ascii ch in
  if ((65 <=? n) && (n <=? 90))%N then ascii_of_N (n + 32) else ch.

(** [std::transform(..., tolower)] over a whole string. *)
Fixpoint lower (s : string) : string :=
  match s with
  | EmptyString => EmptyString
  | String ch rest => String (tolower ch) (lower rest)
  end.

Definition empty (s : string) : bool :=
  match s with
  | EmptyString => true
  | String _ _ => false
  end.

(** [front()] and [back()], of a string that is not empty. *)
Definition front (s : string) : option ascii :=
  match s with
  | EmptyString => None
  | String ch _ => Some ch
  end.

Fixpoint back (s : string) : option ascii :=
  match s with
  | EmptyString => None
  | String ch EmptyString => Some ch
  | String _ rest => back rest
  end.

Definition is_char (ch : ascii) (o : option ascii) : bool :=
  match o with
  | Some c => Ascii.eqb c ch
  | None => false
  end.

(** [value.substr(pos)] *)
Definition substr_from (pos : nat) (value : string) : string :=
  substring pos (String.length value - pos) value.

(** [line.find(ch)]; [None] is [npos]. *)
Fixpoint find (ch : ascii) (s : string) : option nat :=
  match s with
  | EmptyString => None
  | String c rest => if Ascii.eqb c ch then Some O else option_map S (find ch rest)
  end.

(** ** [Config::trim] *)

(** [std::find_if_not(value.begin(), value.end(), isSpace) - value.begin()] *)
Fixpoint find_if_not_space (value : string) : nat :=
  match value with
  | EmptyString => O
  | String ch rest => if isspace ch then S (find_if_not_space rest) else O
  end.

(** [std::find_if_not(value.rbegin(), value.rend(), isSpace).base() -
    value.begin()]: one past the last character that is no space, and zero
    when there is none. *)
Fixpoint rfind_if_not_space (value : string) : nat :=
  match value with
  | EmptyString => O
  | String ch rest =>
      match rfind_if_not_space rest with
      | O => if isspace ch then O else 1%nat
      | S e => S (S e)
      end
  end.

Definition trim (value : string) : string :=
  let begin_ := find_if_not_space value in
  let end_ := rfind_if_not_space value in
  if (end_ <=? begin_)%nat then EmptyString
  else substring begin_ (end_ - begin_) value.

(** ** [Config::parseBool] *)

Definition parseBool (value : string) : parsed bool :=
  if empty value then ret false
  else
    let lower_ := lower value in
    if (lower_ =? "true") || (lower_ =? "1") || (lower_ =? "yes") || (lower_ =? "on")
    then ret true
    else if (lower_ =? "false") || (lower_ =? "0") || (lower_ =? "no") || (lower_ =? "off")
    then ret false
    else throw ("Invalid boolean value: " ++ value).

(** ** [std::stoull(value, &idx, 10)] *)

Definition digit_value (ch : ascii) : N := N_of_ascii ch - 48.

(** The digits at the head of [s], read from the left: their value, with [acc]
    the value read before, and their number. *)
Fixpoint digits (acc : N) (s : string) : N * nat :=
  match s with
  | EmptyString => (acc, O)
  | String ch rest =>
      if isdigit ch then
        match digits (10 * acc + digit_value ch) rest with
        | (v, used) => (v, S used)
        end
      else (acc, O)
  end.

(** [strtoull] skips white space, takes an optional sign and then the longest
    run of digits; the value of a text with a minus sign is negated in the
    unsigned type. [stoull] throws [std::invalid_argument] when there is no
    digit and [std::out_of_range] when the digits exceed [ULLONG_MAX]. The
    second component is [idx]. *)
Definition stoull (value : string) : parsed (N * nat) :=
  let ws := find_if_not_space value in
  let s1 := substr_from ws value in
  let '(neg, sign, s2) :=
    match s1 with
    | String ch rest =>
        if Ascii.eqb ch "-" then (true, 1%nat, rest)
        else if Ascii.eqb ch "+" then (false, 1%nat, rest)
        else (false, O, s1)
    | EmptyString => (false, O, s1)
    end in
  match digits 0 s2 with
  | (_, O) => inl (Std (invalid_argument "stoull"))
  | (v, used) =>
      if (SIZE_MAX <? v)%N then inl (out_of_range "stoull")
      else ret (if neg then wrap64 (2 ^ 64 - v) else v, (ws + sign + used)%nat)
  end.

(** ** [Config::parseSize] and the functions built on it *)

Definition parseSize (value : string) : parsed N :=
  if empty value then throw "Numeric value expected, got empty string"
  else
    r <- stoull value ;;
    let '(number, idx) := r in
    if (idx <? String.length value)%nat then
      let suffix := lower (trim (substr_from idx value)) in
      if (suffix =? "k") || (suffix =? "kb") then ret (wrap64 (number * 1024))
      else if (suffix =? "m") || (suffix =? "mb") then ret (wrap64 (number * (1024 * 1024)))
      else if negb (empty suffix) then throw ("Unknown size suffix: " ++ suffix)
      else ret number
    else ret number.

(** [static_cast<long long>] of a [std::size_t]. *)
Definition to_signed64 (n : N) : Z :=
  if (n <? 2 ^ 63)%N then Z.of_N n else (Z.of_N n - 2 ^ 64)%Z.

Definition parseDurationMs (value : string) : parsed Z :=
  n <- parseSize value ;; ret (to_signed64 n).

Definition parseUnsigned (value : string) : parsed N :=
  n <- parseSize value ;; ret (wrap32 n).

Definition parsePort (value : string) : parsed N :=
  parsed_ <- parseSize value ;;
  if (65535 <? parsed_)%N then throw ("Port value out of range: " ++ value)
  else ret (parsed_ mod 2 ^ 16).

(** ** The settings ([Config.h]) *)

Record ThreadingSettings : Set := mkThreading {
  ioThreadCount : N
}.

(** [fieldNames] is the member that [Config.cpp] and [main.cpp] use. *)
Record BufferSettings : Set := mkBufferSettings {
  capacity : N;
  maxPayloadSize : N;
  memoryMapped : bool;
  backingFile : string;
  fieldNames : Buffer.FieldNames
}.

Record SerialInputSettings : Set := mkSerialInput {
  serial_enabled : bool;
  serial_port : string;
  baudRate : N;
  serial_readChunkSize : N
}.

Record IpInputSettings : Set := mkIpInput {
  ip_enabled : bool;
  host : string;
  ip_port : N;
  udp : bool;
  ip_readChunkSize : N
}.

Record Config : Set := mkConfig {
  threading : ThreadingSettings;
  buffer : BufferSettings;
  csv : Csv.CsvSettings;
  fileInput : FileInput.FileInputSettings;
  serialInput : SerialInputSettings;
  ipInput : IpInputSettings
}.

(** The default-constructed [Config]; [names] are the default field names of
    its buffer settings. *)
Definition default_config (names : Buffer.FieldNames) : Config :=
  mkConfig (mkThreading 1)
           (mkBufferSettings 1024 4096 false EmptyString names)
           (Csv.mkCsv "output.csv" "," true true 1000 "%Y-%m-%d %H:%M:%S")
           (FileInput.mkFileInput false EmptyString false 4096 200)
           (mkSerialInput false EmptyString 9600 256)
           (mkIpInput false "127.0.0.1" 0 false 512).

Definition set_threading (c : Config) (x : ThreadingSettings) : Config :=
  mkConfig x (buffer c) (csv c) (fileInput c) (serialInput c) (ipInput c).

Definition set_buffer (c : Config) (x : BufferSettings) : Config :=
  mkConfig (threading c) x (csv c) (fileInput c) (serialInput c) (ipInput c).

Definition set_csv (c : Config) (x : Csv.CsvSettings) : Config :=
  mkConfig (threading c) (buffer c) x (fileInput c) (serialInput c) (ipInput c).

Definition set_fileInput (c : Config) (x : FileInput.FileInputSettings) : Config :=
  mkConfig (threading c) (buffer c) (csv c) x (serialInput c) (ipInput c).

Definition set_serialInput (c : Config) (x : SerialInputSettings) : Config :=
  mkConfig (threading c) (buffer c) (csv c) (fileInput c) x (ipInput c).

Definition set_ipInput (c : Config) (x : IpInputSettings) : Config :=
  mkConfig (threading c) (buffer c) (csv c) (fileInput c) (serialInput c) x.

(** ** [Config::loadFromFile] *)

Inductive Section_ : Set :=
| SectionNone
| Common
| Buffer_
| Csv_
| FileInput_
| SerialInput_
| IpInput_.

(** [buildSectionMap()] and the lookup in it. *)
Definition sectionMap : list (string * Section_) :=
  [ ("common", Common); ("buffer", Buffer_); ("csv", Csv_); ("file_input", FileInput_);
    ("serial_input", SerialInput_); ("ip_input", IpInput_) ].

Fixpoint sectionMap_find (m : list (string * Section_)) (name : string) : option Section_ :=
  match m with
  | [] => None
  | (k, v) :: m' => if (k =? name) then Some v else sectionMap_find m' name
  end.

(** The [switch] on the current section: the assignment that a line
    [key = value] makes. *)
Definition assign (section : Section_) (key value : string) (config : Config)
    : parsed Config :=
  match section with
  | Common =>
      if key =? "io_thread_count" then
        n <- parseSize value ;; ret (set_threading config (mkThreading n))
      else throw ("Unknown key in [common]: " ++ key)
  | Buffer_ =>
      let b := buffer config in
      let f := fieldNames b in
      if key =? "capacity" then
        n <- parseSize value ;;
        ret (set_buffer config
               (mkBufferSettings n (maxPayloadSize b) (memoryMapped b) (backingFile b) f))
      else if key =? "max_payload_size" then
        n <- parseSize value ;;
        ret (set_buffer config
               (mkBufferSettings (capacity b) n (memoryMapped b) (backingFile b) f))
      else if key =? "memory_mapped" then
        v <- parseBool value ;;
        ret (set_buffer config
               (mkBufferSettings (capacity b) (maxPayloadSize b) v (backingFile b) f))
      else if key =? "backing_file" then
        ret (set_buffer config
               (mkBufferSettings (capacity b) (maxPayloadSize b) (memoryMapped b) value f))
      else if key =? "source_field" then
        ret (set_buffer config
               (mkBufferSettings (capacity b) (maxPayloadSize b) (memoryMapped b)
                  (backingFile b)
                  (Buffer.mkFieldNames value (Buffer.fn_timestamp f) (Buffer.fn_payload f))))
      else if key =? "timestamp_field" then
        ret (set_buffer config
               (mkBufferSettings (capacity b) (maxPayloadSize b) (memoryMapped b)
                  (backingFile b)
                  (Buffer.mkFieldNames (Buffer.fn_source f) value (Buffer.fn_payload f))))
      else if key =? "payload_field" then
        ret (set_buffer config
               (mkBufferSettings (capacity b) (maxPayloadSize b) (memoryMapped b)
                  (backingFile b)
                  (Buffer.mkFieldNames (Buffer.fn_source f) (Buffer.fn_timestamp f) value)))
      else throw ("Unknown key in [buffer]: " ++ key)
  | Csv_ =>
      let c := csv config in
      if key =? "output_path" then
        ret (set_csv config
               (Csv.mkCsv value (Csv.delimiter c) (Csv.quoteStrings c) (Csv.includeTimestamp c)
                  (Csv.flushInterval c) (Csv.timestampFormat c)))
      else if key =? "delimiter" then
        ret (set_csv config
               (Csv.mkCsv (Csv.outputPath c)
                  (match value with EmptyString => ","%char | String ch _ => ch end)
                  (Csv.quoteStrings c) (Csv.includeTimestamp c)
                  (Csv.flushInterval c) (Csv.timestampFormat c)))
      else if key =? "quote_strings" then
        v <- parseBool value ;;
        ret (set_csv config
               (Csv.mkCsv (Csv.outputPath c) (Csv.delimiter c) v (Csv.includeTimestamp c)
                  (Csv.flushInterval c) (Csv.timestampFormat c)))
      else if key =? "include_timestamp" then
        v <- parseBool value ;;
        ret (set_csv config
               (Csv.mkCsv (Csv.outputPath c) (Csv.delimiter c) (Csv.quoteStrings c) v
                  (Csv.flushInterval c) (Csv.timestampFormat c)))
      else if key =? "flush_interval_ms" then
        v <- parseDurationMs value ;;
        ret (set_csv config
               (Csv.mkCsv (Csv.outputPath c) (Csv.delimiter c) (Csv.quoteStrings c)
                  (Csv.includeTimestamp c) v (Csv.timestampFormat c)))
      else if key =? "timestamp_format" then
        ret (set_csv config
               (Csv.mkCsv (Csv.outputPath c) (Csv.delimiter c) (Csv.quoteStrings c)
                  (Csv.includeTimestamp c) (Csv.flushInterval c) value))
      else throw ("Unknown key in [csv]: " ++ key)
  | FileInput_ =>
      let f := fileInput config in
      if key =? "enabled" then
        v <- parseBool value ;;
        ret (set_fileInput config
               (FileInput.mkFileInput v (FileInput.path f) (FileInput.follow f)
                  (FileInput.readChunkSize f) (FileInput.pollInterval f)))
      else if key =? "path" then
        ret (set_fileInput config
               (FileInput.mkFileInput (FileInput.enabled f) value (FileInput.follow f)
                  (FileInput.readChunkSize f) (FileInput.pollInterval f)))
      else if key =? "follow" then
        v <- parseBool value ;;
        ret (set_fileInput config
               (FileInput.mkFileInput (FileInput.enabled f) (FileInput.path f) v
                  (FileInput.readChunkSize f) (FileInput.pollInterval f)))
      else if key =? "read_chunk_size" then
        n <- parseSize value ;;
        ret (set_fileInput config
               (FileInput.mkFileInput (FileInput.enabled f) (FileInput.path f)
                  (FileInput.follow f) n (FileInput.pollInterval f)))
      else if key =? "poll_interval_ms" then
        v <- parseDurationMs value ;;
        ret (set_fileInput config
               (FileInput.mkFileInput (FileInput.enabled f) (FileInput.path f)
                  (FileInput.follow f) (FileInput.readChunkSize f) v))
      else throw ("Unknown key in [file_input]: " ++ key)
  | SerialInput_ =>
      let s := serialInput config in
      if key =? "enabled" then
        v <- parseBool value ;;
        ret (set_serialInput config
               (mkSerialInput v (serial_port s) (baudRate s) (serial_readChunkSize s)))
      else if key =? "port" then
        ret (set_serialInput config
               (mkSerialInput (serial_enabled s) value (baudRate s) (serial_readChunkSize s)))
      else if key =? "baud_rate" then
        n <- parseUnsigned value ;;
        ret (set_serialInput config
               (mkSerialInput (serial_enabled s) (serial_port s) n (serial_readChunkSize s)))
      else if key =? "read_chunk_size" then
        n <- parseSize value ;;
        ret (set_serialInput config
               (mkSerialInput (serial_enabled s) (serial_port s) (baudRate s) n))
      else throw ("Unknown key in [serial_input]: " ++ key)
  | IpInput_ =>
      let i := ipInput config in
      if key =? "enabled" then
        v <- parseBool value ;;
        ret (set_ipInput config
               (mkIpInput v (host i) (ip_port i) (udp i) (ip_readChunkSize i)))
      else if key =? "host" then
        ret (set_ipInput config
               (mkIpInput (ip_enabled i) value (ip_port i) (udp i) (ip_readChunkSize i)))
      else if key =? "port" then
        n <- parsePort value ;;
        ret (set_ipInput config
               (mkIpInput (ip_enabled i) (host i) n (udp i) (ip_readChunkSize i)))
      else if key =? "udp" then
        v <- parseBool value ;;
        ret (set_ipInput config
               (mkIpInput (ip_enabled i) (host i) (ip_port i) v (ip_readChunkSize i)))
      else if key =? "read_chunk_size" then
        n <- parseSize value ;;
        ret (set_ipInput config
               (mkIpInput (ip_enabled i) (host i) (ip_port i) (udp i) n))
      else throw ("Unknown key in [ip_input]: " ++ key)
  | SectionNone => throw ("Key defined outside of a section: " ++ key)
  end.

(** One iteration of the loop over the lines that [std::getline] yields. *)
Definition line_step (st : Config * Section_) (line0 : string) : parsed (Config * Section_) :=
  let '(config, currentSection) := st in
  let line := trim line0 in
  if empty line || is_char "#" (front line) || is_char ";" (front line) then ret st
  else if is_char "[" (front line) && is_char "]" (back line) then
    let sectionName := trim (substring 1 (String.length line - 2) line) in
    match sectionMap_find sectionMap (lower sectionName) with
    | None => throw ("Unknown config section: " ++ sectionName)
    | Some section => ret (config, section)
    end
  else
    match find "=" line with
    | None => throw ("Invalid config line: " ++ line)
    | Some pos =>
        let key := lower (trim (substring 0 pos line)) in
        let value := trim (substr_from (pos + 1) line) in
        config' <- assign currentSection key value config ;;
        ret (config', currentSection)
    end.

Fixpoint load_lines (st : Config * Section_) (lines : list string)
    : parsed (Config * Section_) :=
  match lines with
  | [] => ret st
  | line :: rest => st' <- line_step st line ;; load_lines st' rest
  end.

(** [Config::loadFromFile]; [opens] tells whether the file can be opened and
    [lines] are its lines. *)
Definition loadFromFile (names : Buffer.FieldNames) (path : string) (opens : bool)
    (lines : list string) : parsed Config :=
  if negb opens then throw ("Failed to open config file: " ++ path)
  else
    st <- load_lines (default_config names, SectionNone) lines ;;
    ret (fst st).

(** ** Vocabulary of the statements *)

(** A line that the loop skips: blank, or a comment. *)
Definition ignorable (line : string) : bool :=
  let t := trim line in
  empty t || is_char "#" (front t) || is_char ";" (front t).

(** A line that names a section: its trimmed text starts with an opening and
    ends with a closing square bracket. *)
Definition is_section_header (line : string) : bool :=
  let t := trim line in
  is_char "[" (front t) && is_char "]" (back t).

(** The lines that are left when every line is trimmed and the blank lines
    and the comments are taken out. *)
Definition significant (lines : list string) : list string :=
  List.filter (fun line => negb (ignorable line)) (List.map trim lines).

(** The text up to its last character that is no space. *)
Definition rtrim (value : string) : string :=
  substring 0 (rfind_if_not_space value) value.

Fixpoint all_space (s : string) : bool :=
  match s with
  | EmptyString => true
  | String ch rest => isspace ch && all_space rest
  end.

Fixpoint all_digits (s : string) : bool :=
  match s with
  | EmptyString => true
  | String ch rest => isdigit ch && all_digits rest
  end.

(** The number that a string of decimal digits denotes. *)
Fixpoint decimal (s : string) : N :=
  match s with
  | EmptyString => 0
  | String ch rest => digit_value ch * 10 ^ N.of_nat (String.length rest) + decimal rest
  end.

(** The factor that a size suffix stands for. *)
Definition multiplier (suffix : string) : option N :=
  let s := lower (trim suffix) in
  if empty s then Some 1
  else if (s =? "k") || (s =? "kb") then Some 1024
  else if (s =? "m") || (s =? "mb") then Some (1024 * 1024)
  else None.

End Config.

(** * Properties of the byte-level helpers *)

Lemma to_N_byte_of_N (n : N) : Byte.to_N (byte_of_N n) = n mod 256.
Proof.
  unfold byte_of_N. destruct (Byte.of_N (n mod 256)) as [b |] eqn:Hb.
  - apply Byte.to_of_N. exact Hb.
  - apply Byte.of_N_None_iff in Hb.
    pose proof (N.mod_upper_bound n 256 ltac:(discriminate)). lia.
Qed.

Lemma le_value_le_bytes32 (x : N) : le_value (le_bytes32 x) = wrap32 x.
Proof.
  unfold le_bytes32, wrap32. cbn [le_value]. rewrite !to_N_byte_of_N.
  change (2 ^ 8) with 256. change (2 ^ 16) with 65536. change (2 ^ 24) with 16777216.
  change (2 ^ 32) with 4294967296.
  zify. Z.to_euclidean_division_equations. lia.
Qed.

Lemma load_store_u32 (o : byte_order) (x : N) : load_u32 o (store_u32 o x) = wrap32 x.
Proof.
  destruct o; unfold load_u32, store_u32; [| rewrite rev_involutive];
    apply le_value_le_bytes32.
Qed.

Lemma length_store_u32 (o : byte_order) (x : N) : length (store_u32 o x) = 4%nat.
Proof. destruct o; reflexivity. Qed.

Lemma wrap32_small (n : N) : n < 2 ^ 32 -> wrap32 n = n.
Proof. intros H. unfold wrap32. apply N.mod_small. exact H. Qed.

Lemma wrap32_large (n : N) : 2 ^ 32 <= n -> wrap32 n <> n.
Proof.
  intros H. unfold wrap32.
  pose proof (N.mod_upper_bound n (2 ^ 32) ltac:(discriminate)). lia.
Qed.

Lemma wrap64_small (n : N) : n < 2 ^ 64 -> wrap64 n = n.
Proof. intros H. unfold wrap64. apply N.mod_small. exact H. Qed.

Section Memcpy.

Implicit Types (view src data : bytes) (off n : N).

Lemma memcpy_to_Some view off src :
  off + N.of_nat (length src) <= N.of_nat (length view) ->
  memcpy_to view off src = Some (list_inserts (N.to_nat off) src view).
Proof.
  intros H. unfold memcpy_to.
  destruct (N.leb_spec (off + N.of_nat (length src)) (N.of_nat (length view))); [easy | lia].
Qed.

Lemma memcpy_to_inv view off src view' :
  memcpy_to view off src = Some view' ->
  off + N.of_nat (length src) <= N.of_nat (length view)
  /\ view' = list_inserts (N.to_nat off) src view.
Proof.
  unfold memcpy_to.
  destruct (N.leb_spec (off + N.of_nat (length src)) (N.of_nat (length view)));
    [| discriminate].
  intros [= <-]. auto.
Qed.

Lemma memcpy_to_length view off src view' :
  memcpy_to view off src = Some view' -> length view' = length view.
Proof. intros H. apply memcpy_to_inv in H as [_ ->]. apply length_inserts. Qed.

(** Bytes outside the destination range keep their value. *)
Lemma memcpy_to_outside view off src view' (j : nat) :
  memcpy_to view off src = Some view' ->
  (j < N.to_nat off \/ N.to_nat off + length src <= j)%nat ->
  view' !! j = view !! j.
Proof.
  intros H Hj. apply memcpy_to_inv in H as [_ ->].
  destruct Hj; [apply list_lookup_inserts_lt | apply list_lookup_inserts_ge]; lia.
Qed.

(** Bytes inside the destination range are those of the source. *)
Lemma memcpy_to_inside view off src view' (i : nat) :
  memcpy_to view off src = Some view' ->
  (i < length src)%nat ->
  view' !! (N.to_nat off + i)%nat = src !! i.
Proof.
  intros H Hi. apply memcpy_to_inv in H as [Hb ->].
  rewrite list_lookup_inserts by lia. f_equal. lia.
Qed.

Lemma memcpy_from_Some view off n data :
  off + n <= N.of_nat (length view) ->
  length data = N.to_nat n ->
  (forall i, (i < N.to_nat n)%nat -> view !! (N.to_nat off + i)%nat = data !! i) ->
  memcpy_from view off n = Some data.
Proof.
  intros Hb Hlen Hbytes. unfold memcpy_from.
  destruct (N.leb_spec (off + n) (N.of_nat (length view))); [| lia].
  f_equal. apply list_eq. intros i. rewrite lookup_take.
  case_decide as Hi.
  - rewrite lookup_drop. apply Hbytes. exact Hi.
  - symmetry. apply lookup_ge_None. lia.
Qed.

(** Two views of one size that agree on a range give the same bytes there. *)
Lemma memcpy_from_agree view view' off n :
  length view' = length view ->
  (forall j, (N.to_nat off <= j < N.to_nat off + N.to_nat n)%nat -> view' !! j = view !! j) ->
  memcpy_from view' off n = memcpy_from view off n.
Proof.
  intros Hlen Hagree. unfold memcpy_from. rewrite Hlen.
  destruct (off + n <=? N.of_nat (length view)); [| reflexivity].
  f_equal. apply list_eq. intros i. rewrite !lookup_take.
  case_decide as Hi; [| reflexivity].
  rewrite !lookup_drop. apply Hagree. lia.
Qed.

End Memcpy.

(** * Properties of the shared buffer *)

Module BufferTheory.

Import Buffer.

Section WithOrder.

Variable order : byte_order.

Local Abbreviation push := (Buffer.push order).
Local Abbreviation pop := (Buffer.pop order).
Local Abbreviation tryPop := (Buffer.tryPop order).
Local Abbreviation materializeEntry := (Buffer.materializeEntry order).
Local Abbreviation take_front := (Buffer.take_front order).
Local Abbreviation after := (Buffer.after order).
Local Abbreviation reachable := (Buffer.reachable order).
Local Abbreviation call := (Buffer.call order).
Local Abbreviation run := (Buffer.run order).
Local Abbreviation contents := (Buffer.contents order).
Local Abbreviation pushed_mapped := (Buffer.pushed_mapped order).
Local Abbreviation steady := (Buffer.steady order).

(** ** Bounded capacity *)

Lemma push_cases (b : GlobalBuffer) (it : BufferItem) (b' : GlobalBuffer) :
  state_of (push b it) = Some b' ->
  capacity_ b' = capacity_ b /\
  (queue_ b' = queue_ b \/
   (exists e, queue_ b' = queue_ b ++ [e]) /\
   shutdown_ b = false /\ N.of_nat (length (queue_ b)) < capacity_ b).
Proof.
  unfold push. intros H.
  destruct (shutdown_ b) eqn:Hs; simpl in H.
  { inversion H; subst. auto. }
  destruct (N.ltb_spec (N.of_nat (length (queue_ b))) (capacity_ b)) as [Hlt | Hge];
    simpl in H; [| discriminate].
  repeat case_match; simpl in H; try discriminate; inversion H; subst; simpl;
    split; eauto 6.
Qed.

Lemma take_front_queue (b : GlobalBuffer) (e : QueueEntry) (rest : list QueueEntry)
    (b' : GlobalBuffer) :
  state_of (take_front b e rest) = Some b' -> b' = set_queue b rest.
Proof.
  unfold take_front. destruct (materializeEntry _ e); simpl; congruence.
Qed.

Lemma pop_cases (b b' : GlobalBuffer) :
  state_of (pop b) = Some b' ->
  b' = b /\ queue_ b = [] \/ exists e, queue_ b = e :: queue_ b' /\ b' = set_queue b (queue_ b').
Proof.
  unfold pop. destruct (negb _); [discriminate |].
  destruct (queue_ b) as [| e rest] eqn:Hq; simpl.
  - intros [= <-]. auto.
  - intros H. apply take_front_queue in H. subst b'. right. exists e. auto.
Qed.

Lemma tryPop_cases (b b' : GlobalBuffer) :
  state_of (tryPop b) = Some b' ->
  b' = b /\ queue_ b = [] \/ exists e, queue_ b = e :: queue_ b' /\ b' = set_queue b (queue_ b').
Proof.
  unfold tryPop.
  destruct (queue_ b) as [| e rest] eqn:Hq; simpl.
  - intros [= <-]. auto.
  - intros H. apply take_front_queue in H. subst b'. right. exists e. auto.
Qed.

Lemma after_capacity (b : GlobalBuffer) (o : op) (b' : GlobalBuffer) :
  after b o = Some b' -> capacity_ b' = capacity_ b.
Proof.
  destruct o; simpl; intros H.
  - apply push_cases in H. tauto.
  - apply pop_cases in H. destruct H as [[-> _] | (e & _ & ->)]; reflexivity.
  - apply tryPop_cases in H. destruct H as [[-> _] | (e & _ & ->)]; reflexivity.
  - inversion H; reflexivity.
Qed.

Lemma after_not_push_shrinks (b : GlobalBuffer) (o : op) (b' : GlobalBuffer) :
  (forall it, o <> OpPush it) -> after b o = Some b' ->
  (length (queue_ b') <= length (queue_ b))%nat.
Proof.
  destruct o; simpl; intros Hnp H.
  - exfalso. exact (Hnp it eq_refl).
  - apply pop_cases in H. destruct H as [[-> _] | (e & -> & _)]; simpl; lia.
  - apply tryPop_cases in H. destruct H as [[-> _] | (e & -> & _)]; simpl; lia.
  - inversion H; simpl; lia.
Qed.

Lemma after_bounded (b : GlobalBuffer) (o : op) (b' : GlobalBuffer) :
  after b o = Some b' ->
  N.of_nat (length (queue_ b)) <= capacity_ b ->
  N.of_nat (length (queue_ b')) <= capacity_ b'.
Proof.
  intros H Hle. pose proof (after_capacity _ _ _ H) as Hc. rewrite Hc.
  destruct o.
  - simpl in H. apply push_cases in H. destruct H as [_ [-> | ([e ->] & _ & Hlt)]]; [lia |].
    rewrite length_app. simpl. lia.
  - pose proof (after_not_push_shrinks b OpPop b' ltac:(discriminate) H). lia.
  - pose proof (after_not_push_shrinks b OpTryPop b' ltac:(discriminate) H). lia.
  - pose proof (after_not_push_shrinks b OpShutdown b' ltac:(discriminate) H). lia.
Qed.

Lemma reachable_bounded (b0 b : GlobalBuffer) :
  reachable b0 b ->
  N.of_nat (length (queue_ b0)) <= capacity_ b0 ->
  capacity_ b = capacity_ b0 /\ N.of_nat (length (queue_ b)) <= capacity_ b.
Proof.
  induction 1 as [| b o b' Hr IH Hstep]; intros H0; [auto |].
  destruct (IH H0) as [Hc Hle]. split.
  - rewrite <- Hc. eapply after_capacity; eauto.
  - eapply after_bounded; eauto.
Qed.

Lemma constructed_empty (opts : Options) (env : MappingEnv) (b0 : GlobalBuffer) :
  GlobalBuffer_new opts env = Constructed b0 ->
  queue_ b0 = [] /\ shutdown_ b0 = false /\ writeIndex_ b0 = 0 /\
  options_ b0 = normalizeOptions opts /\ capacity_ b0 = capacity (normalizeOptions opts) /\
  fieldNames_ b0 = opt_fieldNames (normalizeOptions opts).
Proof.
  unfold GlobalBuffer_new. intros H.
  repeat case_match; try discriminate; inversion H; subst; simpl; auto 10.
Qed.

(** C1. Bounded capacity: in every state reachable from a buffer constructed
    with capacity [C] (the capacity supplied to the constructor, or the default
    1024 that stands in for a supplied 0) the queue holds at most [C] entries;
    a [push] that makes the queue longer found it strictly shorter than [C]
    and added exactly one entry; a [push] on a full buffer that is not shut
    down waits; and no other operation ever makes the queue longer. *)
Theorem bounded_capacity (opts : Options) (env : MappingEnv) (C : N)
    (b0 b : GlobalBuffer) :
  GlobalBuffer_new opts env = Constructed b0 ->
  capacity_ b0 = C ->
  reachable b0 b ->
  C = (if capacity opts =? 0 then 1024 else capacity opts)
  /\ capacity_ b = C
  /\ N.of_nat (length (queue_ b)) <= C
  /\ (forall it b', after b (OpPush it) = Some b' ->
        (length (queue_ b) < length (queue_ b'))%nat ->
        N.of_nat (length (queue_ b)) < C /\
        length (queue_ b') = S (length (queue_ b)))
  /\ (forall it, shutdown_ b = false -> N.of_nat (length (queue_ b)) = C ->
        push b it = Blocks)
  /\ (forall o b', (forall it, o <> OpPush it) -> after b o = Some b' ->
        (length (queue_ b') <= length (queue_ b))%nat).
Proof.
  intros Hnew HC Hr.
  destruct (constructed_empty _ _ _ Hnew) as (Hq & _ & _ & _ & Hcap & _).
  destruct (reachable_bounded _ _ Hr) as [Hc Hle].
  { rewrite Hq. simpl. lia. }
  rewrite HC in Hc. rewrite Hc in Hle.
  split; [rewrite <- HC, Hcap; reflexivity |].
  split; [exact Hc |].
  split; [exact Hle |]. split; [| split].
  - intros it b' H Hgrow. simpl in H. apply push_cases in H.
    destruct H as [_ [Heq | ([e He] & _ & Hlt)]].
    + rewrite Heq in Hgrow. lia.
    + rewrite He, length_app. simpl. split; [congruence | lia].
  - intros it Hs Hfull. unfold push. rewrite Hs, Hc, Hfull, N.ltb_irrefl. reflexivity.
  - intros o b'. apply after_not_push_shrinks.
Qed.


(** ** The ring of slots *)

Lemma materializeEntry_set_queue (b : GlobalBuffer) (q : list QueueEntry) (e : QueueEntry) :
  materializeEntry (set_queue b q) e = materializeEntry b e.
Proof. reflexivity. Qed.

Lemma contents_set_queue (b : GlobalBuffer) (q : list QueueEntry) :
  contents (set_queue b q) = map (materializeEntry b) q.
Proof. reflexivity. Qed.

Lemma push_after_shutdown (b : GlobalBuffer) (it : BufferItem) :
  shutdown_ b = true -> push b it = Returns b tt.
Proof. intros Hs. unfold Buffer.push. rewrite Hs. reflexivity. Qed.


Lemma mod_lt_twice (x c : N) :
  0 < c -> x < 2 * c -> x mod c = if x <? c then x else x - c.
Proof.
  intros Hc Hx. destruct (N.ltb_spec x c) as [Hlt | Hge].
  - apply N.mod_small. exact Hlt.
  - symmetry. apply (N.mod_unique x c 1); lia.
Qed.

Lemma slot_offset (s S c : N) :
  s < c -> S * c < 2 ^ 64 -> wrap64 (s * S) = s * S /\ s * S + S <= S * c.
Proof.
  intros Hs Hfit.
  assert (H : s * S + S <= S * c) by nia.
  split; [apply wrap64_small; lia | exact H].
Qed.

Lemma slots_apart (s s' S : N) :
  s <> s' -> s * S + S <= s' * S \/ s' * S + S <= s * S.
Proof. intros Hne. destruct (N.lt_ge_cases s s'); [left | right]; nia. Qed.

Lemma materializeEntry_heap (b : GlobalBuffer) (e : QueueEntry) :
  memoryMapped (options_ b) = false -> materializeEntry b e = Value (item e).
Proof. intros H. unfold Buffer.materializeEntry. rewrite H. reflexivity. Qed.

(** [materializeEntry] reads nothing but the first [4 + payloadSize] bytes of
    the entry's slot. *)
Lemma materializeEntry_agree (b b' : GlobalBuffer) (view view' : bytes) (e : QueueEntry) :
  options_ b' = options_ b ->
  slotSize_ b' = slotSize_ b ->
  mappedView_ b = Some view ->
  mappedView_ b' = Some view' ->
  length view' = length view ->
  (forall j : nat,
      (N.to_nat (wrap64 (slotIndex e * slotSize_ b)) <= j
       < N.to_nat (wrap64 (slotIndex e * slotSize_ b)) + 4 + N.to_nat (payloadSize e))%nat ->
      view' !! j = view !! j) ->
  materializeEntry b' e = materializeEntry b e.
Proof.
  intros Ho Hs Hv Hv' Hlen Hagree. unfold Buffer.materializeEntry.
  rewrite Ho, Hs, Hv, Hv'.
  destruct (memoryMapped (options_ b) && negb (slotIndex e =? kInvalidSlot));
    [| reflexivity].
  rewrite (memcpy_from_agree view view' _ 4 Hlen).
  2:{ intros j Hj. apply Hagree. lia. }
  destruct (memcpy_from view _ 4) as [header |]; [| reflexivity].
  destruct (negb _); [reflexivity |].
  destruct (0 <? payloadSize e); [| reflexivity].
  rewrite (memcpy_from_agree view view' _ (payloadSize e) Hlen).
  2:{ intros j Hj. apply Hagree. lia. }
  reflexivity.
Qed.

Lemma ring_write_lt (b : GlobalBuffer) : ring_ok b -> writeIndex_ b < capacity_ b.
Proof.
  intros [_ Hc _ _ _ _ (front & _ & -> & _)]. apply N.mod_upper_bound. lia.
Qed.

Lemma push_mapped (b : GlobalBuffer) (it : BufferItem) (view : bytes) :
  ring_ok b ->
  shutdown_ b = false ->
  N.of_nat (length (queue_ b)) < capacity_ b ->
  mappedView_ b = Some view ->
  N.of_nat (length (payload it)) <= maxPayloadSize (options_ b) ->
  push b it = Returns (pushed_mapped b it view) tt.
Proof.
  intros Hok Hs Hlt Hv Hsize.
  pose proof (ring_write_lt b Hok) as Hw.
  destruct Hok as [Hm Hc HS Hfit (view0 & Hv0 & Hlen) _ _].
  rewrite Hv in Hv0. inversion Hv0; subst view0. clear Hv0.
  destruct (slot_offset _ _ _ Hw Hfit) as [Hoff Hin].
  unfold Buffer.push, Buffer.pushed_mapped. rewrite Hs, Hm, Hv. simpl orb.
  destruct (N.ltb_spec (N.of_nat (length (queue_ b))) (capacity_ b)); [| lia].
  cbn [negb payload set_fieldNames].
  destruct (N.ltb_spec (maxPayloadSize (options_ b)) (N.of_nat (length (payload it))));
    [lia |].
  rewrite Hoff.
  rewrite memcpy_to_Some by (rewrite length_store_u32; lia).
  assert (Hsecond :
    (if 0 <? N.of_nat (length (payload it))
     then memcpy_to (list_inserts (N.to_nat (writeIndex_ b * slotSize_ b))
                       (store_u32 order (wrap32 (N.of_nat (length (payload it))))) view)
                    (writeIndex_ b * slotSize_ b + 4) (payload it)
     else Some (list_inserts (N.to_nat (writeIndex_ b * slotSize_ b))
                       (store_u32 order (wrap32 (N.of_nat (length (payload it))))) view))
    = Some (list_inserts (N.to_nat (writeIndex_ b * slotSize_ b + 4)) (payload it)
             (list_inserts (N.to_nat (writeIndex_ b * slotSize_ b))
                (store_u32 order (wrap32 (N.of_nat (length (payload it))))) view))).
  { destruct (N.ltb_spec 0 (N.of_nat (length (payload it)))) as [Hpos | Hzero].
    - apply memcpy_to_Some. rewrite length_inserts. lia.
    - destruct (payload it); [reflexivity | simpl in Hzero; lia]. }
  rewrite Hsecond.
  rewrite (wrap64_small (writeIndex_ b + 1)) by lia.
  reflexivity.
Qed.

Lemma pushed_mapped_ring_ok (b : GlobalBuffer) (it : BufferItem) (view : bytes) :
  ring_ok b ->
  N.of_nat (length (queue_ b)) < capacity_ b ->
  mappedView_ b = Some view ->
  N.of_nat (length (payload it)) <= maxPayloadSize (options_ b) ->
  ring_ok (pushed_mapped b it view).
Proof.
  intros Hok Hlt Hv Hsize.
  pose proof (ring_write_lt b Hok) as Hw.
  destruct Hok as [Hm Hc HS Hfit (view0 & Hv0 & Hlen) Hle (front & Hf & Hwi & Hslots)].
  rewrite Hv in Hv0. inversion Hv0; subst view0. clear Hv0.
  assert (Hnew : writeIndex_ b = (front + N.of_nat (length (queue_ b))) mod capacity_ b)
    by exact Hwi.
  rewrite mod_lt_twice in Hwi by lia.
  split; simpl; try assumption.
  - eexists. split; [reflexivity |]. rewrite !length_inserts. exact Hlen.
  - rewrite length_app. simpl. lia.
  - exists front. split; [exact Hf |]. split.
    + rewrite length_app. simpl length.
      rewrite (mod_lt_twice (writeIndex_ b + 1)) by lia.
      rewrite (mod_lt_twice (front + _)) by lia.
      repeat match goal with
             | H : context [if ?a <? ?c then _ else _] |- _ => destruct (N.ltb_spec a c)
             | |- context [if ?a <? ?c then _ else _] => destruct (N.ltb_spec a c)
             end; lia.
    + intros i e Hi. apply lookup_app_Some in Hi.
      destruct Hi as [Hi | [Hge Hi]]; [apply Hslots; exact Hi |].
      apply list_lookup_singleton_Some in Hi as [Hi <-]. simpl.
      replace i with (length (queue_ b)) by lia. split; [exact Hnew | exact Hsize].
Qed.

Lemma pushed_mapped_old (b : GlobalBuffer) (it : BufferItem) (view : bytes)
    (i : nat) (e : QueueEntry) :
  ring_ok b ->
  N.of_nat (length (queue_ b)) < capacity_ b ->
  mappedView_ b = Some view ->
  N.of_nat (length (payload it)) <= maxPayloadSize (options_ b) ->
  queue_ b !! i = Some e ->
  materializeEntry (pushed_mapped b it view) e = materializeEntry b e.
Proof.
  intros Hok Hlt Hv Hsize Hi.
  pose proof (ring_write_lt b Hok) as Hw.
  destruct Hok as [Hm Hc HS Hfit (view0 & Hv0 & Hlen) Hle (front & Hf & Hwi & Hslots)].
  rewrite Hv in Hv0. inversion Hv0; subst view0. clear Hv0.
  destruct (Hslots i e Hi) as [Hslot Hpsize].
  pose proof (lookup_lt_Some _ _ _ Hi) as Hilt.
  assert (Hs : slotIndex e < capacity_ b).
  { rewrite Hslot. apply N.mod_upper_bound. lia. }
  assert (Hne : slotIndex e <> writeIndex_ b).
  { rewrite Hslot, Hwi. rewrite !mod_lt_twice by lia.
    repeat match goal with
           | |- context [if ?a <? ?c then _ else _] => destruct (N.ltb_spec a c)
           end; lia. }
  destruct (slot_offset _ _ _ Hs Hfit) as [Hoff Hin].
  destruct (slot_offset _ _ _ Hw Hfit) as [Hoffw Hinw].
  eapply materializeEntry_agree with (view := view); try reflexivity; try assumption.
  - simpl. rewrite !length_inserts. reflexivity.
  - rewrite Hoff. intros j Hj.
    destruct (slots_apart _ _ (slotSize_ b) Hne) as [Hbefore | Hafter].
    + rewrite !list_lookup_inserts_lt by lia. reflexivity.
    + rewrite !list_lookup_inserts_ge by (rewrite ?length_store_u32; lia). reflexivity.
Qed.

Lemma pushed_mapped_new (b : GlobalBuffer) (it : BufferItem) (view : bytes) :
  ring_ok b ->
  mappedView_ b = Some view ->
  N.of_nat (length (payload it)) <= maxPayloadSize (options_ b) ->
  materializeEntry (pushed_mapped b it view)
    (mkEntry (set_payload (set_fieldNames it (fieldNames_ b)) [])
             (N.of_nat (length (payload it))) (writeIndex_ b))
  = stored b it.
Proof.
  intros Hok Hv Hsize.
  pose proof (ring_write_lt b Hok) as Hw.
  destruct Hok as [Hm Hc HS Hfit (view0 & Hv0 & Hlen) _ _].
  rewrite Hv in Hv0. inversion Hv0; subst view0. clear Hv0.
  destruct (slot_offset _ _ _ Hw Hfit) as [Hoff Hin].
  unfold Buffer.materializeEntry, Buffer.pushed_mapped, stored.
  cbn [options_ slotSize_ mappedView_ slotIndex payloadSize item].
  rewrite Hm, Hoff.
  assert (Hvalid : (writeIndex_ b =? kInvalidSlot) = false).
  { apply N.eqb_neq. unfold kInvalidSlot, SIZE_MAX. nia. }
  rewrite Hvalid. cbn [negb andb].
  set (size := N.of_nat (length (payload it))) in *.
  set (off := writeIndex_ b * slotSize_ b) in *.
  set (header := store_u32 order (wrap32 size)).
  rewrite (memcpy_from_Some _ off 4 header).
  2:{ rewrite !length_inserts. lia. }
  2:{ apply length_store_u32. }
  2:{ intros i Hi. rewrite list_lookup_inserts_lt by lia.
      rewrite list_lookup_inserts by (unfold header; rewrite ?length_store_u32; lia).
      f_equal. lia. }
  unfold header. rewrite load_store_u32.
  destruct (N.ltb_spec size (2 ^ 32)) as [Hsmall | Hlarge].
  - rewrite !wrap32_small by (try rewrite wrap32_small; assumption).
    rewrite N.eqb_refl. cbn [negb].
    destruct (N.ltb_spec 0 size) as [Hpos | Hzero].
    + rewrite (memcpy_from_Some _ (off + 4) size (payload it)).
      * reflexivity.
      * rewrite !length_inserts. lia.
      * unfold size. lia.
      * intros i Hi. rewrite list_lookup_inserts.
        -- f_equal. lia.
        -- unfold size in Hi. lia.
        -- rewrite length_inserts. unfold size in Hi. lia.
    + unfold size in Hzero. destruct (payload it) eqn:Hp; [| simpl in Hzero; lia].
      unfold set_payload, set_fieldNames. simpl. rewrite Hp. reflexivity.
  - assert (Hneq : (wrap32 (wrap32 size) =? size) = false).
    { apply N.eqb_neq. unfold wrap32. rewrite N.Div0.mod_mod.
      apply wrap32_large. exact Hlarge. }
    rewrite Hneq. reflexivity.
Qed.

Lemma pushed_mapped_contents (b : GlobalBuffer) (it : BufferItem) (view : bytes) :
  ring_ok b ->
  N.of_nat (length (queue_ b)) < capacity_ b ->
  mappedView_ b = Some view ->
  N.of_nat (length (payload it)) <= maxPayloadSize (options_ b) ->
  contents (pushed_mapped b it view) = contents b ++ [stored b it].
Proof.
  intros Hok Hlt Hv Hsize. unfold Buffer.contents.
  change (queue_ (pushed_mapped b it view)) with
    (queue_ b ++ [mkEntry (set_payload (set_fieldNames it (fieldNames_ b)) [])
                          (N.of_nat (length (payload it))) (writeIndex_ b)]).
  rewrite map_app. cbn [map]. rewrite pushed_mapped_new by assumption. f_equal.
  apply map_ext_in. intros e He.
  apply list_elem_of_In, list_elem_of_lookup in He as [i Hi].
  eapply pushed_mapped_old; eassumption.
Qed.

Lemma set_queue_tail_ring_ok (b : GlobalBuffer) (e : QueueEntry) (rest : list QueueEntry) :
  ring_ok b -> queue_ b = e :: rest -> ring_ok (set_queue b rest).
Proof.
  intros [Hm Hc HS Hfit Hview Hle (front & Hf & Hwi & Hslots)] Hq.
  rewrite Hq in Hle, Hwi, Hslots. simpl length in Hle, Hwi.
  split; simpl; try assumption.
  - lia.
  - exists ((front + 1) mod capacity_ b). split; [apply N.mod_upper_bound; lia |]. split.
    + rewrite Hwi. rewrite !mod_lt_twice by (try rewrite mod_lt_twice by lia;
        repeat match goal with
               | |- context [if ?a <? ?c then _ else _] => destruct (N.ltb_spec a c)
               end; lia).
      repeat match goal with
             | |- context [if ?a <? ?c then _ else _] => destruct (N.ltb_spec a c)
             end; lia.
    + intros i e' Hi. destruct (Hslots (S i) e' Hi) as [Hslot Hsize].
      pose proof (lookup_lt_Some _ _ _ Hi) as Hilt.
      split; [| exact Hsize]. rewrite Hslot.
      rewrite !mod_lt_twice by (try rewrite mod_lt_twice by lia;
        repeat match goal with
               | |- context [if ?a <? ?c then _ else _] => destruct (N.ltb_spec a c)
               end; lia).
      repeat match goal with
             | |- context [if ?a <? ?c then _ else _] => destruct (N.ltb_spec a c)
             end; lia.
Qed.

Lemma shutdown_ring_ok (b : GlobalBuffer) : ring_ok b -> ring_ok (shutdown b).
Proof. intros [? ? ? ? ? ? ?]. split; assumption. Qed.

(** The three ways a completed [push] can end. *)
Lemma push_outcomes (b : GlobalBuffer) (it : BufferItem) (b' : GlobalBuffer) :
  (memoryMapped (options_ b) = true -> ring_ok b) ->
  Buffer.state_of (push b it) = Some b' ->
  (* after shutdown: a no-op *)
  (shutdown_ b = true /\ push b it = Returns b tt /\ b' = b)
  (* memory-mapped, payload too large: an exception, nothing changed *)
  \/ (shutdown_ b = false /\ memoryMapped (options_ b) = true /\
      maxPayloadSize (options_ b) < N.of_nat (length (payload it)) /\
      push b it = Throws b (runtime_error
        "Payload size exceeds configured maximum for memory-mapped buffer") /\ b' = b)
  (* enqueued *)
  \/ (shutdown_ b = false /\ N.of_nat (length (queue_ b)) < capacity_ b /\
      push b it = Returns b' tt /\
      (memoryMapped (options_ b) = true -> ring_ok b') /\
      options_ b' = options_ b /\ fieldNames_ b' = fieldNames_ b /\
      shutdown_ b' = false /\
      length (queue_ b') = S (length (queue_ b)) /\
      contents b' = contents b ++
        [if memoryMapped (options_ b) then stored b it
         else Value (set_fieldNames it (fieldNames_ b))]).
Proof.
  intros Hring Hst.
  destruct (shutdown_ b) eqn:Hs.
  { left. rewrite (push_after_shutdown b it Hs) in Hst |- *. inversion Hst. auto. }
  destruct (N.ltb_spec (N.of_nat (length (queue_ b))) (capacity_ b)) as [Hlt | Hge].
  2:{ exfalso. unfold Buffer.push in Hst. rewrite Hs in Hst. simpl orb in Hst.
      destruct (N.ltb_spec (N.of_nat (length (queue_ b))) (capacity_ b)); [lia |].
      discriminate. }
  destruct (memoryMapped (options_ b)) eqn:Hm.
  - specialize (Hring eq_refl).
    destruct (ring_view b Hring) as (view & Hv & Hlen).
    destruct (N.ltb_spec (maxPayloadSize (options_ b)) (N.of_nat (length (payload it))))
      as [Hbig | Hsize].
    + right; left.
      assert (Hp : push b it = Throws b (runtime_error
                "Payload size exceeds configured maximum for memory-mapped buffer")).
      { unfold Buffer.push. rewrite Hs, Hm, Hv. simpl orb.
        destruct (N.ltb_spec (N.of_nat (length (queue_ b))) (capacity_ b)); [| lia].
        cbn [negb payload set_fieldNames].
        destruct (N.ltb_spec (maxPayloadSize (options_ b))
                    (N.of_nat (length (payload it)))); [reflexivity | lia]. }
      rewrite Hp in Hst. simpl in Hst. injection Hst as <-. auto 10.
    + right; right.
      rewrite (push_mapped b it view Hring Hs Hlt Hv Hsize) in Hst |- *.
      inversion Hst; subst b'.
      split; [reflexivity |]. split; [exact Hlt |]. split; [reflexivity |].
      split; [intros _; apply pushed_mapped_ring_ok; assumption |].
      do 3 (split; [reflexivity |]).
      split; [simpl; rewrite length_app; simpl; lia |].
      apply pushed_mapped_contents; assumption.
  - right; right.
    assert (Hp : push b it = Returns
              (set_queue b (queue_ b ++
                 [mkEntry (set_fieldNames it (fieldNames_ b))
                          (N.of_nat (length (payload it))) kInvalidSlot])) tt).
    { unfold Buffer.push. rewrite Hs, Hm. simpl orb.
      destruct (N.ltb_spec (N.of_nat (length (queue_ b))) (capacity_ b)); [| lia].
      reflexivity. }
    rewrite Hp in Hst |- *. inversion Hst; subst b'.
    split; [reflexivity |]. split; [exact Hlt |]. split; [reflexivity |].
    split; [intros; discriminate |].
    split; [reflexivity |]. split; [reflexivity |]. split; [exact Hs |].
    split; [simpl; rewrite length_app; simpl; lia |].
    unfold Buffer.contents. simpl queue_. rewrite map_app. cbn [map].
    rewrite !materializeEntry_set_queue.
    rewrite (materializeEntry_heap b _ Hm). reflexivity.
Qed.

Lemma constructed_ring_ok (opts : Options) (env : MappingEnv) (b0 : GlobalBuffer) :
  GlobalBuffer_new opts env = Constructed b0 ->
  memoryMapped (options_ b0) = true ->
  geometry_fits b0 ->
  ring_ok b0.
Proof.
  unfold GlobalBuffer_new, geometry_fits.
  generalize (normalizeOptions opts). intros n Hnew Hm Hfit.
  destruct (N.eqb_spec (capacity n) 0) as [| Hcap]; [discriminate |].
  destruct (memoryMapped n) eqn:Hmm.
  2:{ inversion Hnew; subst b0. cbn [options_] in Hm. congruence. }
  destruct (string_empty _); [discriminate |].
  destruct (maxPayloadSize n =? 0); [discriminate |].
  destruct env as [| | | file]; try discriminate.
  cbn [initializeMapping] in Hnew. inversion Hnew; subst b0. clear Hnew.
  cbn [options_ capacity_] in *.
  assert (HS : wrap64 (4 + maxPayloadSize n) = 4 + maxPayloadSize n).
  { apply wrap64_small.
    pose proof (N.mul_le_mono_l 1 (capacity n) (4 + maxPayloadSize n) ltac:(lia)).
    lia. }
  rewrite HS.
  split; cbn [options_ capacity_ slotSize_ mappedView_ queue_ writeIndex_ length];
    try assumption; try reflexivity; try lia.
  - eexists. split; [reflexivity |].
    rewrite length_resize, N2Nat.id. apply wrap64_small. exact Hfit.
  - exists 0. split; [lia |]. split.
    + rewrite N.mod_small by lia. reflexivity.
    + intros i e Hi. rewrite lookup_nil in Hi. discriminate.
Qed.

Lemma stored_prefix_fits (b : GlobalBuffer) (it : BufferItem) :
  prefix_fits b ->
  N.of_nat (length (payload it)) <= maxPayloadSize (options_ b) ->
  stored b it = Value (set_fieldNames it (fieldNames_ b)).
Proof.
  unfold prefix_fits, stored. intros Hp Hsize.
  destruct (N.ltb_spec (N.of_nat (length (payload it))) (2 ^ 32)); [reflexivity | lia].
Qed.

Lemma set_queue_tail_steady (b0 b : GlobalBuffer) (e : QueueEntry) (rest : list QueueEntry) :
  steady b0 b -> queue_ b = e :: rest -> steady b0 (set_queue b rest).
Proof.
  intros [Ho Hc Hn Hr Hi] Hq. split; simpl; try assumption.
  - intros Hm. eapply set_queue_tail_ring_ok; eauto.
  - intros Hp. destruct (Hi Hp) as [items Hitems].
    unfold Buffer.contents in Hitems. rewrite Hq in Hitems.
    destruct items as [| it items]; [discriminate |]. inversion Hitems.
    exists items. rewrite contents_set_queue. assumption.
Qed.

Lemma after_steady (b0 b : GlobalBuffer) (o : op) (b' : GlobalBuffer) :
  steady b0 b -> after b o = Some b' -> steady b0 b'.
Proof.
  intros Hst Hafter. destruct o as [it | | |]; simpl in Hafter.
  - destruct Hst as [Ho Hc Hn Hr Hi].
    assert (Hring : memoryMapped (options_ b) = true -> ring_ok b).
    { rewrite Ho. exact Hr. }
    destruct (push_outcomes b it b' Hring Hafter)
      as [(_ & _ & ->) | [(_ & _ & _ & _ & ->) |
          (Hs & Hlt & Hp & Hr' & Ho' & Hn' & _ & _ & Hc')]];
      [split; assumption | split; assumption |].
    split.
    + congruence.
    + apply push_cases in Hafter. destruct Hafter as [HC _]. congruence.
    + congruence.
    + rewrite <- Ho. exact Hr'.
    + intros Hp0. destruct (Hi Hp0) as [items Hitems].
      exists (items ++ [set_fieldNames it (fieldNames_ b)]).
      rewrite Hc', Hitems, map_app. f_equal. cbn [map].
      destruct (memoryMapped (options_ b)) eqn:Hm; [| reflexivity].
      rewrite stored_prefix_fits; [reflexivity | |].
      * unfold prefix_fits in *. rewrite Ho. exact Hp0.
      * (* the push was accepted, so the payload is within the maximum *)
        destruct (N.le_gt_cases (N.of_nat (length (payload it)))
                    (maxPayloadSize (options_ b))) as [Hle | Hgt]; [exact Hle |].
        exfalso.
        destruct (ring_view b (Hring eq_refl)) as (view & Hv & _).
        unfold Buffer.push in Hp. rewrite Hs, Hm, Hv in Hp. simpl orb in Hp.
        destruct (N.ltb_spec (N.of_nat (length (queue_ b))) (capacity_ b)); [| lia].
        cbn [negb payload set_fieldNames] in Hp.
        destruct (N.ltb_spec (maxPayloadSize (options_ b))
                    (N.of_nat (length (payload it)))); [discriminate | lia].
  - apply pop_cases in Hafter. destruct Hafter as [[-> _] | (e & Hq & ->)]; [exact Hst |].
    eapply set_queue_tail_steady; eauto.
  - apply tryPop_cases in Hafter. destruct Hafter as [[-> _] | (e & Hq & ->)]; [exact Hst |].
    eapply set_queue_tail_steady; eauto.
  - inversion Hafter; subst b'. destruct Hst as [Ho Hc Hn Hr Hi].
    split; simpl; try assumption.
    intros Hm. apply shutdown_ring_ok. auto.
Qed.

Lemma constructed_steady (opts : Options) (env : MappingEnv) (b0 : GlobalBuffer) :
  GlobalBuffer_new opts env = Constructed b0 ->
  (memoryMapped (options_ b0) = true -> geometry_fits b0) ->
  steady b0 b0.
Proof.
  intros Hnew Hfit. split; try reflexivity.
  - intros Hm. eapply constructed_ring_ok; eauto.
  - intros _. exists []. unfold Buffer.contents.
    destruct (constructed_empty _ _ _ Hnew) as (-> & _). reflexivity.
Qed.

Lemma reachable_steady (b0 b : GlobalBuffer) :
  steady b0 b0 -> reachable b0 b -> steady b0 b.
Proof.
  intros H0. induction 1 as [| b o b' Hr IH Hstep]; [exact H0 |].
  eapply after_steady; eauto.
Qed.

(** In every state of a buffer whose ring geometry and length prefix are
    representable, and of every buffer that is not memory-mapped, each queued
    entry passes [materializeEntry]. *)
Lemma reachable_intact (opts : Options) (env : MappingEnv) (b0 b : GlobalBuffer) :
  GlobalBuffer_new opts env = Constructed b0 ->
  (memoryMapped (options_ b0) = true -> geometry_fits b0 /\ prefix_fits b0) ->
  reachable b0 b ->
  exists items, contents b = map Value items.
Proof.
  intros Hnew Hfit Hr.
  destruct (memoryMapped (options_ b0)) eqn:Hm.
  - destruct (Hfit eq_refl) as [Hg Hp].
    assert (H0 : steady b0 b0) by (eapply constructed_steady; eauto).
    exact (steady_intact order _ _ (reachable_steady _ _ H0 Hr) Hp).
  - assert (H0 : steady b0 b0).
    { eapply constructed_steady; eauto. congruence. }
    pose proof (steady_options order _ _ (reachable_steady _ _ H0 Hr)) as Ho.
    exists (map item (queue_ b)). unfold Buffer.contents. rewrite map_map.
    apply map_ext. intros e. apply materializeEntry_heap. congruence.
Qed.

(** ** Drain on shutdown *)

Lemma shutdown_idempotent (b : GlobalBuffer) :
  shutdown_ b = true -> shutdown b = b.
Proof. destruct b; simpl; intros ->; reflexivity. Qed.

Lemma pop_after_shutdown (b : GlobalBuffer) :
  shutdown_ b = true -> pop b = tryPop b.
Proof. intros Hs. unfold Buffer.pop, Buffer.tryPop. rewrite Hs. reflexivity. Qed.

Lemma tryPop_front (b : GlobalBuffer) (e : QueueEntry) (rest : list QueueEntry)
    (it : BufferItem) :
  queue_ b = e :: rest -> materializeEntry b e = Value it ->
  tryPop b = Returns (set_queue b rest) (Some it).
Proof.
  intros Hq Hm. unfold Buffer.tryPop, Buffer.take_front. rewrite Hq.
  rewrite materializeEntry_set_queue, Hm. reflexivity.
Qed.

Lemma tryPop_front_raise (b : GlobalBuffer) (e : QueueEntry) (rest : list QueueEntry)
    (x : exn) :
  queue_ b = e :: rest -> materializeEntry b e = Raise x ->
  tryPop b = Throws (set_queue b rest) x.
Proof.
  intros Hq Hm. unfold Buffer.tryPop, Buffer.take_front. rewrite Hq.
  rewrite materializeEntry_set_queue, Hm. reflexivity.
Qed.

Lemma tryPop_empty (b : GlobalBuffer) : queue_ b = [] -> tryPop b = Returns b None.
Proof. intros Hq. unfold Buffer.tryPop. rewrite Hq. reflexivity. Qed.

Lemma run_drains (os : list op) :
  forall (b : GlobalBuffer) (items : list BufferItem),
    shutdown_ b = true ->
    contents b = map Value items ->
    exists b', run b os = Some (b', drain_replies items os)
               /\ shutdown_ b' = true
               /\ queue_ b' = drop (pops_in os) (queue_ b)
               /\ contents b' = map Value (drop (pops_in os) items).
Proof.
  induction os as [| o os IH]; intros b items Hs Hc.
  { exists b. simpl. rewrite !drop_0. auto. }
  assert (Hpop : forall o', o' = OpPop \/ o' = OpTryPop ->
            exists b1 r, call b o' = Some (b1, r) /\ shutdown_ b1 = true /\
              queue_ b1 = drop 1 (queue_ b) /\
              contents b1 = map Value (drop 1 items) /\
              r = match items with [] => NoItem | it :: _ => Popped it end).
  { intros o' Ho'.
    assert (Hcall : call b o' = reply_of_pop (tryPop b)).
    { destruct Ho' as [-> | ->]; simpl; [rewrite pop_after_shutdown by assumption |];
        reflexivity. }
    rewrite Hcall. unfold Buffer.contents in Hc.
    destruct (queue_ b) as [| e rest] eqn:Hq; destruct items as [| it items'];
      simpl in Hc; try discriminate.
    - exists b, NoItem. rewrite tryPop_empty by assumption. simpl.
      unfold Buffer.contents. rewrite Hq. auto.
    - inversion Hc as [[Hm Hrest]].
      exists (set_queue b rest), (Popped it).
      rewrite (tryPop_front b e rest it Hq Hm). simpl. rewrite drop_0.
      rewrite contents_set_queue. auto. }
  destruct o as [it | | |].
  - destruct (IH b items Hs Hc) as (b' & Hrun & Hs' & Hq' & Hc').
    exists b'. simpl. rewrite push_after_shutdown by assumption. rewrite Hrun. auto.
  - destruct (Hpop OpPop (or_introl eq_refl)) as (b1 & r & Hcall & Hs1 & Hq1 & Hc1 & Hr).
    destruct (IH b1 _ Hs1 Hc1) as (b' & Hrun & Hs' & Hq' & Hc').
    exists b'. cbn [Buffer.run pops_in]. rewrite Hcall, Hrun. rewrite Hq', Hq1, Hc', !drop_drop.
    repeat split; try assumption.
    subst r. destruct items; simpl; rewrite ?drop_nil; reflexivity.
  - destruct (Hpop OpTryPop (or_intror eq_refl)) as (b1 & r & Hcall & Hs1 & Hq1 & Hc1 & Hr).
    destruct (IH b1 _ Hs1 Hc1) as (b' & Hrun & Hs' & Hq' & Hc').
    exists b'. cbn [Buffer.run pops_in]. rewrite Hcall, Hrun. rewrite Hq', Hq1, Hc', !drop_drop.
    repeat split; try assumption.
    subst r. destruct items; simpl; rewrite ?drop_nil; reflexivity.
  - destruct (IH b items Hs Hc) as (b' & Hrun & Hs' & Hq' & Hc').
    exists b'. simpl. rewrite (shutdown_idempotent b Hs), Hrun. auto.
Qed.

Lemma drain_replies_pops (items : list BufferItem) (n : nat) :
  drain_replies items (repeat OpPop (length items + n)) =
  map Popped items ++ repeat NoItem n.
Proof.
  induction items as [| it items IH]; simpl.
  - induction n as [| n IHn]; simpl; congruence.
  - rewrite IH. reflexivity.
Qed.

(** X24. Drain on shutdown, where it holds. Take a buffer constructed in heap
    mode, or in memory-mapped mode with a ring size that fits [std::size_t]
    and a maximum payload size below [2 ^ 32], in any state it can reach, with
    [K] entries queued: every one of them passes the stored-length check, and
    [items] are the [K] records they hold. When [shutdown()] is called then,
    whatever calls follow complete at once with the replies of
    [drain_replies]: every [push] returns without enqueuing (and without an
    exception), the first [K] calls of [pop]/[tryPop] return the [K] queued
    items in order, and every later one returns no item. In particular [K + n]
    calls of [pop] return the [K] items and then [n] times no item. *)
Theorem drain_on_shutdown (opts : Options) (env : MappingEnv) (b0 b : GlobalBuffer)
    (K : nat) :
  GlobalBuffer_new opts env = Constructed b0 ->
  (memoryMapped (options_ b0) = true -> geometry_fits b0 /\ prefix_fits b0) ->
  reachable b0 b ->
  length (queue_ b) = K ->
  exists items,
    contents b = map Value items
    /\ length items = K
    /\ (forall os, exists b',
          run (shutdown b) os = Some (b', drain_replies items os)
          /\ shutdown_ b' = true
          /\ length (queue_ b') = (K - pops_in os)%nat)
    /\ (forall n, exists b',
          run (shutdown b) (repeat OpPop (K + n)) =
            Some (b', map Popped items ++ repeat NoItem n)
          /\ queue_ b' = [])
    /\ (forall b' it, shutdown_ b' = true -> push b' it = Returns b' tt).
Proof.
  intros Hnew Hfit Hreach HK.
  destruct (reachable_intact opts env b0 b Hnew Hfit Hreach) as [items Hc].
  exists items. split; [exact Hc |].
  assert (Hlen : length items = K).
  { rewrite <- HK. apply (f_equal length) in Hc.
    unfold Buffer.contents in Hc. rewrite !length_map in Hc. congruence. }
  split; [exact Hlen |]. split; [| split].
  - intros os.
    destruct (run_drains os (shutdown b) items eq_refl Hc) as (b' & Hrun & Hs & Hq & _).
    exists b'. rewrite Hq, length_drop. simpl. auto.
  - intros n.
    destruct (run_drains (repeat OpPop (K + n)) (shutdown b) items eq_refl Hc)
      as (b' & Hrun & Hs & Hq & _).
    exists b'. rewrite Hrun. split.
    + rewrite <- Hlen. rewrite drain_replies_pops. reflexivity.
    + rewrite Hq. apply drop_ge. simpl.
      assert (Hp : forall m, pops_in (repeat OpPop m) = m).
      { induction m; simpl; congruence. }
      rewrite Hp. lia.
  - intros b' it. apply push_after_shutdown.
Qed.

(** ** Round trip through the memory-mapped ring *)

Lemma pop_front (b : GlobalBuffer) (e : QueueEntry) (rest : list QueueEntry) :
  queue_ b = e :: rest -> pop b = tryPop b.
Proof.
  intros Hq. unfold Buffer.pop, Buffer.tryPop. rewrite Hq. simpl.
  rewrite orb_true_r. reflexivity.
Qed.

Lemma run_pops (items : list BufferItem) :
  forall b : GlobalBuffer,
    contents b = map Value items ->
    run b (repeat OpPop (length items)) = Some (set_queue b [], map Popped items).
Proof.
  induction items as [| it items IH]; intros b Hc.
  - unfold Buffer.contents in Hc. destruct (queue_ b) eqn:Hq; [| discriminate].
    simpl. destruct b; simpl in *; subst; reflexivity.
  - unfold Buffer.contents in Hc. destruct (queue_ b) as [| e rest] eqn:Hq; [discriminate |].
    simpl in Hc. inversion Hc as [[Hm Hrest]].
    cbn [length repeat Buffer.run Buffer.call].
    rewrite (pop_front b e rest Hq), (tryPop_front b e rest it Hq Hm).
    cbn [Buffer.reply_of_pop].
    rewrite (IH (set_queue b rest)) by (rewrite contents_set_queue; exact Hrest).
    reflexivity.
Qed.

(** X2. Persisted round trip, as far as it holds: on a memory-mapped buffer whose
    ring size fits [std::size_t], in any reachable state (so after any number
    of earlier pushes and pops, with the write cursor wrapped any number of
    times), a payload no longer than the configured maximum and shorter than
    [2 ^ 32] bytes is accepted by [push] whenever the buffer is neither shut
    down nor full, and once the entries queued before it have been popped,
    [pop] returns the item with exactly that payload. *)
Theorem persisted_round_trip (opts : Options) (env : MappingEnv) (b0 b : GlobalBuffer)
    (items : list BufferItem) (it : BufferItem) :
  GlobalBuffer_new opts env = Constructed b0 ->
  memoryMapped (options_ b0) = true ->
  geometry_fits b0 ->
  reachable b0 b ->
  contents b = map Value items ->
  shutdown_ b = false ->
  N.of_nat (length (queue_ b)) < capacity_ b ->
  N.of_nat (length (payload it)) <= maxPayloadSize (options_ b) ->
  N.of_nat (length (payload it)) < 2 ^ 32 ->
  exists b1 b2 it',
    push b it = Returns b1 tt
    /\ run b1 (repeat OpPop (length items + 1)) = Some (b2, map Popped items ++ [Popped it'])
    /\ it' = set_fieldNames it (fieldNames_ b)
    /\ payload it' = payload it.
Proof.
  intros Hnew Hm Hfit Hr Hc Hs Hlt Hsize H32.
  assert (H0 : steady b0 b0) by (eapply constructed_steady; eauto).
  destruct (reachable_steady _ _ H0 Hr) as [Ho _ _ Hring _].
  specialize (Hring Hm).
  destruct (ring_view b Hring) as (view & Hv & _).
  exists (pushed_mapped b it view).
  exists (set_queue (pushed_mapped b it view) []).
  exists (set_fieldNames it (fieldNames_ b)).
  split; [apply push_mapped; assumption |]. split; [| split; reflexivity].
  replace (length items + 1)%nat
    with (length (items ++ [set_fieldNames it (fieldNames_ b)]))
    by (rewrite length_app; reflexivity).
  rewrite run_pops.
  - rewrite map_app. reflexivity.
  - rewrite pushed_mapped_contents by assumption.
    rewrite Hc, map_app. f_equal. cbn [map]. unfold stored.
    destruct (N.ltb_spec (N.of_nat (length (payload it))) (2 ^ 32)); [reflexivity | lia].
Qed.

(** The other side of the 4-byte length prefix: on a freshly constructed
    memory-mapped buffer whose configured maximum admits it, a payload of
    [2 ^ 32] bytes or more is accepted by [push], and the [pop] that takes it
    out throws the size-mismatch error and drops the entry. *)
Lemma long_payload_is_lost (opts : Options) (file : bytes) (b0 : GlobalBuffer)
    (it : BufferItem) :
  GlobalBuffer_new opts (Mapped file) = Constructed b0 ->
  memoryMapped (options_ b0) = true ->
  geometry_fits b0 ->
  N.of_nat (length (payload it)) <= maxPayloadSize (options_ b0) ->
  2 ^ 32 <= N.of_nat (length (payload it)) ->
  exists b1,
    push b0 it = Returns b1 tt
    /\ length (queue_ b1) = 1%nat
    /\ pop b1 = Throws (set_queue b1 [])
                  (runtime_error "Memory-mapped payload size mismatch detected").
Proof.
  intros Hnew Hm Hfit Hsize Hbig.
  pose proof (constructed_ring_ok _ _ _ Hnew Hm Hfit) as Hring.
  destruct (constructed_empty _ _ _ Hnew) as (Hq & Hs & _).
  destruct (ring_view b0 Hring) as (view & Hv & _).
  pose proof (ring_capacity b0 Hring) as Hcap.
  assert (Hlt : N.of_nat (length (queue_ b0)) < capacity_ b0).
  { rewrite Hq. simpl. lia. }
  exists (pushed_mapped b0 it view).
  split; [apply push_mapped; assumption |].
  pose proof (pushed_mapped_contents b0 it view Hring Hlt Hv Hsize) as Hc.
  assert (Hq1 : queue_ (pushed_mapped b0 it view) =
                [mkEntry (set_payload (set_fieldNames it (fieldNames_ b0)) [])
                         (N.of_nat (length (payload it))) (writeIndex_ b0)]).
  { unfold Buffer.pushed_mapped. cbn [queue_]. rewrite Hq. reflexivity. }
  split; [rewrite Hq1; reflexivity |].
  unfold Buffer.contents in Hc. rewrite Hq1, Hq in Hc. cbn [app map] in Hc.
  injection Hc as Hc. unfold stored in Hc.
  destruct (N.ltb_spec (N.of_nat (length (payload it))) (2 ^ 32)); [lia |].
  rewrite (pop_front _ _ _ Hq1). eapply tryPop_front_raise; [exact Hq1 | exact Hc].
Qed.

(** ** Errors of [push] *)

Lemma push_admitted_mapped (b : GlobalBuffer) (it : BufferItem) :
  memoryMapped (options_ b) = true ->
  shutdown_ b = false ->
  N.of_nat (length (queue_ b)) < capacity_ b ->
  push b it =
    match mappedView_ b with
    | None => Throws b (runtime_error "Memory-mapped buffer is not initialized")
    | Some view =>
        if maxPayloadSize (options_ b) <? N.of_nat (length (payload it)) then
          Throws b (runtime_error
            "Payload size exceeds configured maximum for memory-mapped buffer")
        else push b it
    end.
Proof.
  intros Hm Hs Hlt. destruct (mappedView_ b) as [view |] eqn:Hv.
  - destruct (N.ltb_spec (maxPayloadSize (options_ b)) (N.of_nat (length (payload it))))
      as [Hbig | Hle]; [| reflexivity].
    unfold Buffer.push. rewrite Hs, Hm, Hv. simpl orb.
    destruct (N.ltb_spec (N.of_nat (length (queue_ b))) (capacity_ b)); [| lia].
    cbn [negb payload set_fieldNames].
    destruct (N.ltb_spec (maxPayloadSize (options_ b)) (N.of_nat (length (payload it))));
      [reflexivity | lia].
  - unfold Buffer.push. rewrite Hs, Hm, Hv. simpl orb.
    destruct (N.ltb_spec (N.of_nat (length (queue_ b))) (capacity_ b)); [| lia].
    reflexivity.
Qed.

(** C5. In memory-mapped mode, on a buffer that has not been shut down, a
    [push] whose payload is strictly longer than the configured maximum is
    reported to its caller: once the call is admitted (the queue is below
    capacity; on a full buffer it waits and enqueues nothing) it throws a
    [std::runtime_error] and leaves the buffer as it was, so the item is not
    enqueued and not silently dropped. (After [shutdown()] every [push] is the
    no-op of C2, whatever its payload.) *)
Theorem oversized_push_is_reported (b : GlobalBuffer) (it : BufferItem) :
  memoryMapped (options_ b) = true ->
  maxPayloadSize (options_ b) < N.of_nat (length (payload it)) ->
  (shutdown_ b = false ->
   N.of_nat (length (queue_ b)) < capacity_ b ->
   exists what,
     push b it = Throws b (runtime_error what)
     /\ (mappedView_ b <> None ->
         what = "Payload size exceeds configured maximum for memory-mapped buffer"%string))
  /\ (shutdown_ b = true -> push b it = Returns b tt)
  /\ (shutdown_ b = false ->
      capacity_ b <= N.of_nat (length (queue_ b)) -> push b it = Blocks).
Proof.
  intros Hm Hbig. split; [| split].
  - intros Hs Hlt. rewrite (push_admitted_mapped b it Hm Hs Hlt).
    destruct (mappedView_ b) as [view |].
    + destruct (N.ltb_spec (maxPayloadSize (options_ b)) (N.of_nat (length (payload it))));
        [| lia].
      eexists. split; [reflexivity | reflexivity].
    + eexists. split; [reflexivity | congruence].
  - apply push_after_shutdown.
  - intros Hs Hfull. unfold Buffer.push. rewrite Hs.
    destruct (N.ltb_spec (N.of_nat (length (queue_ b))) (capacity_ b)); [lia |].
    reflexivity.
Qed.

(** C10. Whenever [push] ends with an exception, the buffer is exactly as it
    was before the call (queue, write cursor and mapped view included); this
    happens only in memory-mapped mode on a buffer that is not shut down,
    either because the view is not initialised or because the payload is
    strictly longer than the configured maximum. *)
Theorem failed_push_changes_nothing (b b' : GlobalBuffer) (it : BufferItem) (e : exn) :
  push b it = Throws b' e ->
  b' = b
  /\ queue_ b' = queue_ b
  /\ writeIndex_ b' = writeIndex_ b
  /\ mappedView_ b' = mappedView_ b
  /\ memoryMapped (options_ b) = true
  /\ shutdown_ b = false
  /\ (mappedView_ b = None
        /\ e = runtime_error "Memory-mapped buffer is not initialized"
      \/ maxPayloadSize (options_ b) < N.of_nat (length (payload it))
        /\ e = runtime_error
                 "Payload size exceeds configured maximum for memory-mapped buffer").
Proof.
  unfold Buffer.push. intros H.
  destruct (shutdown_ b) eqn:Hs; [discriminate |]. simpl orb in H.
  destruct (N.of_nat (length (queue_ b)) <? capacity_ b); [| discriminate].
  cbn [negb] in H.
  destruct (memoryMapped (options_ b)) eqn:Hm; [| discriminate].
  destruct (mappedView_ b) as [view |] eqn:Hv.
  - cbn [payload set_fieldNames] in H.
    destruct (N.ltb_spec (maxPayloadSize (options_ b)) (N.of_nat (length (payload it))))
      as [Hbig | Hle].
    + inversion H; subst. rewrite Hv. auto 10.
    + destruct (memcpy_to view _ _); [| discriminate].
      destruct (if 0 <? _ then _ else _); discriminate.
  - inversion H; subst. rewrite Hv. auto 10.
Qed.

(** ** The stored-length check of [pop] *)

(** C6. In memory-mapped mode, whatever bytes the mapped view holds, on a
    buffer whose queue and ring are well formed ([ring_ok]: the ring size fits
    [std::size_t], the view covers the ring, and the queued entries record
    slots inside it), [pop] (and [tryPop]) on a non-empty queue takes the
    front entry out, reads the 4 bytes at the start of the entry's recorded
    slot as the stored length and compares it with the entry's recorded
    length: when they differ the call throws the size-mismatch
    [std::runtime_error] (the entry has left the queue; nothing is returned or
    retried), and when they agree it returns the item with the [payloadSize]
    bytes that follow the length prefix. The recorded length is the payload
    length [push] saw. *)
Theorem pop_verifies_stored_length (b : GlobalBuffer) (e : QueueEntry)
    (rest : list QueueEntry) (view : bytes) :
  ring_ok b ->
  queue_ b = e :: rest ->
  mappedView_ b = Some view ->
  let off := N.to_nat (slotIndex e * slotSize_ b) in
  let storedSize := load_u32 order (take 4 (drop off view)) in
  let data := take (N.to_nat (payloadSize e)) (drop (off + 4) view) in
  (off + 4 + N.to_nat (payloadSize e) <= length view)%nat
  /\ (storedSize <> payloadSize e ->
      pop b = Throws (set_queue b rest)
                (runtime_error "Memory-mapped payload size mismatch detected")
      /\ tryPop b = pop b)
  /\ (storedSize = payloadSize e ->
      pop b = Returns (set_queue b rest) (Some (set_payload (item e) data))
      /\ tryPop b = pop b
      /\ N.of_nat (length data) = payloadSize e)
  /\ (forall it b', shutdown_ b = false -> push b it = Returns b' tt ->
        exists e', queue_ b' = queue_ b ++ [e']
                   /\ payloadSize e' = N.of_nat (length (payload it))
                   /\ slotIndex e' = writeIndex_ b).
Proof.
  intros Hring Hq Hv off storedSize data.
  assert (Hmb : memoryMapped (options_ b) = true) by exact (ring_mapped b Hring).
  pose proof Hring as [_ Hc HS Hfits (view0 & Hv0 & Hlen) Hle (front & Hf & Hwi & Hslots)].
  rewrite Hv in Hv0. inversion Hv0; subst view0. clear Hv0.
  destruct (Hslots 0%nat e) as [Hslot Hsize]; [rewrite Hq; reflexivity |].
  assert (Hs : slotIndex e < capacity_ b).
  { rewrite Hslot. apply N.mod_upper_bound. lia. }
  destruct (slot_offset _ _ _ Hs Hfits) as [Hoff Hin].
  assert (Hbound : (off + 4 + N.to_nat (payloadSize e) <= length view)%nat).
  { unfold off. lia. }
  assert (Hvalid : (slotIndex e =? kInvalidSlot) = false).
  { apply N.eqb_neq. unfold kInvalidSlot, SIZE_MAX. nia. }
  assert (Hmat : materializeEntry b e =
            if negb (storedSize =? payloadSize e)
            then Raise (runtime_error "Memory-mapped payload size mismatch detected")
            else Value (set_payload (item e) data)).
  { unfold Buffer.materializeEntry. rewrite Hmb, Hvalid, Hv, Hoff. cbn [negb andb].
    unfold memcpy_from.
    destruct (N.leb_spec (slotIndex e * slotSize_ b + 4) (N.of_nat (length view)));
      [| lia].
    fold off. change (N.to_nat 4) with 4%nat. fold storedSize.
    destruct (negb (storedSize =? payloadSize e)); [reflexivity |].
    destruct (N.ltb_spec 0 (payloadSize e)) as [Hpos | Hzero].
    - destruct (N.leb_spec (slotIndex e * slotSize_ b + 4 + payloadSize e)
                  (N.of_nat (length view))); [| lia].
      replace (N.to_nat (slotIndex e * slotSize_ b + 4)) with (off + 4)%nat
        by (unfold off; lia).
      reflexivity.
    - unfold data. replace (payloadSize e) with 0 by lia. reflexivity. }
  assert (Hpop : pop b = tryPop b) by (eapply pop_front; eauto).
  assert (Htry : tryPop b =
            match materializeEntry b e with
            | Value it => Returns (set_queue b rest) (Some it)
            | Raise x => Throws (set_queue b rest) x
            | OutOfBounds => Undefined
            end).
  { unfold Buffer.tryPop, Buffer.take_front. rewrite Hq.
    rewrite materializeEntry_set_queue. reflexivity. }
  split; [exact Hbound |]. split; [| split].
  - intros Hne. rewrite Hpop, Htry, Hmat.
    destruct (N.eqb_spec storedSize (payloadSize e)); [contradiction |].
    split; reflexivity.
  - intros Heq. rewrite Hpop, Htry, Hmat.
    destruct (N.eqb_spec storedSize (payloadSize e)); [| contradiction].
    split; [reflexivity |]. split; [reflexivity |].
    unfold data. rewrite length_take, length_drop. lia.
  - intros it b' Hs' Hp.
    assert (Hst : Buffer.state_of (push b it) = Some b') by (rewrite Hp; reflexivity).
    destruct (push_outcomes b it b' (fun _ => Hring) Hst)
      as [(Hsd & _) | [(_ & _ & _ & Hthrow & _) | (_ & Hlt & _)]];
      [congruence | congruence |].
    rewrite (push_mapped b it view Hring Hs' Hlt Hv) in Hp.
    + inversion Hp; subst b'. eexists. split; [reflexivity |]. split; reflexivity.
    + destruct (N.le_gt_cases (N.of_nat (length (payload it)))
                  (maxPayloadSize (options_ b))) as [Hok | Hgt]; [exact Hok |].
      exfalso. rewrite (push_admitted_mapped b it Hmb Hs' Hlt), Hv in Hp.
      destruct (N.ltb_spec (maxPayloadSize (options_ b))
                  (N.of_nat (length (payload it)))); [discriminate | lia].
Qed.

(** ** Construction *)

Lemma mapped_construction (opts : Options) (file : bytes) :
  memoryMapped opts = true ->
  exists b0,
    GlobalBuffer_new opts (Mapped file) = Constructed b0
    /\ options_ b0 = normalizeOptions opts
    /\ capacity_ b0 = capacity (normalizeOptions opts).
Proof.
  intros Hm. unfold GlobalBuffer_new.
  assert (Hmm : memoryMapped (normalizeOptions opts) = true) by exact Hm.
  rewrite Hmm.
  destruct (N.eqb_spec (capacity (normalizeOptions opts)) 0) as [Hz | _].
  { exfalso. simpl in Hz. destruct (N.eqb_spec (capacity opts) 0); [discriminate | contradiction]. }
  assert (Hfile : string_empty (backingFile (normalizeOptions opts)) = false).
  { simpl. rewrite Hm. simpl.
    destruct (string_empty (backingFile opts)) eqn:He; [reflexivity | exact He]. }
  rewrite Hfile.
  destruct (N.eqb_spec (maxPayloadSize (normalizeOptions opts)) 0) as [Hz | _].
  { exfalso. simpl in Hz.
    destruct (N.eqb_spec (maxPayloadSize opts) 0); [discriminate | contradiction]. }
  cbn [initializeMapping]. eexists. split; [reflexivity |]. split; reflexivity.
Qed.

(** C4, as the code has it. Construction never throws [std::invalid_argument]:
    [normalizeOptions] replaces a capacity of 0 by 1024, a maximum payload size
    of 0 by 4096 and, in memory-mapped mode, an empty backing-file path by
    [global_buffer.mmap] before the constructor looks at them. Construction
    succeeds whenever the mode is not memory-mapped or the mapping can be set
    up, and it throws (a [std::runtime_error]) only when [open], [ftruncate]
    or [mmap] fails in memory-mapped mode. *)
Theorem construction_substitutes_defaults (opts : Options) (env : MappingEnv) :
  (forall what, GlobalBuffer_new opts env <> CtorThrows (invalid_argument what))
  /\ (forall b0, GlobalBuffer_new opts env = Constructed b0 ->
        capacity_ b0 = (if capacity opts =? 0 then 1024 else capacity opts)
        /\ maxPayloadSize (options_ b0) =
             (if maxPayloadSize opts =? 0 then 4096 else maxPayloadSize opts)
        /\ backingFile (options_ b0) =
             (if memoryMapped opts && string_empty (backingFile opts)
              then "global_buffer.mmap"%string else backingFile opts)
        /\ memoryMapped (options_ b0) = memoryMapped opts)
  /\ ((memoryMapped opts = false \/ exists file, env = Mapped file) ->
      exists b0, GlobalBuffer_new opts env = Constructed b0)
  /\ (forall e, GlobalBuffer_new opts env = CtorThrows e ->
        memoryMapped opts = true
        /\ (forall file, env <> Mapped file)
        /\ exists what, e = runtime_error what).
Proof.
  assert (Hcap : (capacity (normalizeOptions opts) =? 0) = false).
  { simpl. destruct (N.eqb_spec (capacity opts) 0); [reflexivity |].
    apply N.eqb_neq. assumption. }
  assert (Hmps : (maxPayloadSize (normalizeOptions opts) =? 0) = false).
  { simpl. destruct (N.eqb_spec (maxPayloadSize opts) 0); [reflexivity |].
    apply N.eqb_neq. assumption. }
  assert (Hfile : memoryMapped opts = true ->
                  string_empty (backingFile (normalizeOptions opts)) = false).
  { intros Hm. simpl. rewrite Hm. simpl.
    destruct (string_empty (backingFile opts)) eqn:He; [reflexivity | exact He]. }
  assert (Hmm : memoryMapped (normalizeOptions opts) = memoryMapped opts) by reflexivity.
  unfold GlobalBuffer_new. rewrite Hcap, Hmm.
  destruct (memoryMapped opts) eqn:Hm.
  - rewrite (Hfile eq_refl), Hmps.
    destruct env as [| | | file]; cbn [initializeMapping].
    all: split; [intros what; discriminate |].
    all: split; [intros b0 Hb; inversion Hb; subst b0; cbn [options_ capacity_];
                 simpl; rewrite ?Hm; auto |].
    all: split; [intros [Hf | [file' Hf]]; try discriminate; eauto |].
    all: intros e He; inversion He; subst e.
    all: split; [reflexivity |]; split; [intros file'; discriminate | eauto].
  - split; [intros what; discriminate |].
    split; [intros b0 Hb; inversion Hb; subst b0; cbn [options_ capacity_];
            simpl; rewrite ?Hm; auto |].
    split; [eauto |]. intros e He. discriminate.
Qed.

End WithOrder.

(** ** Worked instances *)

Lemma ex_heap_constructed : GlobalBuffer_new ex_heap_options OpenFails = Constructed ex_heap.
Proof. reflexivity. Qed.

Lemma ex_heap_full_reachable : reachable LittleEndian ex_heap ex_heap_full.
Proof.
  eapply reach_step with (o := OpPush (ex_item [x42; x43])).
  - eapply reach_step with (o := OpPush (ex_item [x41])).
    + apply reach_init.
    + reflexivity.
  - reflexivity.
Qed.

Lemma ex_ring_constructed :
  GlobalBuffer_new ex_ring_options (Mapped []) = Constructed ex_ring.
Proof. reflexivity. Qed.

Lemma ex_ring_one_pushed :
  push LittleEndian ex_ring (ex_item [x41; x42]) = Returns ex_ring_one tt.
Proof. reflexivity. Qed.

Lemma ex_ring_one_reachable : reachable LittleEndian ex_ring ex_ring_one.
Proof.
  eapply reach_step with (o := OpPush (ex_item [x41; x42])).
  - apply reach_init.
  - reflexivity.
Qed.

Lemma bounded_capacity_witness :
  N.of_nat (length (queue_ ex_heap_full)) <= 2
  /\ push LittleEndian ex_heap_full (ex_item []) = Blocks.
Proof.
  destruct (bounded_capacity LittleEndian ex_heap_options OpenFails 2 ex_heap ex_heap_full
              ex_heap_constructed eq_refl ex_heap_full_reachable)
    as (_ & _ & Hle & _ & Hblocks & _).
  split; [exact Hle | apply Hblocks; reflexivity].
Defined.

Lemma drain_on_shutdown_witness :
  exists b',
    run LittleEndian (shutdown ex_heap_full) (repeat OpPop (2 + 3)) =
      Some (b', (map Popped [ex_item [x41]; ex_item [x42; x43]] ++ repeat NoItem 3)%list)
    /\ queue_ b' = [].
Proof.
  destruct (drain_on_shutdown LittleEndian ex_heap_options OpenFails ex_heap ex_heap_full 2
              ex_heap_constructed
              (fun H : memoryMapped (options_ ex_heap) = true =>
                 False_ind _ (Bool.diff_false_true H))
              ex_heap_full_reachable eq_refl)
    as (items & Hc & _ & _ & Hpops & _).
  destruct items as [| i1 [| i2 [| i3 items]]]; try discriminate Hc.
  injection Hc as <- <-. exact (Hpops 3%nat).
Defined.

Lemma persisted_round_trip_witness :
  exists b1 b2 it',
    push LittleEndian ex_ring_one (ex_item [x61; x62; x63]) = Returns b1 tt
    /\ run LittleEndian b1 (repeat OpPop (1 + 1)) =
         Some (b2, (map Popped [ex_item [x41; x42]] ++ [Popped it'])%list)
    /\ it' = set_fieldNames (ex_item [x61; x62; x63]) (fieldNames_ ex_ring_one)
    /\ payload it' = [x61; x62; x63].
Proof.
  apply (persisted_round_trip LittleEndian ex_ring_options (Mapped []) ex_ring ex_ring_one
           [ex_item [x41; x42]] (ex_item [x61; x62; x63])).
  - reflexivity.
  - reflexivity.
  - unfold geometry_fits. simpl. lia.
  - exact ex_ring_one_reachable.
  - reflexivity.
  - reflexivity.
  - simpl. lia.
  - simpl. lia.
  - simpl. lia.
Defined.

Lemma oversized_push_is_reported_witness :
  exists what,
    push LittleEndian ex_ring (ex_item [x61; x62; x63; x64; x65]) =
      Throws ex_ring (runtime_error what)
    /\ (mappedView_ ex_ring <> None ->
        what = "Payload size exceeds configured maximum for memory-mapped buffer"%string).
Proof.
  destruct (oversized_push_is_reported LittleEndian ex_ring
              (ex_item [x61; x62; x63; x64; x65]) eq_refl ltac:(simpl; lia))
    as [Hthrows _].
  apply Hthrows; [reflexivity | simpl; lia].
Defined.

Lemma failed_push_changes_nothing_witness :
  queue_ ex_ring_one = queue_ ex_ring_one
  /\ writeIndex_ ex_ring_one = 1
  /\ mappedView_ ex_ring_one = Some ([x02; x00; x00; x00; x41; x42] ++ replicate 10 x00)%list.
Proof.
  destruct (failed_push_changes_nothing LittleEndian ex_ring_one ex_ring_one
              (ex_item [x61; x62; x63; x64; x65])
              (runtime_error "Payload size exceeds configured maximum for memory-mapped buffer"%string)
              eq_refl)
    as (_ & Hq & Hw & Hv & _).
  split; [exact Hq |]. split; [exact Hw | exact Hv].
Defined.

Lemma ex_ring_one_ok : ring_ok ex_ring_one.
Proof.
  assert (H0 : Buffer.steady LittleEndian ex_ring ex_ring).
  { apply (constructed_steady LittleEndian ex_ring_options (Mapped [])).
    - exact ex_ring_constructed.
    - intros _. unfold geometry_fits. simpl. lia. }
  exact (Buffer.steady_ring _ _ _ (reachable_steady LittleEndian _ _ H0 ex_ring_one_reachable)
           eq_refl).
Qed.

Lemma ex_ring_altered_ok : ring_ok ex_ring_altered.
Proof.
  destruct ex_ring_one_ok as [Hm Hc HS Hfits _ Hle Hslots].
  constructor; try assumption.
  eexists. split; [reflexivity | reflexivity].
Qed.

Lemma pop_verifies_stored_length_witness :
  pop LittleEndian ex_ring_altered =
    Throws (set_queue ex_ring_altered [])
      (runtime_error "Memory-mapped payload size mismatch detected")
  /\ pop LittleEndian ex_ring_one =
       Returns (set_queue ex_ring_one []) (Some (set_payload (ex_item []) [x41; x42])).
Proof.
  split.
  - destruct (pop_verifies_stored_length LittleEndian ex_ring_altered
                (mkEntry (ex_item []) 2 0) []
                ([x03; x00; x00; x00; x41; x42] ++ replicate 10 x00)%list
                ex_ring_altered_ok eq_refl eq_refl)
      as (_ & Hdiffer & _).
    destruct (Hdiffer ltac:(discriminate)) as (Hpop & _). exact Hpop.
  - destruct (pop_verifies_stored_length LittleEndian ex_ring_one
                (mkEntry (ex_item []) 2 0) []
                ([x02; x00; x00; x00; x41; x42] ++ replicate 10 x00)%list
                ex_ring_one_ok eq_refl eq_refl)
      as (_ & _ & Hmatch & _).
    destruct (Hmatch eq_refl) as (Hpop & _). exact Hpop.
Defined.

(** C4 fails as it is stated: a capacity of 0, an empty backing-file path in
    memory-mapped mode and a maximum payload size of 0 in memory-mapped mode
    all construct a buffer, with the defaults in their place. *)
Lemma invalid_options_are_accepted :
  (exists b0,
      GlobalBuffer_new (mkOptions 0 false EmptyString 0 defaultFieldNames) OpenFails
        = Constructed b0
      /\ capacity_ b0 = 1024)
  /\ (exists b0,
      GlobalBuffer_new (mkOptions 2 true EmptyString 4 defaultFieldNames) (Mapped [])
        = Constructed b0
      /\ backingFile (options_ b0) = "global_buffer.mmap"%string)
  /\ (exists b0,
      GlobalBuffer_new (mkOptions 2 true "ring.mmap"%string 0 defaultFieldNames) (Mapped [])
        = Constructed b0
      /\ maxPayloadSize (options_ b0) = 4096).
Proof.
  split; [| split]; eexists; (split; [reflexivity | reflexivity]).
Qed.

(** ** A payload of 4 GiB *)

(** C3 fails on the code: a memory-mapped buffer configured with a maximum
    payload size of [2 ^ 32] accepts a payload of [2 ^ 32] bytes, stores the
    truncated length 0 in the slot's 4-byte prefix, and the [pop] that takes
    the entry out throws the size-mismatch error instead of returning the
    payload; the entry is gone from the queue. *)
Theorem four_gib_payload_does_not_round_trip (order : byte_order) (file : bytes) :
  let options := mkOptions 1 true "ring.mmap"%string (2 ^ 32) defaultFieldNames in
  let it := ex_item (replicate (N.to_nat (2 ^ 32)) x00) in
  N.of_nat (length (payload it)) <= maxPayloadSize options
  /\ exists b0 b1,
      GlobalBuffer_new options (Mapped file) = Constructed b0
      /\ push order b0 it = Returns b1 tt
      /\ length (queue_ b1) = 1%nat
      /\ pop order b1 = Throws (set_queue b1 [])
                          (runtime_error "Memory-mapped payload size mismatch detected"%string).
Proof.
  intros options it.
  assert (Hlen : N.of_nat (length (payload it)) = 2 ^ 32).
  { unfold it, ex_item. cbn [payload]. rewrite length_replicate. apply N2Nat.id. }
  split; [rewrite Hlen; reflexivity |].
  destruct (mapped_construction options file eq_refl) as (b0 & Hb0 & Hopts & Hcap).
  assert (Hmm : memoryMapped (options_ b0) = true) by (rewrite Hopts; reflexivity).
  assert (Hmps : maxPayloadSize (options_ b0) = 2 ^ 32) by (rewrite Hopts; reflexivity).
  change (capacity (normalizeOptions options)) with 1 in Hcap.
  destruct (long_payload_is_lost order options file b0 it Hb0 Hmm)
    as (b1 & Hpush & Hq & Hpop).
  - unfold geometry_fits. rewrite Hcap, Hmps. reflexivity.
  - rewrite Hlen, Hmps. reflexivity.
  - rewrite Hlen. reflexivity.
  - exists b0, b1. auto.
Qed.

(** ** Draining after a payload of 4 GiB *)

Lemma pop_of_shutdown (order : byte_order) (b : GlobalBuffer) :
  queue_ b <> [] ->
  pop order (shutdown b)
  = match pop order b with
    | Returns b' r => Returns (shutdown b') r
    | Throws b' x => Throws (shutdown b') x
    | Blocks => Blocks
    | Undefined => Undefined
    end.
Proof.
  intros Hne. unfold Buffer.pop. cbn [shutdown queue_ shutdown_ orb negb].
  destruct (queue_ b) as [| e rest] eqn:Hq; [congruence |].
  cbn [length]. rewrite Nat2N.inj_succ.
  destruct (N.eqb_spec (N.succ (N.of_nat (length rest))) 0) as [Hz | _]; [lia |].
  rewrite orb_true_r. cbn [negb].
  unfold Buffer.take_front.
  change (materializeEntry order (set_queue (shutdown b) rest) e)
    with (materializeEntry order (set_queue b rest) e).
  destruct (materializeEntry order (set_queue b rest) e); reflexivity.
Qed.

(** C2 fails on the code, through the defect of C3. A memory-mapped buffer
    configured with a maximum payload size of [2 ^ 32] queues one entry, a
    payload of [2 ^ 32] bytes ([K = 1]); after [shutdown()] the first [pop]
    throws the size-mismatch error instead of returning the item, the entry
    is gone, and the next [pop] reports that there is no item: none of the
    [K] queued items is handed out. *)
Theorem shutdown_drain_loses_a_four_gib_payload (order : byte_order) (file : bytes) :
  let options := mkOptions 1 true "ring.mmap"%string (2 ^ 32) defaultFieldNames in
  let it := ex_item (replicate (N.to_nat (2 ^ 32)) x00) in
  exists b0 b1,
    GlobalBuffer_new options (Mapped file) = Constructed b0
    /\ push order b0 it = Returns b1 tt
    /\ length (queue_ b1) = 1%nat
    /\ run order (shutdown b1) [OpPop; OpPop]
       = Some (shutdown (set_queue b1 []),
               [Threw (runtime_error "Memory-mapped payload size mismatch detected"%string);
                NoItem]).
Proof.
  intros options it.
  assert (Hlen : N.of_nat (length (payload it)) = 2 ^ 32).
  { unfold it, ex_item. cbn [payload]. rewrite length_replicate. apply N2Nat.id. }
  destruct (mapped_construction options file eq_refl) as (b0 & Hb0 & Hopts & Hcap).
  assert (Hmm : memoryMapped (options_ b0) = true) by (rewrite Hopts; reflexivity).
  assert (Hmps : maxPayloadSize (options_ b0) = 2 ^ 32) by (rewrite Hopts; reflexivity).
  change (capacity (normalizeOptions options)) with 1 in Hcap.
  destruct (long_payload_is_lost order options file b0 it Hb0 Hmm)
    as (b1 & Hpush & Hq & Hpop).
  - unfold geometry_fits. rewrite Hcap, Hmps. reflexivity.
  - rewrite Hlen, Hmps. reflexivity.
  - rewrite Hlen. reflexivity.
  - exists b0, b1. split; [exact Hb0 |]. split; [exact Hpush |]. split; [exact Hq |].
    assert (Hne : queue_ b1 <> []) by (intros Hnil; rewrite Hnil in Hq; discriminate).
    cbn [Buffer.run Buffer.call].
    rewrite (pop_of_shutdown order b1 Hne), Hpop. cbn [Buffer.reply_of_pop].
    unfold Buffer.pop. cbn [shutdown set_queue queue_ shutdown_ orb negb length].
    reflexivity.
Qed.

End BufferTheory.

(** * Properties of the producer lifecycle *)

Module SessionTheory.

Import Session.

Lemma stop_live (r : run_result) (s s' : StreamingSession) :
  stop r s = Live s' ->
  running_ s' = false /\ worker_ s' = NoThread
  /\ cleanups s' = S (cleanups s) /\ runs s' = runs s.
Proof.
  unfold stop, join, worker_exit, threadMain, cleanup.
  destruct s as [run w n c]. simpl.
  destruct w; simpl; try (intros [= <-]; simpl; auto).
  destruct r; simpl; [| discriminate].
  intros [= <-]. simpl. auto.
Qed.

Lemma stop_terminates (r : run_result) (s : StreamingSession) (x : option exn) :
  stop r s = Terminated x ->
  worker_ s = Active /\ exists e, r = RunThrows e /\ x = Some e.
Proof.
  unfold stop, join, worker_exit, threadMain, cleanup.
  destruct s as [run w n c]. simpl.
  destruct w; simpl; try discriminate.
  destruct r; simpl; [discriminate |].
  intros [= <-]. eauto.
Qed.

(** C7, as the code has it. Every call of [stop()] that returns has cleared the
    Running flag, left no joinable worker thread and invoked the cleanup hook
    exactly once in that call; this is also so when the read loop returned by
    itself before [stop()] was called. A [start()] on an idle session followed
    by one [stop()] therefore spawns one worker and runs the hook once, whether
    the worker ends before or during the [stop()]; and [stop()] returns unless
    the worker it joins ends by throwing. *)
Theorem stop_cleans_up_once_per_call (s : StreamingSession) (r : run_result) :
  (forall s', stop r s = Live s' ->
     running_ s' = false /\ worker_ s' = NoThread /\ cleanups s' = S (cleanups s))
  /\ ((worker_ s <> Active \/ r = RunReturns) -> exists s', stop r s = Live s')
  /\ (running_ s = false -> worker_ s = NoThread ->
      forall early, early = [] \/ early = [WorkerEnds RunReturns] ->
      steps (Live s) (Start :: early ++ [Stop RunReturns]) =
        Live (mkSession false NoThread (S (runs s)) (S (cleanups s)))).
Proof.
  split; [| split].
  - intros s' H. destruct (stop_live r s s' H) as (? & ? & ? & ?). auto.
  - intros Hok. destruct (stop r s) as [s' | x] eqn:H; [eauto |].
    destruct (stop_terminates r s x H) as (Hw & e & -> & _).
    destruct Hok; [contradiction | discriminate].
  - intros Hrun Hw early Hearly. destruct s as [run w n c]. simpl in Hrun, Hw. subst.
    destruct Hearly as [-> | ->]; reflexivity.
Qed.

(** C7 fails as it is stated: after one [start()], so one run of the worker,
    two calls of [stop()] have run the cleanup hook twice; and a [stop()] on a
    session that was never started runs the hook although no worker ever
    ran. *)
Lemma second_stop_cleans_up_again :
  steps (Live initial) [Start; WorkerEnds RunReturns; Stop RunReturns; Stop RunReturns]
    = Live (mkSession false NoThread 1 2)
  /\ steps (Live initial) [Stop RunReturns] = Live (mkSession false NoThread 0 1).
Proof. split; reflexivity. Qed.

(** C8 fails on the code: when [run()] throws, [threadMain] clears the Running
    flag and rethrows; the exception leaves the initial function of the worker
    thread, so [std::terminate] ends the whole process. This is so whether the
    worker ends on its own or while [stop()] joins it, and nothing runs
    afterwards: no [stop()], no cleanup hook, no other producer and no
    consumer. *)
Theorem thrown_error_terminates_the_process (e : exn) (s : StreamingSession)
    (path : string) (later : list event) :
  running_ (fst (threadMain (RunThrows e) s)) = false
  /\ snd (threadMain (RunThrows e) s) = Some e
  /\ worker_exit (RunThrows e) s = Terminated (Some e)
  /\ steps (Live (mkSession true Active (runs s) (cleanups s)))
           (WorkerEnds (RunThrows e) :: later) = Terminated (Some e)
  /\ steps (Live (mkSession true Active (runs s) (cleanups s)))
           (Stop (RunThrows e) :: later) = Terminated (Some e)
  /\ steps (Live initial) (Start :: WorkerEnds (FileSession_run true path false) :: later)
     = Terminated (Some (runtime_error ("Failed to open input file: " ++ path))).
Proof.
  assert (Hdead : forall x evs, steps (Terminated x) evs = Terminated x).
  { intros x evs. induction evs as [| ev evs IH]; [reflexivity | exact IH]. }
  repeat split; try reflexivity; unfold steps; simpl; apply Hdead.
Qed.

End SessionTheory.

(** * Properties of the record formatting *)

Module CsvTheory.

Import Buffer Csv.

Local Open Scope string_scope.

Lemma append_nil_r (s : string) : s ++ EmptyString = s.
Proof. induction s as [| c s IH]; simpl; congruence. Qed.

Lemma append_assoc (s t u : string) : (s ++ t) ++ u = s ++ (t ++ u).
Proof. induction s as [| c s IH]; simpl; congruence. Qed.

Lemma escape_doubled (value : string) : escape value = doubled value.
Proof.
  unfold doubled. induction value as [| ch rest IH]; [reflexivity |].
  simpl. destruct (Ascii.eqb_spec ch dq) as [-> | _]; simpl; rewrite IH; reflexivity.
Qed.

Lemma hex_payload_pairs (p : bytes) : hex_payload p = hex_pairs p.
Proof.
  unfold hex_pairs. induction p as [| b rest IH]; [reflexivity |].
  cbn [hex_payload map String.concat]. rewrite IH.
  destruct rest as [| b' rest']; [| reflexivity].
  simpl. apply append_nil_r.
Qed.

Lemma hex_byte_lowercase (b : byte) :
  exists hi lo, hex_byte b = String hi (String lo EmptyString)
                /\ In hi (list_ascii_of_string "0123456789abcdef")
                /\ In lo (list_ascii_of_string "0123456789abcdef").
Proof.
  destruct b; vm_compute; eexists; eexists; (split; [reflexivity |]); tauto.
Qed.

Section Format.

Variable put_time : Z -> string -> string.

Lemma formatRecord_quoted (settings_ : CsvSettings) (item : BufferItem) :
  quoteStrings settings_ = true ->
  formatRecord put_time settings_ item =
    String.concat (String (delimiter settings_) EmptyString)
                  (map quoted (columns put_time settings_ item)).
Proof.
  intros Hq. unfold formatRecord, columns, appendColumn, quoted.
  rewrite Hq, hex_payload_pairs, !escape_doubled.
  destruct (includeTimestamp settings_); simpl;
    rewrite ?append_assoc; simpl; rewrite ?append_assoc; reflexivity.
Qed.

(** C9. With quoting enabled, the line [formatRecord] produces is the columns
    (the formatted timestamp when timestamps are enabled, the source, the
    payload as lowercase hex byte pairs separated by single spaces) each
    wrapped in double quotes with every embedded double quote doubled, joined
    with the configured delimiter. For the source [dev0], a timestamp that
    formats to [2024-01-01], the payload [41 42] and the delimiter [,] the
    line is the three quoted columns [2024-01-01], [dev0] and [41 42]; and the
    source made of [a], a double quote and [b] is rendered as the column that
    has [a], two double quotes and [b] between its quotes. *)
Theorem formatRecord_quotes_columns (settings_ : CsvSettings) (item : BufferItem) :
  quoteStrings settings_ = true ->
  formatRecord put_time settings_ item =
    String.concat (String (delimiter settings_) EmptyString)
                  (map quoted (columns put_time settings_ item))
  /\ (forall p, exists hi lo,
        hex_pairs [p] = String hi (String lo EmptyString)
        /\ In hi (list_ascii_of_string "0123456789abcdef")
        /\ In lo (list_ascii_of_string "0123456789abcdef"))
  /\ (delimiter settings_ = ","%char ->
      includeTimestamp settings_ = true ->
      put_time (timestamp item) (timestampFormat settings_) = "2024-01-01" ->
      source item = "dev0" ->
      payload item = [x41; x42] ->
      formatRecord put_time settings_ item =
        in_quotes "2024-01-01" ++ "," ++ in_quotes "dev0" ++ "," ++ in_quotes "41 42")
  /\ (source item = "a" ++ String dq "b" ->
      includeTimestamp settings_ = false ->
      formatRecord put_time settings_ item =
        in_quotes ("a" ++ String dq (String dq "b"))
        ++ String (delimiter settings_) (quoted (hex_pairs (payload item))))
  /\ quoted ("a" ++ String dq "b") = in_quotes ("a" ++ String dq (String dq "b")).
Proof.
  intros Hq. split; [apply formatRecord_quoted; exact Hq |].
  split; [intros p; apply (hex_byte_lowercase p) |].
  split; [| split; [| reflexivity]].
  - intros Hd Ht Hp Hs Hpl. rewrite (formatRecord_quoted _ _ Hq).
    unfold columns. rewrite Hd, Ht, Hp, Hs, Hpl. reflexivity.
  - intros Hs Ht. rewrite (formatRecord_quoted _ _ Hq).
    unfold columns. rewrite Hs, Ht. reflexivity.
Qed.

End Format.

Lemma formatRecord_quotes_columns_witness :
  formatRecord (fun _ _ => "2024-01-01")
    (mkCsv "output.csv" "," true true 1000 "%Y-%m-%d")
    (mkItem "dev0" 0 [x41; x42] defaultFieldNames)
  = in_quotes "2024-01-01" ++ "," ++ in_quotes "dev0" ++ "," ++ in_quotes "41 42".
Proof.
  destruct (formatRecord_quotes_columns (fun _ _ => "2024-01-01")
              (mkCsv "output.csv" "," true true 1000 "%Y-%m-%d")
              (mkItem "dev0" 0 [x41; x42] defaultFieldNames) eq_refl)
    as (_ & _ & Hline & _).
  apply Hline; reflexivity.
Defined.

End CsvTheory.

(** * Further properties of the shared buffer *)

Module BufferMore.

Import Buffer.

Section WithOrder.

Variable order : byte_order.

Local Abbreviation push := (Buffer.push order).
Local Abbreviation pop := (Buffer.pop order).
Local Abbreviation tryPop := (Buffer.tryPop order).
Local Abbreviation materializeEntry := (Buffer.materializeEntry order).
Local Abbreviation after := (Buffer.after order).
Local Abbreviation reachable := (Buffer.reachable order).
Local Abbreviation call := (Buffer.call order).
Local Abbreviation run := (Buffer.run order).
Local Abbreviation contents := (Buffer.contents order).
Local Abbreviation steady := (Buffer.steady order).

(** ** What no call changes *)

Lemma after_frame (b : GlobalBuffer) (o : op) (b' : GlobalBuffer) :
  after b o = Some b' ->
  options_ b' = options_ b /\ capacity_ b' = capacity_ b
  /\ fieldNames_ b' = fieldNames_ b /\ slotSize_ b' = slotSize_ b
  /\ mappedSize_ b' = mappedSize_ b
  /\ (shutdown_ b = true -> shutdown_ b' = true)
  /\ option_map (@length byte) (mappedView_ b') = option_map (@length byte) (mappedView_ b).
Proof.
  assert (Hfront : forall e rest x,
            Buffer.state_of (Buffer.take_front order b e rest) = Some x ->
            x = set_queue b rest).
  { intros e rest x. unfold Buffer.take_front.
    destruct (Buffer.materializeEntry order _ e); simpl; congruence. }
  destruct o as [it | | |]; simpl; intros H.
  - unfold Buffer.push in H.
    repeat case_match; simpl in H; try discriminate;
      injection H as <-; simpl;
      repeat match goal with
             | E : memcpy_to _ _ _ = Some _ |- _ => apply memcpy_to_length in E
             | E : Some _ = Some _ |- _ => injection E as E
             | E : mappedView_ _ = _ |- _ => rewrite E
             end;
      repeat split; try reflexivity; try congruence; simpl; f_equal; congruence.
  - unfold Buffer.pop in H. destruct (negb _); [discriminate |].
    destruct (queue_ b) as [| e rest]; simpl in H; [inversion H; subst; auto 10 |].
    apply Hfront in H. subst. simpl. auto 10.
  - unfold Buffer.tryPop in H.
    destruct (queue_ b) as [| e rest]; simpl in H; [inversion H; subst; auto 10 |].
    apply Hfront in H. subst. simpl. auto 10.
  - inversion H; subst; simpl. auto 10.
Qed.

(** X5. No call changes the configuration of a buffer (options, capacity, field
    names, slot size, mapped size, size of the view), and no call clears the
    shutdown flag: once [shutdown()] has run, the buffer is shut down in every
    later state. *)
Theorem configuration_is_fixed (b0 b : GlobalBuffer) :
  reachable b0 b ->
  options_ b = options_ b0 /\ capacity_ b = capacity_ b0
  /\ fieldNames_ b = fieldNames_ b0 /\ slotSize_ b = slotSize_ b0
  /\ mappedSize_ b = mappedSize_ b0
  /\ (shutdown_ b0 = true -> shutdown_ b = true)
  /\ option_map (@length byte) (mappedView_ b) = option_map (@length byte) (mappedView_ b0).
Proof.
  induction 1 as [| b o b' Hr IH Hstep]; [auto 10 |].
  destruct IH as (H1 & H2 & H3 & H4 & H5 & H6 & H7).
  destruct (after_frame _ _ _ Hstep) as (G1 & G2 & G3 & G4 & G5 & G6 & G7).
  repeat split; try congruence. auto.
Qed.

(** ** Memory safety of the ring *)

Lemma reachable_ring_ok (opts : Options) (env : MappingEnv) (b0 b : GlobalBuffer) :
  GlobalBuffer_new opts env = Constructed b0 ->
  memoryMapped (options_ b0) = true ->
  geometry_fits b0 ->
  reachable b0 b ->
  ring_ok b.
Proof.
  intros Hnew Hm Hfit Hr.
  assert (H0 : steady b0 b0).
  { eapply BufferTheory.constructed_steady; eauto. }
  exact (steady_ring order _ _ (BufferTheory.reachable_steady order _ _ H0 Hr) Hm).
Qed.

Lemma queued_slot_lt (b : GlobalBuffer) (i : nat) (e : QueueEntry) :
  ring_ok b -> queue_ b !! i = Some e ->
  slotIndex e < capacity_ b /\ payloadSize e <= maxPayloadSize (options_ b).
Proof.
  intros [_ Hc _ _ _ _ (front & _ & _ & Hslots)] Hi.
  destruct (Hslots i e Hi) as [-> Hsize]. split; [| exact Hsize].
  apply N.mod_upper_bound. lia.
Qed.

Lemma materializeEntry_defined (b : GlobalBuffer) (i : nat) (e : QueueEntry) :
  ring_ok b -> queue_ b !! i = Some e -> materializeEntry b e <> OutOfBounds.
Proof.
  intros Hok Hi. destruct (queued_slot_lt b i e Hok Hi) as [Hs Hsize].
  destruct Hok as [Hm Hc HS Hfits (view & Hv & Hlen) _ _].
  destruct (BufferTheory.slot_offset _ _ _ Hs Hfits) as [Hoff Hin].
  unfold Buffer.materializeEntry. rewrite Hm, Hv, Hoff.
  destruct (negb (slotIndex e =? kInvalidSlot)); cbn [andb]; [| discriminate].
  unfold memcpy_from.
  destruct (N.leb_spec (slotIndex e * slotSize_ b + 4) (N.of_nat (length view))); [| lia].
  destruct (negb _); [discriminate |].
  destruct (0 <? payloadSize e); [| discriminate].
  destruct (N.leb_spec (slotIndex e * slotSize_ b + 4 + payloadSize e)
              (N.of_nat (length view))); [discriminate | lia].
Qed.

(** X3. Memory safety: on a buffer whose ring size fits [std::size_t] (and on every
    buffer that is not memory-mapped), no call in any reachable state reads or
    writes outside the mapped view or through a null view. *)
Theorem calls_stay_inside_the_view (opts : Options) (env : MappingEnv)
    (b0 b : GlobalBuffer) (it : BufferItem) :
  GlobalBuffer_new opts env = Constructed b0 ->
  (memoryMapped (options_ b0) = true -> geometry_fits b0) ->
  reachable b0 b ->
  push b it <> Undefined /\ pop b <> Undefined /\ tryPop b <> Undefined.
Proof.
  intros Hnew Hfit Hr.
  assert (Ho : options_ b = options_ b0).
  { assert (H0 : steady b0 b0) by (eapply BufferTheory.constructed_steady; eauto).
    exact (steady_options order _ _ (BufferTheory.reachable_steady order _ _ H0 Hr)). }
  assert (Htry : tryPop b <> Undefined).
  { unfold Buffer.tryPop, Buffer.take_front.
    destruct (queue_ b) as [| e rest] eqn:Hq; [discriminate |].
    rewrite BufferTheory.materializeEntry_set_queue.
    destruct (memoryMapped (options_ b0)) eqn:Hm.
    - pose proof (reachable_ring_ok _ _ _ _ Hnew Hm (Hfit eq_refl) Hr) as Hok.
      pose proof (materializeEntry_defined b 0 e Hok ltac:(rewrite Hq; reflexivity)).
      destruct (Buffer.materializeEntry order b e); congruence.
    - rewrite BufferTheory.materializeEntry_heap by congruence. discriminate. }
  split; [| split; [| exact Htry]].
  - destruct (push b it) as [b' u | b' e | |] eqn:Hp; try discriminate.
    exfalso.
    destruct (memoryMapped (options_ b0)) eqn:Hm.
    + pose proof (reachable_ring_ok _ _ _ _ Hnew Hm (Hfit eq_refl) Hr) as Hok.
      destruct (ring_view b Hok) as (view & Hv & _).
      destruct (shutdown_ b) eqn:Hs.
      { rewrite BufferTheory.push_after_shutdown in Hp by assumption. discriminate. }
      destruct (N.ltb_spec (N.of_nat (length (queue_ b))) (capacity_ b)) as [Hlt | Hge].
      * destruct (N.le_gt_cases (N.of_nat (length (payload it)))
                    (maxPayloadSize (options_ b))) as [Hle | Hgt].
        -- rewrite (BufferTheory.push_mapped order b it view Hok Hs Hlt Hv Hle) in Hp.
           discriminate.
        -- rewrite (BufferTheory.push_admitted_mapped order b it) in Hp
             by (try assumption; congruence).
           rewrite Hv in Hp.
           destruct (N.ltb_spec (maxPayloadSize (options_ b))
                       (N.of_nat (length (payload it)))); [discriminate | lia].
      * unfold Buffer.push in Hp. rewrite Hs in Hp. simpl orb in Hp.
        destruct (N.ltb_spec (N.of_nat (length (queue_ b))) (capacity_ b)); [lia |].
        discriminate.
    + unfold Buffer.push in Hp. rewrite Ho, Hm in Hp.
      repeat case_match; discriminate.
  - unfold Buffer.pop. destruct (negb _); [discriminate |].
    unfold Buffer.tryPop in Htry. exact Htry.
Qed.

(** ** Slots of queued entries *)

(** X4. In memory-mapped mode the queued entries occupy pairwise distinct slots
    inside the ring, and as long as the queue is not full the slot under the
    write cursor belongs to none of them: [push] never overwrites the slot of
    an entry that is still queued. *)
Theorem queued_slots_are_distinct (opts : Options) (env : MappingEnv)
    (b0 b : GlobalBuffer) :
  GlobalBuffer_new opts env = Constructed b0 ->
  memoryMapped (options_ b0) = true ->
  geometry_fits b0 ->
  reachable b0 b ->
  writeIndex_ b < capacity_ b
  /\ (forall i e, queue_ b !! i = Some e ->
        slotIndex e < capacity_ b
        /\ (N.of_nat (length (queue_ b)) < capacity_ b -> slotIndex e <> writeIndex_ b))
  /\ (forall i j ei ej, queue_ b !! i = Some ei -> queue_ b !! j = Some ej ->
        i <> j -> slotIndex ei <> slotIndex ej).
Proof.
  intros Hnew Hm Hfit Hr.
  pose proof (reachable_ring_ok _ _ _ _ Hnew Hm Hfit Hr) as Hok.
  split; [apply BufferTheory.ring_write_lt; exact Hok |].
  pose proof Hok as [_ Hc _ _ _ Hle (front & Hf & Hwi & Hslots)].
  split.
  - intros i e Hi. split; [exact (proj1 (queued_slot_lt b i e Hok Hi)) |].
    intros Hlt. destruct (Hslots i e Hi) as [-> _].
    pose proof (lookup_lt_Some _ _ _ Hi) as Hilt.
    rewrite Hwi. rewrite !BufferTheory.mod_lt_twice by lia.
    repeat match goal with
           | |- context [if ?a <? ?c then _ else _] => destruct (N.ltb_spec a c)
           end; lia.
  - intros i j ei ej Hi Hj Hne.
    destruct (Hslots i ei Hi) as [-> _]. destruct (Hslots j ej Hj) as [-> _].
    pose proof (lookup_lt_Some _ _ _ Hi) as Hilt.
    pose proof (lookup_lt_Some _ _ _ Hj) as Hjlt.
    rewrite !BufferTheory.mod_lt_twice by lia.
    repeat match goal with
           | |- context [if ?a <? ?c then _ else _] => destruct (N.ltb_spec a c)
           end; lia.
Qed.

(** ** First in, first out *)

Lemma call_after (b : GlobalBuffer) (o : op) (b' : GlobalBuffer) (r : reply) :
  call b o = Some (b', r) -> after b o = Some b'.
Proof.
  destruct o as [it | | |]; simpl.
  - destruct (push b it); simpl; congruence.
  - destruct (pop b) as [? [?|] | | |]; simpl; congruence.
  - destruct (tryPop b) as [? [?|] | | |]; simpl; congruence.
  - congruence.
Qed.

(** One call, seen from the items: what was queued, followed by what the call
    enqueued, is what the call handed out followed by what is queued now. *)
Lemma call_history (b0 b : GlobalBuffer) (items : list BufferItem) (o : op)
    (b' : GlobalBuffer) (r : reply) :
  steady b0 b ->
  (memoryMapped (options_ b0) = true -> prefix_fits b0) ->
  contents b = map Value items ->
  call b o = Some (b', r) ->
  exists items',
    contents b' = map Value items'
    /\ shutdown_ b' = match o with OpShutdown => true | _ => shutdown_ b end
    /\ (items ++ enqueued (fieldNames_ b0) (shutdown_ b) [o] [r] = popped [r] ++ items')%list.
Proof.
  intros Hst Hpre Hc Hcall.
  destruct Hst as [Ho Hcap Hn Hring _].
  destruct o as [it | | |].
  - assert (Hr : memoryMapped (options_ b) = true -> ring_ok b) by (rewrite Ho; exact Hring).
    pose proof (call_after _ _ _ _ Hcall) as Hafter. simpl in Hafter.
    destruct (BufferTheory.push_outcomes order b it b' Hr Hafter)
      as [(Hs & Hp & ->) | [(Hs & _ & _ & Hp & ->) |
          (Hs & _ & Hp & _ & _ & _ & Hs' & _ & Hc')]];
      simpl in Hcall; rewrite Hp in Hcall; inversion Hcall; subst r.
    + exists items. rewrite Hs. simpl. rewrite app_nil_r. auto.
    + exists items. rewrite Hs. simpl. rewrite app_nil_r. auto.
    + exists (items ++ [set_fieldNames it (fieldNames_ b0)])%list.
      rewrite Hs', Hs. simpl. split; [| auto].
      rewrite Hc', Hc, map_app. f_equal. cbn [map]. rewrite <- Hn.
      destruct (memoryMapped (options_ b)) eqn:Hm; [| reflexivity].
      unfold stored.
      destruct (N.ltb_spec (N.of_nat (length (payload it))) (2 ^ 32)) as [| Hbig];
        [reflexivity | exfalso].
      (* an accepted payload is within the maximum, which is below 2 ^ 32 *)
      assert (Hp32 : maxPayloadSize (options_ b) < 2 ^ 32).
      { rewrite Ho. apply Hpre. congruence. }
      destruct (ring_view b (Hr eq_refl)) as (view & Hv & _).
      unfold Buffer.push in Hp. rewrite Hs, Hm, Hv in Hp. simpl orb in Hp.
      destruct (N.of_nat (length (queue_ b)) <? capacity_ b); [| discriminate].
      cbn [negb payload set_fieldNames] in Hp.
      destruct (N.ltb_spec (maxPayloadSize (options_ b))
                  (N.of_nat (length (payload it)))); [discriminate | lia].
  - assert (Hpop : tryPop b = pop b \/ pop b = Blocks).
    { unfold Buffer.pop, Buffer.tryPop. destruct (negb _); auto. }
    destruct Hpop as [Hpop | Hpop]; [| simpl in Hcall; rewrite Hpop in Hcall; discriminate].
    simpl in Hcall. rewrite <- Hpop in Hcall. unfold Buffer.contents in Hc.
    destruct (queue_ b) as [| e rest] eqn:Hq; destruct items as [| it items'];
      simpl in Hc; try discriminate.
    + rewrite BufferTheory.tryPop_empty in Hcall by assumption. inversion Hcall; subst.
      exists []. unfold Buffer.contents. rewrite Hq. auto.
    + inversion Hc as [[Hm Hrest]].
      rewrite (BufferTheory.tryPop_front order b e rest it Hq Hm) in Hcall.
      inversion Hcall; subst. exists items'.
      rewrite BufferTheory.contents_set_queue. simpl. rewrite app_nil_r. auto.
  - simpl in Hcall. unfold Buffer.contents in Hc.
    destruct (queue_ b) as [| e rest] eqn:Hq; destruct items as [| it items'];
      simpl in Hc; try discriminate.
    + rewrite BufferTheory.tryPop_empty in Hcall by assumption. inversion Hcall; subst.
      exists []. unfold Buffer.contents. rewrite Hq. auto.
    + inversion Hc as [[Hm Hrest]].
      rewrite (BufferTheory.tryPop_front order b e rest it Hq Hm) in Hcall.
      inversion Hcall; subst. exists items'.
      rewrite BufferTheory.contents_set_queue. simpl. rewrite app_nil_r. auto.
  - simpl in Hcall. inversion Hcall; subst. exists items.
    simpl. rewrite app_nil_r. auto.
Qed.

Lemma enqueued_cons (names : FieldNames) (down : bool) (o : op) (r : reply)
    (os : list op) (rs : list reply) :
  enqueued names down (o :: os) (r :: rs) =
  (enqueued names down [o] [r]
   ++ enqueued names (match o with OpShutdown => true | _ => down end) os rs)%list.
Proof.
  destruct o, r; simpl; rewrite ?app_nil_r; try reflexivity;
    destruct down; reflexivity.
Qed.

Lemma popped_cons (r : reply) (rs : list reply) :
  popped (r :: rs) = (popped [r] ++ popped rs)%list.
Proof. destruct r; reflexivity. Qed.

Lemma run_history (os : list op) :
  forall (b0 b : GlobalBuffer) (items : list BufferItem) (b' : GlobalBuffer)
         (rs : list reply),
    steady b0 b ->
    (memoryMapped (options_ b0) = true -> prefix_fits b0) ->
    contents b = map Value items ->
    run b os = Some (b', rs) ->
    exists items',
      contents b' = map Value items'
      /\ (items ++ enqueued (fieldNames_ b0) (shutdown_ b) os rs = popped rs ++ items')%list.
Proof.
  induction os as [| o os IH]; intros b0 b items b' rs Hst Hpre Hc Hrun.
  - simpl in Hrun. inversion Hrun; subst. exists items. simpl.
    rewrite app_nil_r. auto.
  - simpl in Hrun. destruct (call b o) as [[b1 r] |] eqn:Hcall; [| discriminate].
    destruct (run b1 os) as [[b2 rs'] |] eqn:Hrun'; [| discriminate].
    inversion Hrun; subst b' rs. clear Hrun.
    destruct (call_history b0 b items o b1 r Hst Hpre Hc Hcall)
      as (items1 & Hc1 & Hs1 & Hstep).
    assert (Hst1 : steady b0 b1).
    { eapply BufferTheory.after_steady; [exact Hst | eapply call_after; eauto]. }
    destruct (IH b0 b1 items1 b2 rs' Hst1 Hpre Hc1 Hrun') as (items2 & Hc2 & Hrest).
    exists items2. split; [exact Hc2 |].
    rewrite enqueued_cons, popped_cons, <- Hs1.
    rewrite app_assoc, Hstep, <- !app_assoc. f_equal. exact Hrest.
Qed.

(** X1. First in, first out, nothing lost and nothing duplicated: after any
    sequence of completed calls on a freshly constructed buffer (not
    memory-mapped, or memory-mapped with a ring size that fits [std::size_t]
    and a maximum payload size below [2 ^ 32]), the items handed out so far
    followed by the items still queued are exactly the items of the pushes
    that returned before the first [shutdown()], in the order of the pushes,
    each with its payload unchanged and with the field names of the buffer. *)
Theorem first_in_first_out (opts : Options) (env : MappingEnv) (b0 b : GlobalBuffer)
    (os : list op) (rs : list reply) :
  GlobalBuffer_new opts env = Constructed b0 ->
  (memoryMapped (options_ b0) = true -> geometry_fits b0 /\ prefix_fits b0) ->
  run b0 os = Some (b, rs) ->
  exists queued,
    contents b = map Value queued
    /\ enqueued (fieldNames_ b0) false os rs = (popped rs ++ queued)%list.
Proof.
  intros Hnew Hfit Hrun.
  assert (H0 : steady b0 b0).
  { eapply BufferTheory.constructed_steady; [exact Hnew |]. intros Hm. apply Hfit, Hm. }
  destruct (BufferTheory.constructed_empty _ _ _ Hnew) as (Hq & Hs & _).
  destruct (run_history os b0 b0 [] b rs H0) as (queued & Hc & Hh).
  - intros Hm. apply Hfit, Hm.
  - unfold Buffer.contents. rewrite Hq. reflexivity.
  - exact Hrun.
  - exists queued. split; [exact Hc |]. rewrite Hs in Hh. exact Hh.
Qed.

(** ** Normalised options *)

(** X6. [normalizeOptions] yields options the constructor's checks accept (capacity
    and maximum payload size positive, no empty field name, a backing file
    name in memory-mapped mode), changes nothing in options that already are
    of that kind, and so is idempotent. *)
Theorem normalizeOptions_normalises (o : Options) :
  let n := normalizeOptions o in
  0 < capacity n
  /\ 0 < maxPayloadSize n
  /\ string_empty (fn_source (opt_fieldNames n)) = false
  /\ string_empty (fn_timestamp (opt_fieldNames n)) = false
  /\ string_empty (fn_payload (opt_fieldNames n)) = false
  /\ (memoryMapped n = true -> string_empty (backingFile n) = false)
  /\ memoryMapped n = memoryMapped o
  /\ normalizeOptions n = n
  /\ (0 < capacity o -> 0 < maxPayloadSize o ->
      string_empty (fn_source (opt_fieldNames o)) = false ->
      string_empty (fn_timestamp (opt_fieldNames o)) = false ->
      string_empty (fn_payload (opt_fieldNames o)) = false ->
      (memoryMapped o = true -> string_empty (backingFile o) = false) ->
      n = o).
Proof.
  destruct o as [cap mm file mps [src ts pl]]. unfold normalizeOptions. cbn -[N.ltb N.eqb].
  destruct (N.eqb_spec cap 0) as [-> | Hcap];
    destruct (N.eqb_spec mps 0) as [-> | Hmps];
    destruct mm; destruct file as [| c0 file]; destruct src as [| c1 src];
    destruct ts as [| c2 ts]; destruct pl as [| c3 pl]; cbn;
    repeat split; try lia; try reflexivity; try discriminate;
    intros; try lia; try discriminate;
    repeat match goal with
           | H : true = true -> _ |- _ => specialize (H eq_refl)
           end; try discriminate; try lia;
    repeat match goal with
           | |- context [N.eqb ?x 0] => destruct (N.eqb_spec x 0); try lia
           end; reflexivity.
Qed.

End WithOrder.

Lemma configuration_is_fixed_witness :
  options_ ex_history_end = options_ ex_ring /\ capacity_ ex_history_end = 2.
Proof.
  assert (Hr : reachable LittleEndian ex_ring ex_history_end).
  { eapply reach_step with (o := OpPush (ex_item [x41; x42])).
    - eapply reach_step with (o := OpPop).
      + eapply reach_step with (o := OpPush (ex_item [x61])).
        * apply reach_init.
        * reflexivity.
      + reflexivity.
    - reflexivity. }
  destruct (configuration_is_fixed LittleEndian ex_ring ex_history_end Hr)
    as (Ho & Hc & _).
  split; [exact Ho | exact Hc].
Defined.

Lemma calls_stay_inside_the_view_witness :
  push LittleEndian ex_ring_one (ex_item [x61; x62; x63; x64]) <> Undefined
  /\ pop LittleEndian ex_ring_one <> Undefined
  /\ tryPop LittleEndian ex_ring_one <> Undefined.
Proof.
  apply (calls_stay_inside_the_view LittleEndian ex_ring_options (Mapped []) ex_ring).
  - reflexivity.
  - intros _. unfold geometry_fits. simpl. lia.
  - exact BufferTheory.ex_ring_one_reachable.
Defined.

Lemma queued_slots_are_distinct_witness :
  writeIndex_ ex_ring_one < capacity_ ex_ring_one.
Proof.
  refine (proj1 (queued_slots_are_distinct LittleEndian ex_ring_options (Mapped [])
                   ex_ring ex_ring_one _ _ _ _)).
  - reflexivity.
  - reflexivity.
  - unfold geometry_fits. simpl. lia.
  - exact BufferTheory.ex_ring_one_reachable.
Defined.

Lemma reachable_intact_witness :
  exists items, contents LittleEndian ex_ring_one = map Value items.
Proof.
  apply (BufferTheory.reachable_intact LittleEndian ex_ring_options (Mapped []) ex_ring).
  - reflexivity.
  - intros _. unfold geometry_fits, prefix_fits. simpl. lia.
  - exact BufferTheory.ex_ring_one_reachable.
Defined.

Lemma first_in_first_out_witness :
  exists queued,
    contents LittleEndian ex_history_end = map Value queued
    /\ enqueued (fieldNames_ ex_ring) false ex_history
         [Pushed; Popped (ex_item [x61]); Pushed]
       = (popped [Pushed; Popped (ex_item [x61]); Pushed] ++ queued)%list.
Proof.
  apply (first_in_first_out LittleEndian ex_ring_options (Mapped []) ex_ring).
  - reflexivity.
  - intros _. unfold geometry_fits, prefix_fits. simpl. lia.
  - vm_compute. reflexivity.
Defined.

End BufferMore.

(** * Further properties of the record formatting *)

Module CsvMore.

Import Buffer Csv.

Local Open Scope string_scope.

Lemma escape_then_quote (c c' r r' : string) :
  escape c ++ String dq r = escape c' ++ String dq r' ->
  no_quote_ahead r -> no_quote_ahead r' ->
  c = c' /\ r = r'.
Proof.
  revert c'. induction c as [| ch t IH]; intros c' H Hr Hr'.
  - destruct c' as [| ch' t']; simpl in H.
    + inversion H. auto.
    + exfalso. destruct (Ascii.eqb_spec ch' dq) as [-> | Hne]; simpl in H.
      * inversion H as [Hrest]. subst r. simpl in Hr. contradiction.
      * inversion H. congruence.
  - destruct c' as [| ch' t']; simpl in H.
    + exfalso. destruct (Ascii.eqb_spec ch dq) as [-> | Hne]; simpl in H.
      * inversion H as [Hrest]. subst r'. simpl in Hr'. contradiction.
      * inversion H. congruence.
    + destruct (Ascii.eqb_spec ch dq) as [-> | Hne];
        destruct (Ascii.eqb_spec ch' dq) as [-> | Hne']; simpl in H;
        inversion H; subst; try congruence.
      * destruct (IH t' ltac:(assumption) Hr Hr') as [-> ->]. auto.
      * destruct (IH t' ltac:(assumption) Hr Hr') as [-> ->]. auto.
Qed.

(** X7. [escape] loses nothing: two values with the same escaped text are the same
    value. *)
Theorem escape_injective (value value' : string) :
  escape value = escape value' -> value = value'.
Proof.
  intros H.
  apply (escape_then_quote value value' EmptyString EmptyString); simpl; auto.
  rewrite H. reflexivity.
Qed.

Lemma escape_injective_witness :
  "a" ++ String dq "b" = "a" ++ String dq "b".
Proof. apply (escape_injective ("a" ++ String dq "b") ("a" ++ String dq "b")). reflexivity. Defined.

(** ** The payload column *)

Lemma hex_byte_digits (b : byte) :
  exists hi lo,
    hex_byte b = String hi (String lo EmptyString)
    /\ (16 * hex_value hi + hex_value lo = Byte.to_N b)%N
    /\ hi <> dq /\ lo <> dq /\ hi <> " "%char /\ lo <> " "%char.
Proof.
  destruct b; vm_compute; eexists; eexists;
    (split; [reflexivity |]); (split; [reflexivity |]); repeat split; discriminate.
Qed.

Lemma hex_byte_injective (b b' : byte) : hex_byte b = hex_byte b' -> b = b'.
Proof.
  intros H.
  destruct (hex_byte_digits b) as (hi & lo & Hb & Hv & _).
  destruct (hex_byte_digits b') as (hi' & lo' & Hb' & Hv' & _).
  rewrite Hb, Hb' in H. inversion H; subst.
  assert (Heq : Byte.to_N b = Byte.to_N b') by congruence.
  pose proof (Byte.of_to_N b) as H1. pose proof (Byte.of_to_N b') as H2.
  rewrite Heq in H1. congruence.
Qed.

Lemma hex_text_injective (p p' : bytes) :
  hex_payload p = hex_payload p' -> p = p'.
Proof.
  revert p'. induction p as [| b rest IH]; intros p' H.
  - destruct p' as [| b' rest']; [reflexivity |].
    destruct (hex_byte_digits b') as (hi & lo & Hb & _).
    simpl in H. rewrite Hb in H. discriminate.
  - destruct p' as [| b' rest'].
    + destruct (hex_byte_digits b) as (hi & lo & Hb & _).
      simpl in H. rewrite Hb in H. discriminate.
    + destruct (hex_byte_digits b) as (hi & lo & Hb & _).
      destruct (hex_byte_digits b') as (hi' & lo' & Hb' & _).
      cbn [hex_payload] in H. pose proof H as H'. rewrite Hb, Hb' in H'.
      cbn [append] in H'. injection H' as Hhi Hlo Hrest.
      assert (b = b') by (apply hex_byte_injective; congruence). subst b'.
      f_equal. apply IH.
      destruct rest as [| b1 rest1]; destruct rest' as [| b1' rest1'];
        cbn [append] in Hrest |- *.
      * reflexivity.
      * destruct (hex_byte_digits b1') as (? & ? & Hx & _).
        cbn [hex_payload] in Hrest. discriminate.
      * cbn [hex_payload] in Hrest. discriminate.
      * injection Hrest as Hrest. exact Hrest.
Qed.

(** X8. The hex text of a payload of [n] bytes has [3 * n - 1] characters (none for
    the empty payload), holds no double quote, so that quoting never changes
    the payload column, and determines the payload: two payloads with the
    same hex text are the same bytes. *)
Theorem hex_payload_shape (p : bytes) :
  (String.length (hex_payload p) = (3 * length p - 1)%nat
   /\ escape (hex_payload p) = hex_payload p)
  /\ forall p', hex_payload p = hex_payload p' -> p = p'.
Proof.
  split; [| intros p'; apply hex_text_injective].
  induction p as [| b rest [IHlen IHesc]]; [split; reflexivity |].
  destruct (hex_byte_digits b) as (hi & lo & Hb & _ & Hhi & Hlo & _).
  cbn [hex_payload]. rewrite Hb. cbn [append String.length escape].
  destruct (Ascii.eqb_spec hi dq); [contradiction |].
  destruct (Ascii.eqb_spec lo dq); [contradiction |].
  destruct rest as [| b1 rest1].
  - split; reflexivity.
  - cbn [append String.length escape length] in *.
    change (Ascii.eqb " " dq) with false. cbn iota.
    rewrite IHesc, IHlen. split; [lia | reflexivity].
Qed.

Section Format.

Variable put_time : Z -> string -> string.

(** X9. Without quoting, [formatRecord] writes the columns as they are, joined
    with the delimiter: nothing is escaped, not even a delimiter inside the
    source. *)
Theorem formatRecord_unquoted (settings_ : CsvSettings) (item : BufferItem) :
  quoteStrings settings_ = false ->
  formatRecord put_time settings_ item =
    String.concat (String (delimiter settings_) EmptyString)
                  (columns put_time settings_ item).
Proof.
  intros Hq. unfold formatRecord, columns, appendColumn.
  rewrite Hq, CsvTheory.hex_payload_pairs.
  destruct (includeTimestamp settings_); simpl;
    rewrite ?CsvTheory.append_assoc; simpl; rewrite ?CsvTheory.append_assoc; reflexivity.
Qed.

Lemma quoted_column_ahead (c c' r r' : string) :
  String dq (escape c ++ String dq r) = String dq (escape c' ++ String dq r') ->
  no_quote_ahead r -> no_quote_ahead r' -> c = c' /\ r = r'.
Proof.
  intros H. injection H as H. apply escape_then_quote. exact H.
Qed.

(** X10. With quoting, and a delimiter that is not the double quote, a line
    determines its columns: two records that format to the same line under
    the same settings have the same source, the same payload and the same
    formatted timestamp. *)
Theorem quoted_line_determines_record (settings_ : CsvSettings) (item item' : BufferItem) :
  quoteStrings settings_ = true ->
  delimiter settings_ <> dq ->
  formatRecord put_time settings_ item = formatRecord put_time settings_ item' ->
  source item = source item'
  /\ payload item = payload item'
  /\ (includeTimestamp settings_ = true ->
      put_time (timestamp item) (timestampFormat settings_)
      = put_time (timestamp item') (timestampFormat settings_)).
Proof.
  intros Hq Hd. unfold formatRecord, appendColumn. rewrite Hq.
  assert (Htail : forall v w v' w' : string,
            escape v ++ String dq
              (String (delimiter settings_) (String dq (escape w ++ String dq EmptyString)))
            = escape v' ++ String dq
              (String (delimiter settings_) (String dq (escape w' ++ String dq EmptyString))) ->
            v = v' /\ w = w').
  { intros v w v' w' H.
    apply escape_then_quote in H as [-> H]; [| exact Hd | exact Hd].
    injection H as H. apply escape_then_quote in H as [-> _]; simpl; auto. }
  destruct (includeTimestamp settings_); cbn [negb fst snd append];
    rewrite ?CsvTheory.append_assoc; cbn [append]; rewrite ?CsvTheory.append_assoc;
    cbn [append]; intros H.
  - apply quoted_column_ahead in H as [Hts H]; [| exact Hd | exact Hd].
    injection H as H. apply Htail in H as [Hs Hp].
    split; [exact Hs |]. split; [apply hex_text_injective; exact Hp | auto].
  - injection H as H. apply Htail in H as [Hs Hp].
    split; [exact Hs |]. split; [apply hex_text_injective; exact Hp |].
    intros; discriminate.
Qed.

End Format.

Lemma formatRecord_unquoted_witness :
  formatRecord (fun _ _ => "2024-01-01")
    (mkCsv "output.csv" ";" false true 1000 "%Y-%m-%d")
    (mkItem "a;b" 0 [x41; x42] defaultFieldNames)
  = "2024-01-01;a;b;41 42".
Proof.
  apply (formatRecord_unquoted (fun _ _ => "2024-01-01")
           (mkCsv "output.csv" ";" false true 1000 "%Y-%m-%d")
           (mkItem "a;b" 0 [x41; x42] defaultFieldNames)).
  reflexivity.
Defined.

Lemma quoted_line_determines_record_witness :
  source (mkItem "dev0" 0 [x41; x42] defaultFieldNames)
  = source (mkItem "dev0" 7 [x41; x42] defaultFieldNames).
Proof.
  refine (proj1 (quoted_line_determines_record (fun _ _ => "2024-01-01")
                   (mkCsv "output.csv" "," true true 1000 "%Y-%m-%d")
                   (mkItem "dev0" 0 [x41; x42] defaultFieldNames)
                   (mkItem "dev0" 7 [x41; x42] defaultFieldNames) eq_refl _ eq_refl)).
  discriminate.
Defined.

End CsvMore.

(** * Properties of the consumer *)

Module WriterTheory.

Import Buffer Csv Writer.

Local Open Scope string_scope.

Section Run.

Variable order : byte_order.
Variable put_time : Z -> string -> string.
Variable now : nat -> Z.

Local Abbreviation run_loop := (Writer.run_loop order put_time now).
Local Abbreviation stop := (Writer.stop order put_time now).
Local Abbreviation lines := (Writer.lines put_time).
Local Abbreviation contents := (Buffer.contents order).

Lemma pop_front_value (b : GlobalBuffer) (e : QueueEntry) (rest : list QueueEntry)
    (it : BufferItem) :
  queue_ b = e :: rest -> Buffer.materializeEntry order b e = Value it ->
  Buffer.pop order b = Returns (set_queue b rest) (Some it).
Proof.
  intros Hq Hm. rewrite (BufferTheory.pop_front order b e rest Hq).
  exact (BufferTheory.tryPop_front order b e rest it Hq Hm).
Qed.

Lemma pop_empty (b : GlobalBuffer) :
  queue_ b = [] ->
  Buffer.pop order b = if shutdown_ b then Returns b None else Blocks.
Proof.
  intros Hq. unfold Buffer.pop. rewrite Hq. simpl.
  destruct (shutdown_ b); reflexivity.
Qed.

Lemma written_insert (w : CsvWriter) (text : string) :
  is_open (output_ w) = true ->
  written (set_output w (insert (output_ w) text)) = written w ++ text.
Proof.
  intros Ho. unfold written, insert. rewrite Ho. simpl.
  symmetry. apply CsvTheory.append_assoc.
Qed.

Lemma written_flush (w : CsvWriter) :
  written (set_output w (flush (output_ w))) = written w.
Proof.
  unfold written, flush. destruct (is_open (output_ w)); [| reflexivity].
  simpl. apply CsvTheory.append_nil_r.
Qed.

(** X11. One line per record, in order. Over any stretch of the loop of [run] on a
    writer whose stream is open and a buffer whose queued entries all pass
    the stored-length check, the text handed to the stream grows by exactly
    the lines of the first [k] queued records, which are the ones taken out
    of the buffer; no exception leaves the loop; the loop exits only when
    [running_] is false and the buffer is shut down and empty, and it waits
    only on an empty buffer that is not shut down. With a flush interval of
    zero nothing stays unflushed. *)
Theorem run_writes_one_line_per_record (fuel : nat) :
  forall (w : CsvWriter) (l : loop_state) (b : GlobalBuffer) (items : list BufferItem),
    contents b = map Value items ->
    is_open (output_ w) = true ->
    exists (k : nat) (e : loop_end) (w' : CsvWriter) (b' : GlobalBuffer),
      run_loop fuel w l b = (e, w', b')
      /\ (k <= length items)%nat
      /\ written w' = written w ++ lines (settings_ w) (take k items)
      /\ contents b' = map Value (drop k items)
      /\ is_open (output_ w') = true
      /\ (flushInterval (settings_ w) = 0%Z -> pending (output_ w) = EmptyString ->
          pending (output_ w') = EmptyString)
      /\ match e with
         | Exits => running_ w = false /\ shutdown_ b = true /\ k = length items
         | Waits => shutdown_ b = false /\ k = length items
         | Goes_on => True
         | Escapes _ => False
         | Undefined_read => False
         end.
Proof.
  induction fuel as [| fuel IH]; intros w l b items Hc Ho.
  - exists 0%nat, Goes_on, (set_worker w (Some l)), b. simpl.
    rewrite ?take_0, ?drop_0. unfold written. simpl. rewrite CsvTheory.append_nil_r.
    repeat split; auto; lia.
  - unfold Buffer.contents in Hc.
    destruct (queue_ b) as [| en rest] eqn:Hq; destruct items as [| it items'];
      simpl in Hc; try discriminate.
    + (* nothing queued *)
      cbn [Writer.run_loop]. rewrite (pop_empty b Hq).
      destruct (shutdown_ b) eqn:Hs.
      * destruct (running_ w) eqn:Hr; cbn [negb].
        -- destruct (IH w l b [] ltac:(unfold Buffer.contents; rewrite Hq; reflexivity) Ho)
             as (k & e & w' & b' & Hrun & Hk & Hw & Hc' & Ho' & Hf & He).
           exists k, e, w', b'. rewrite Hrun. repeat split; auto.
           destruct e; auto; destruct He as (? & _); congruence.
        -- exists 0%nat, Exits, (set_worker w (Some l)), b. simpl.
           unfold written, Buffer.contents. simpl. rewrite CsvTheory.append_nil_r, Hq.
           repeat split; auto.
      * exists 0%nat, Waits, (set_worker w (Some l)), b. simpl.
        unfold written, Buffer.contents. simpl. rewrite CsvTheory.append_nil_r, Hq.
        repeat split; auto.
    + (* the front entry is taken out and written *)
      inversion Hc as [[Hm Hrest]].
      cbn [Writer.run_loop]. rewrite (pop_front_value b en rest it Hq Hm).
      set (text := formatRecord put_time (settings_ w) it ++ String "010" EmptyString).
      set (w1 := set_output w (insert (output_ w) text)).
      assert (Hw1 : written w1 = written w ++ text) by (apply written_insert; exact Ho).
      assert (Ho1 : is_open (output_ w1) = true).
      { unfold w1, insert. rewrite Ho. reflexivity. }
      assert (Hc1 : contents (set_queue b rest) = map Value items').
      { rewrite BufferTheory.contents_set_queue. exact Hrest. }
      assert (Hflushed : is_open (output_ (set_output w1 (flush (output_ w1)))) = true
                         /\ pending (output_ (set_output w1 (flush (output_ w1)))) = EmptyString).
      { unfold flush. rewrite Ho1. split; reflexivity. }
      assert (Hnext : forall w2 l2,
                settings_ w2 = settings_ w -> running_ w2 = running_ w ->
                written w2 = written w ++ text ->
                is_open (output_ w2) = true ->
                (flushInterval (settings_ w) = 0%Z -> pending (output_ w2) = EmptyString) ->
                exists k e w' b',
                  run_loop fuel w2 l2 (set_queue b rest) = (e, w', b')
                  /\ (k <= length (it :: items'))%nat
                  /\ written w' = written w ++ lines (settings_ w) (take k (it :: items'))
                  /\ contents b' = map Value (drop k (it :: items'))
                  /\ is_open (output_ w') = true
                  /\ (flushInterval (settings_ w) = 0%Z -> pending (output_ w) = EmptyString ->
                      pending (output_ w') = EmptyString)
                  /\ match e with
                     | Exits => running_ w = false /\ shutdown_ b = true
                                /\ k = length (it :: items')
                     | Waits => shutdown_ b = false /\ k = length (it :: items')
                     | Goes_on => True
                     | Escapes _ => False
                     | Undefined_read => False
                     end).
      { intros w2 l2 Hset Hrun2 Hw2 Ho2 Hp2.
        destruct (IH w2 l2 (set_queue b rest) items' Hc1 Ho2)
          as (k & e & w' & b' & Hrun & Hk & Hw & Hc' & Ho' & Hf & He).
        exists (S k), e, w', b'. rewrite Hrun. split; [reflexivity |].
        split; [simpl; lia |]. split.
        { rewrite Hw, Hw2, Hset. cbn [take Writer.lines]. fold text.
          apply CsvTheory.append_assoc. }
        split; [exact Hc' |]. split; [exact Ho' |]. split.
        { intros Hz _. apply Hf; [rewrite Hset; exact Hz | apply Hp2; exact Hz]. }
        rewrite Hrun2 in He. destruct e; auto; cbn [length];
          destruct He as (? & ? & ?) || destruct He as (? & ?); auto. }
      destruct (Z.eqb_spec (flushInterval (settings_ w)) 0) as [Hz | Hnz].
      * apply Hnext; try reflexivity; [rewrite written_flush; exact Hw1 | apply Hflushed |].
        intros _. apply Hflushed.
      * destruct (nextFlush l <=? now (ticks l))%Z.
        -- apply Hnext; try reflexivity;
             [rewrite written_flush; exact Hw1 | apply Hflushed | contradiction].
        -- apply Hnext; try reflexivity; [exact Hw1 | exact Ho1 | contradiction].
Qed.

Lemma drain_loop (items : list BufferItem) :
  forall (fuel : nat) (w : CsvWriter) (l : loop_state) (b : GlobalBuffer),
    running_ w = false ->
    shutdown_ b = true ->
    contents b = map Value items ->
    is_open (output_ w) = true ->
    (length items < fuel)%nat ->
    exists w',
      run_loop fuel w l b = (Exits, w', set_queue b [])
      /\ written w' = written w ++ lines (settings_ w) items
      /\ settings_ w' = settings_ w /\ running_ w' = false
      /\ is_open (output_ w') = true.
Proof.
  induction items as [| it items IH]; intros fuel w l b Hr Hs Hc Ho Hfuel;
    (destruct fuel as [| fuel]; [simpl in Hfuel; lia |]);
    unfold Buffer.contents in Hc.
  - destruct (queue_ b) as [| en rest] eqn:Hq; [| discriminate].
    cbn [Writer.run_loop]. rewrite (pop_empty b Hq), Hs, Hr. cbn [negb].
    exists (set_worker w (Some l)). unfold written. simpl.
    rewrite CsvTheory.append_nil_r. repeat split; auto.
    destruct b; simpl in *; subst; reflexivity.
  - destruct (queue_ b) as [| en rest] eqn:Hq; [discriminate |].
    simpl in Hc. inversion Hc as [[Hm Hrest]].
    cbn [Writer.run_loop]. rewrite (pop_front_value b en rest it Hq Hm).
    set (text := formatRecord put_time (settings_ w) it ++ String "010" EmptyString).
    set (w1 := set_output w (insert (output_ w) text)).
    assert (Hw1 : written w1 = written w ++ text) by (apply written_insert; exact Ho).
    assert (Ho1 : is_open (output_ w1) = true).
    { unfold w1, insert. rewrite Ho. reflexivity. }
    assert (Hnext : forall w2 l2,
              settings_ w2 = settings_ w -> running_ w2 = false ->
              written w2 = written w ++ text -> is_open (output_ w2) = true ->
              exists w',
                run_loop fuel w2 l2 (set_queue b rest) = (Exits, w', set_queue b [])
                /\ written w' = written w ++ lines (settings_ w) (it :: items)
                /\ settings_ w' = settings_ w /\ running_ w' = false
                /\ is_open (output_ w') = true).
    { intros w2 l2 Hset Hr2 Hw2 Ho2.
      destruct (IH fuel w2 l2 (set_queue b rest) Hr2 Hs
                  ltac:(rewrite BufferTheory.contents_set_queue; exact Hrest) Ho2
                  ltac:(simpl in Hfuel; lia))
        as (w' & Hrun & Hw & Hset' & Hr' & Ho').
      exists w'. rewrite Hrun. split; [reflexivity |]. split.
      { rewrite Hw, Hw2, Hset. cbn [Writer.lines]. fold text.
        apply CsvTheory.append_assoc. }
      split; [congruence |]. split; assumption. }
    destruct (flushInterval (settings_ w) =? 0)%Z;
      [| destruct (nextFlush l <=? now (ticks l))%Z].
    + apply Hnext; try reflexivity; try assumption.
      * rewrite written_flush. exact Hw1.
      * unfold flush. rewrite Ho1. reflexivity.
    + apply Hnext; try reflexivity; try assumption.
      * rewrite written_flush. exact Hw1.
      * unfold flush. rewrite Ho1. reflexivity.
    + apply Hnext; try reflexivity; assumption.
Qed.

(** X12. [stop()] loses no record of a sound buffer. Take a buffer constructed
    in heap mode, or in memory-mapped mode with a ring size that fits
    [std::size_t] and a maximum payload size below [2 ^ 32], in any state it
    can reach: every queued entry then passes the stored-length check, and
    [items] are the records the entries hold. When [stop()] is called on a
    started writer (worker at the head of its loop, stream open), then, given
    enough fuel for the join, it returns with the buffer shut down and empty,
    the worker joined, [running_] false and the stream closed, and the file
    holds what had been handed to the stream before, followed by one line per
    queued record, in order. A second [stop()], as the destructor issues it,
    changes nothing. *)
Theorem stop_drains_and_closes (opts : Options) (env : MappingEnv) (b0 : GlobalBuffer)
    (fuel : nat) (w : CsvWriter) (l : loop_state) (b : GlobalBuffer) :
  GlobalBuffer_new opts env = Constructed b0 ->
  (memoryMapped (options_ b0) = true -> geometry_fits b0 /\ prefix_fits b0) ->
  Buffer.reachable order b0 b ->
  worker_ w = Some l ->
  is_open (output_ w) = true ->
  (length (queue_ b) < fuel)%nat ->
  exists items w' b',
    contents b = map Value items
    /\ length items = length (queue_ b)
    /\ stop fuel w b = Stopped w' b'
    /\ running_ w' = false /\ worker_ w' = None
    /\ output_ w' = mkStream false (written w ++ lines (settings_ w) items) EmptyString
    /\ queue_ b' = [] /\ shutdown_ b' = true
    /\ forall fuel', stop fuel' w' b' = Stopped w' b'.
Proof.
  intros Hnew Hfit Hreach Hw Ho Hfuel.
  destruct (BufferTheory.reachable_intact order opts env b0 b Hnew Hfit Hreach)
    as [items Hc].
  assert (Hlen : length items = length (queue_ b)).
  { apply (f_equal (@length _)) in Hc. unfold Buffer.contents in Hc.
    rewrite !length_map in Hc. congruence. }
  destruct (drain_loop items fuel (set_running w false) l (shutdown b)
              eq_refl eq_refl Hc Ho ltac:(rewrite Hlen; exact Hfuel))
    as (w2 & Hrun & Hwritten & Hset & Hr & Ho2).
  exists items. unfold Writer.stop. cbn [worker_ set_running]. rewrite Hw, Hrun.
  eexists; eexists. split; [exact Hc |]. split; [exact Hlen |]. split; [reflexivity |].
  unfold finish. cbn [set_worker output_ running_ worker_ set_output]. rewrite Ho2.
  cbn [running_ worker_ output_ set_output].
  split; [exact Hr |]. split; [reflexivity |]. split.
  { unfold close, flush. rewrite Ho2. cbn [is_open file pending].
    rewrite !CsvTheory.append_nil_r. f_equal. exact Hwritten. }
  split; [reflexivity |]. split; [reflexivity |].
  intros fuel'. unfold Writer.stop, finish.
  destruct w2 as [st r o wk]. simpl in Hr. subst r. reflexivity.
Qed.

(** X13. Between [shutdown()] of the buffer and [stop()] of the writer the consumer
    spins: on a buffer that is shut down and empty, with [running_] still
    true, the loop of [run] neither exits nor waits in [pop], however long it
    runs, and it writes nothing. *)
Theorem run_spins_on_a_shut_down_buffer (fuel : nat) (w : CsvWriter) (l : loop_state)
    (b : GlobalBuffer) :
  running_ w = true ->
  shutdown_ b = true ->
  queue_ b = [] ->
  run_loop fuel w l b = (Goes_on, set_worker w (Some l), b).
Proof.
  intros Hr Hs Hq. induction fuel as [| fuel IH]; [reflexivity |].
  cbn [Writer.run_loop]. rewrite (pop_empty b Hq), Hs, Hr. exact IH.
Qed.

End Run.

Local Open Scope Z_scope.

Lemma run_writes_one_line_per_record_witness :
  exists k e w' b',
    Writer.run_loop LittleEndian (fun _ _ => "t") (fun _ => 0) 5 ex_writer (mkLoop 0 0)
      ex_heap_full = (e, w', b')
    /\ (k <= 2)%nat
    /\ written w' = written ex_writer
         ++ Writer.lines (fun _ _ => "t") (settings_ ex_writer)
              (take k [ex_item [x41]; ex_item [x42; x43]]).
Proof.
  destruct (run_writes_one_line_per_record LittleEndian (fun _ _ => "t") (fun _ => 0) 5
              ex_writer (mkLoop 0 0) ex_heap_full [ex_item [x41]; ex_item [x42; x43]]
              eq_refl eq_refl)
    as (k & e & w' & b' & Hrun & Hk & Hw & _).
  exists k, e, w', b'. auto.
Defined.

Lemma stop_drains_and_closes_witness :
  exists w' b',
    Writer.stop LittleEndian (fun _ _ => "t") (fun _ => 0) 3 ex_writer ex_heap_full
      = Stopped w' b'
    /\ file (output_ w') = String.concat EmptyString [
         "old line"; String "010" EmptyString;
         in_quotes "t"; ","; in_quotes "dev0"; ","; in_quotes "41"; String "010" EmptyString;
         in_quotes "t"; ","; in_quotes "dev0"; ","; in_quotes "42 43";
         String "010" EmptyString ].
Proof.
  destruct (stop_drains_and_closes LittleEndian (fun _ _ => "t") (fun _ => 0)
              ex_heap_options OpenFails ex_heap 3 ex_writer (mkLoop 0 0) ex_heap_full
              BufferTheory.ex_heap_constructed
              (fun H : memoryMapped (options_ ex_heap) = true =>
                 False_ind _ (Bool.diff_false_true H))
              BufferTheory.ex_heap_full_reachable eq_refl eq_refl ltac:(simpl; lia))
    as (items & w' & b' & Hc & _ & Hstop & _ & _ & Hout & _).
  exists w', b'. split; [exact Hstop |]. rewrite Hout.
  destruct items as [| i1 [| i2 [| i3 items]]]; try discriminate Hc.
  injection Hc as <- <-. reflexivity.
Defined.

Lemma run_spins_on_a_shut_down_buffer_witness :
  Writer.run_loop LittleEndian (fun _ _ => "t") (fun _ => 0) 1000 ex_writer (mkLoop 0 0)
    (shutdown ex_heap)
  = (Goes_on, set_worker ex_writer (Some (mkLoop 0 0)), shutdown ex_heap).
Proof.
  apply (run_spins_on_a_shut_down_buffer LittleEndian (fun _ _ => "t") (fun _ => 0) 1000
           ex_writer (mkLoop 0 0) (shutdown ex_heap)); reflexivity.
Defined.

End WriterTheory.

(** * Further properties of the producer lifecycle *)

Module SessionMore.

Import Session.

Lemma steps_snoc (p : process) (evs : list event) (ev : event) :
  steps p (evs ++ [ev]) = step (steps p evs) ev.
Proof. unfold steps. rewrite fold_left_app. reflexivity. Qed.

Lemma step_live (p : process) (ev : event) (s : StreamingSession) :
  step p ev = Live s -> exists s0, p = Live s0.
Proof. destruct p as [s0 | x]; [eauto | discriminate]. Qed.

(** X14. The states a session can be in are three: idle with no thread, running
    with the worker inside [threadMain], and not running with a worker that
    has ended and has not been joined. In each of them the cleanup hook has
    run once for every [stop()] called so far, never otherwise, and at most
    one worker was spawned per call of [start()]. *)
Theorem lifecycle_counts (evs : list event) :
  forall s, steps (Live initial) evs = Live s ->
    cleanups s = stops_in evs
    /\ (runs s <= starts_in evs)%nat
    /\ (running_ s = false /\ worker_ s = NoThread
        \/ running_ s = true /\ worker_ s = Active
        \/ running_ s = false /\ worker_ s = Finished).
Proof.
  induction evs as [| ev evs IH] using rev_ind; intros s H.
  - inversion H; subst. simpl. auto.
  - rewrite steps_snoc in H. destruct (step_live _ _ _ H) as [s0 H0].
    rewrite H0 in H. destruct (IH s0 H0) as (Hc & Hr & Hstate).
    unfold starts_in, stops_in in *. rewrite !List.filter_app, !length_app.
    destruct s0 as [run w n c]. simpl in Hc, Hr, Hstate.
    destruct ev as [| r | r]; cbn [step] in H.
    + cbn [List.filter is_start is_stop length].
      unfold start in H. simpl in H.
      destruct Hstate as [[-> ->] | [[-> ->] | [-> ->]]]; simpl in H;
        inversion H; subst; simpl; repeat split; auto; lia.
    + cbn [List.filter is_start is_stop length].
      unfold stop, join, worker_exit, threadMain, cleanup in H. simpl in H.
      destruct Hstate as [[-> ->] | [[-> ->] | [-> ->]]]; simpl in H;
        try destruct r; simpl in H; inversion H; subst; simpl;
        repeat split; auto; lia.
    + cbn [List.filter is_start is_stop length].
      unfold worker_exit, threadMain in H. simpl in H.
      destruct Hstate as [[-> ->] | [[-> ->] | [-> ->]]]; simpl in H;
        try destruct r; simpl in H; inversion H; subst; simpl;
        repeat split; auto; lia.
Qed.

Lemma lifecycle_counts_witness :
  cleanups (mkSession false NoThread 1 2) = 2%nat.
Proof.
  exact (proj1 (lifecycle_counts
                  [Start; WorkerEnds RunReturns; Stop RunReturns; Stop RunReturns]
                  (mkSession false NoThread 1 2) eq_refl)).
Defined.

(** X15. A session whose worker has ended by itself cannot be started again before
    [stop()] has joined it: [start()] then assigns to a joinable
    [std::thread], which calls [std::terminate]. In every other state
    [start()] returns, as a no-op when the session is running and by spawning
    a worker when it is idle; and after any [stop()] that returned, [start()]
    spawns a new worker. *)
Theorem restart_needs_stop (evs : list event) (s : StreamingSession) :
  steps (Live initial) evs = Live s ->
  (worker_ s = Finished -> start s = Terminated None)
  /\ (running_ s = true -> start s = Live s)
  /\ (worker_ s = NoThread ->
      start s = Live (mkSession true Active (S (runs s)) (cleanups s)))
  /\ (forall r s', stop r s = Live s' ->
      start s' = Live (mkSession true Active (S (runs s)) (S (cleanups s)))).
Proof.
  intros H.
  assert (Hstate : running_ s = false /\ worker_ s = NoThread
                   \/ running_ s = true /\ worker_ s = Active
                   \/ running_ s = false /\ worker_ s = Finished).
  { revert s H. induction evs as [| ev evs IH] using rev_ind; intros s H.
    - inversion H; subst. auto.
    - rewrite steps_snoc in H. destruct (step_live _ _ _ H) as [s0 H0].
      rewrite H0 in H. specialize (IH s0 H0).
      destruct s0 as [run w n c]. simpl in IH.
      destruct ev as [| r | r]; cbn [step] in H;
        unfold start, stop, join, worker_exit, threadMain, cleanup in H; simpl in H;
        destruct IH as [[-> ->] | [[-> ->] | [-> ->]]]; simpl in H;
        try destruct r; simpl in H; inversion H; subst; simpl; auto. }
  destruct s as [run w n c]. simpl in Hstate |- *.
  split; [| split; [| split]].
  - intros ->. destruct Hstate as [[_ ?] | [[_ ?] | [-> _]]]; try discriminate.
    reflexivity.
  - intros ->. reflexivity.
  - intros ->. destruct Hstate as [[-> _] | [[_ ?] | [_ ?]]]; try discriminate.
    reflexivity.
  - intros r s' Hstop.
    unfold stop, join, worker_exit, threadMain, cleanup in Hstop. simpl in Hstop.
    destruct w; simpl in Hstop; try destruct r; simpl in Hstop;
      inversion Hstop; subst; reflexivity.
Qed.

Lemma restart_needs_stop_witness :
  start (mkSession false Finished 1 0) = Terminated None.
Proof.
  refine (proj1 (restart_needs_stop [Start; WorkerEnds RunReturns]
                   (mkSession false Finished 1 0) eq_refl) eq_refl).
Defined.

End SessionMore.

(** * Properties of the file producer *)

Module FileInputTheory.

Import Buffer FileInput.

Lemma chunks_fuels (n : nat) : (0 < n)%nat ->
  forall (fuel fuel' : nat) (data : bytes),
    (length data <= fuel)%nat -> (length data <= fuel')%nat ->
    chunks fuel n data = chunks fuel' n data.
Proof.
  intros Hn fuel. induction fuel as [| fuel IH]; intros fuel' data Hlen Hlen'.
  - destruct data; [destruct fuel'; reflexivity | simpl in Hlen; lia].
  - destruct data as [| x data]; [destruct fuel'; reflexivity |].
    destruct fuel' as [| fuel']; [simpl in Hlen'; lia |].
    cbn [chunks]. f_equal.
    apply IH; rewrite length_drop; simpl in *; lia.
Qed.

Lemma chunks_fuel (n : nat) : (0 < n)%nat ->
  forall (fuel : nat) (data : bytes), (length data <= fuel)%nat ->
    chunks fuel n data = chunks (length data) n data.
Proof. intros Hn fuel data Hlen. apply chunks_fuels; auto. Qed.

Lemma chunks_concat (n : nat) : (0 < n)%nat ->
  forall (fuel : nat) (data : bytes), (length data <= fuel)%nat ->
    concat (chunks fuel n data) = data.
Proof.
  intros Hn fuel. induction fuel as [| fuel IH]; intros data Hlen.
  - destruct data; [reflexivity | simpl in Hlen; lia].
  - destruct data as [| x data]; [reflexivity |].
    cbn [chunks concat]. rewrite IH.
    + apply take_drop.
    + rewrite length_drop. simpl in *. lia.
Qed.

Lemma chunks_sizes (n : nat) : (0 < n)%nat ->
  forall (fuel : nat) (data : bytes),
    Forall (fun c => (0 < length c <= n)%nat) (chunks fuel n data).
Proof.
  intros Hn fuel. induction fuel as [| fuel IH]; intros data.
  - constructor.
  - destruct data as [| x data]; [constructor |].
    cbn [chunks]. constructor; [| apply IH].
    rewrite length_take. simpl. lia.
Qed.

Lemma set_queue_same (b : GlobalBuffer) : set_queue b (queue_ b ++ []) = b.
Proof. destruct b. unfold set_queue. simpl. rewrite app_nil_r. reflexivity. Qed.

Section Run.

Variable order : byte_order.
Variable now : nat -> Z.
Variable running : nat -> bool.
Variable allocates : N -> bool.

Lemma push_heap (b : GlobalBuffer) (it : BufferItem) :
  memoryMapped (options_ b) = false ->
  shutdown_ b = false ->
  N.of_nat (length (queue_ b)) < capacity_ b ->
  Buffer.push order b it
  = Returns (set_queue b (queue_ b ++ [mkEntry (set_fieldNames it (fieldNames_ b))
                                         (N.of_nat (length (payload it))) kInvalidSlot])) tt.
Proof.
  intros Hm Hs Hq. unfold Buffer.push. rewrite Hs, Hm.
  apply N.ltb_lt in Hq. rewrite Hq. reflexivity.
Qed.

Lemma read_loop_chunks (settings_ : FileInputSettings) (n : nat) :
  follow settings_ = false ->
  N.to_nat (readChunkSize settings_) = n ->
  (0 < n)%nat ->
  (forall k, running k = true) ->
  forall (len : nat) (data : bytes) (fuel k : nat) (b : GlobalBuffer),
    (length data <= len)%nat ->
    memoryMapped (options_ b) = false ->
    shutdown_ b = false ->
    N.of_nat (length (queue_ b) + length (chunks (length data) n data)) <= capacity_ b ->
    (length (chunks (length data) n data) < fuel)%nat ->
    exists input',
      read_loop order now running fuel settings_ k (mkInput data true) b
      = (Returned, input',
         set_queue b (queue_ b ++ pushed_chunks now settings_ (fieldNames_ b) k
                                    (chunks (length data) n data))).
Proof.
  intros Hfollow Hn Hpos Hrun len.
  induction len as [| len IH]; intros data fuel k b Hlen Hm Hs Hroom Hfuel.
  - destruct data; [| simpl in Hlen; lia].
    destruct fuel as [| fuel]; [simpl in Hfuel; lia |].
    cbn [read_loop]. rewrite Hrun. cbn [negb read good ahead].
    rewrite Hn, take_nil, drop_nil. cbn [length Nat.ltb Nat.leb Nat.eqb].
    rewrite Hfollow. cbn [negb chunks pushed_chunks].
    rewrite set_queue_same. eauto.
  - destruct data as [| x data].
    { destruct fuel as [| fuel]; [simpl in Hfuel; lia |].
      cbn [read_loop]. rewrite Hrun. cbn [negb read good ahead].
      rewrite Hn, take_nil, drop_nil. cbn [length Nat.ltb Nat.leb Nat.eqb].
      rewrite Hfollow. cbn [negb chunks pushed_chunks].
      rewrite set_queue_same. eauto. }
    remember (x :: data) as d eqn:Hd.
    assert (Hdlen : (0 < length d)%nat) by (subst d; simpl; lia).
    assert (Hchunks : chunks (length d) n d = take n d :: chunks (length (drop n d)) n (drop n d)).
    { subst d. cbn [length chunks]. f_equal. apply chunks_fuel; [exact Hpos |].
      rewrite length_drop. simpl. lia. }
    rewrite Hchunks in *. cbn [length] in Hroom, Hfuel.
    destruct fuel as [| fuel]; [lia |].
    cbn [read_loop]. rewrite Hrun. cbn [negb read good ahead]. rewrite Hn.
    assert (Htake : (0 < length (take n d))%nat) by (rewrite length_take; lia).
    assert (Hlt : (0 <? length (take n d))%nat = true) by (apply Nat.ltb_lt; exact Htake).
    rewrite Hlt.
    rewrite push_heap by (auto; lia).
    assert (Hne : (length (take n d) =? 0)%nat = false) by (apply Nat.eqb_neq; lia).
    rewrite Hne. cbn [payload set_fieldNames source timestamp].
    set (b1 := set_queue b _).
    assert (Hb1q : queue_ b1 = (queue_ b ++ [mkEntry (mkItem (path settings_) (now k) (take n d)
                                                  (fieldNames_ b))
                                         (N.of_nat (length (take n d))) kInvalidSlot])%list)
      by reflexivity.
    assert (Hb1 : memoryMapped (options_ b1) = false /\ shutdown_ b1 = false
                  /\ capacity_ b1 = capacity_ b /\ fieldNames_ b1 = fieldNames_ b)
      by (subst b1; destruct b; simpl in *; auto).
    destruct Hb1 as (Hm1 & Hs1 & Hc1 & Hf1).
    assert (Heq : set_queue b1 (queue_ b1 ++ pushed_chunks now settings_ (fieldNames_ b1) (S k)
                                           (chunks (length (drop n d)) n (drop n d)))
              = set_queue b (queue_ b ++ pushed_chunks now settings_ (fieldNames_ b) k
                               (take n d :: chunks (length (drop n d)) n (drop n d)))).
    { rewrite Hb1q, Hf1. cbn [pushed_chunks]. rewrite <- app_assoc. simpl.
      subst b1. destruct b; reflexivity. }
    destruct (N.of_nat (length (take n d)) =? readChunkSize settings_)%N eqn:Hfull.
    + (* a full chunk: the stream stays good *)
      destruct (IH (drop n d) fuel (S k) b1) as [input' Hloop].
      * rewrite length_drop. lia.
      * exact Hm1.
      * exact Hs1.
      * rewrite Hc1, Hb1q, length_app. simpl. lia.
      * lia.
      * rewrite Hloop. rewrite Heq. eauto.
    + (* the last, shorter chunk: the next read extracts nothing *)
      apply N.eqb_neq in Hfull.
      assert (Hshort : (length d < n)%nat).
      { rewrite length_take in Hfull. lia. }
      assert (Hdrop : drop n d = []) by (apply drop_ge; lia).
      rewrite Hdrop in *. cbn [length chunks] in *.
      destruct fuel as [| fuel]; [lia |].
      cbn [read_loop]. rewrite Hrun. cbn [negb read good ahead length Nat.ltb Nat.leb Nat.eqb].
      rewrite Hfollow. cbn [negb].
      rewrite <- Heq. cbn [pushed_chunks]. rewrite set_queue_same. eauto.
Qed.

(** X16. FileSession::run, reading an existing file without following it into an
    idle heap-mode buffer with room for all its pieces, with a readChunkSize
    that is positive, at most max_size() and can be allocated, returns after
    pushing the file in order, cut into pieces of readChunkSize bytes with a
    shorter last one when the length is no multiple: the payloads queued, put
    end to end, are the file's bytes, no payload is empty and none is longer
    than readChunkSize. *)
Theorem run_pushes_the_file_in_chunks (settings_ : FileInputSettings) (data : bytes)
    (b : GlobalBuffer) (fuel : nat) :
  let cs := chunks (length data) (N.to_nat (readChunkSize settings_)) data in
  enabled settings_ = true ->
  follow settings_ = false ->
  0 < readChunkSize settings_ <= max_size ->
  allocates (readChunkSize settings_) = true ->
  (forall k, running k = true) ->
  memoryMapped (options_ b) = false ->
  shutdown_ b = false ->
  N.of_nat (length (queue_ b) + length cs) <= capacity_ b ->
  (length cs < fuel)%nat ->
  run order now running allocates fuel settings_ true data b
  = (Returned, set_queue b (queue_ b ++ pushed_chunks now settings_ (fieldNames_ b) 0 cs))
  /\ concat cs = data
  /\ Forall (fun c => 0 < N.of_nat (length c) <= readChunkSize settings_) cs.
Proof.
  intros cs He Hf Hn Ha Hrun Hm Hs Hroom Hfuel.
  assert (Hpos : (0 < N.to_nat (readChunkSize settings_))%nat) by lia.
  split; [| split].
  - unfold run. rewrite He, Ha. cbn [negb].
    destruct (N.ltb_spec max_size (readChunkSize settings_)); [lia |].
    destruct (read_loop_chunks settings_ _ Hf eq_refl Hpos Hrun (length data) data fuel 0%nat b
                (le_n _) Hm Hs Hroom Hfuel) as [input' ->].
    reflexivity.
  - apply chunks_concat; [exact Hpos | lia].
  - eapply Forall_impl; [apply (chunks_sizes _ Hpos) |].
    intros c Hc. simpl in Hc. lia.
Qed.

(** X17. An enabled, running FileSession whose file opens and whose read buffer
    is constructed (readChunkSize at most max_size() and allocated), on a
    memory-mapped buffer that is initialised, not shut down and not full: when
    readChunkSize is larger than the buffer's maxPayloadSize and the file
    holds more than maxPayloadSize bytes, the first push of run throws the
    payload-size error, the exception leaves run with the buffer unchanged,
    and on the worker thread it ends the process by std::terminate. *)
Theorem oversized_chunk_ends_the_process (settings_ : FileInputSettings) (data : bytes)
    (b : GlobalBuffer) (view : bytes) (fuel : nat) (s : Session.StreamingSession) :
  enabled settings_ = true ->
  running 0%nat = true ->
  allocates (readChunkSize settings_) = true ->
  memoryMapped (options_ b) = true ->
  mappedView_ b = Some view ->
  shutdown_ b = false ->
  N.of_nat (length (queue_ b)) < capacity_ b ->
  maxPayloadSize (options_ b) < readChunkSize settings_ <= max_size ->
  maxPayloadSize (options_ b) < N.of_nat (length data) ->
  let e := runtime_error
             "Payload size exceeds configured maximum for memory-mapped buffer" in
  run order now running allocates (S fuel) settings_ true data b = (Escaped e, b)
  /\ Session.worker_exit (Session.RunThrows e) s = Session.Terminated (Some e).
Proof.
  intros He Hrun Ha Hm Hv Hs Hq Hn Hlen e.
  split; [| reflexivity].
  unfold run. rewrite He, Ha. cbn [negb].
  destruct (N.ltb_spec max_size (readChunkSize settings_)); [lia |].
  cbn [read_loop]. rewrite Hrun. cbn [negb read good ahead].
  assert (Htake : N.of_nat (length (take (N.to_nat (readChunkSize settings_)) data))
                  = N.min (readChunkSize settings_) (N.of_nat (length data))).
  { rewrite length_take. lia. }
  assert (Hbig : maxPayloadSize (options_ b)
                 < N.of_nat (length (take (N.to_nat (readChunkSize settings_)) data))) by lia.
  assert (Hlt : (0 <? length (take (N.to_nat (readChunkSize settings_)) data))%nat = true)
    by (apply Nat.ltb_lt; lia).
  rewrite Hlt. unfold Buffer.push. rewrite Hs.
  apply N.ltb_lt in Hq. rewrite Hq. cbn [orb negb]. rewrite Hm, Hv.
  cbn [payload set_fieldNames].
  apply N.ltb_lt in Hbig. rewrite Hbig. reflexivity.
Qed.

(** X18. With readChunkSize zero (and the empty read buffer constructed), an
    enabled FileSession whose file opens never pushes anything, whatever the
    file holds, and leaves the buffer as it is: every read extracts no byte.
    Without follow, run returns in its first iteration. With follow it never
    leaves the loop by itself: it is still looping after any number of
    iterations in which isRunning() was true, and it returns exactly when
    isRunning() has become false. *)
Theorem zero_chunk_size_reads_nothing (settings_ : FileInputSettings) (data : bytes)
    (b : GlobalBuffer) (fuel : nat) :
  readChunkSize settings_ = 0 ->
  enabled settings_ = true ->
  allocates 0 = true ->
  exists e,
    run order now running allocates fuel settings_ true data b = (e, b)
    /\ (follow settings_ = false -> (0 < fuel)%nat -> e = Returned)
    /\ (follow settings_ = true ->
        (forall j, (j < fuel)%nat -> running j = true) -> e = Looping)
    /\ (follow settings_ = true ->
        (exists j, (j < fuel)%nat /\ running j = false) -> e = Returned).
Proof.
  intros Hz He Ha.
  assert (Hloop : forall k,
            exists e input',
              read_loop order now running fuel settings_ k (mkInput data true) b
              = (e, input', b)
              /\ (follow settings_ = false -> (0 < fuel)%nat -> e = Returned)
              /\ (follow settings_ = true ->
                  (forall j, (j < fuel)%nat -> running (k + j) = true) -> e = Looping)
              /\ (follow settings_ = true ->
                  (exists j, (j < fuel)%nat /\ running (k + j) = false) -> e = Returned)).
  { induction fuel as [| fuel' IH]; intros k.
    - exists Looping, (mkInput data true).
      split; [reflexivity |]. split; [lia |]. split; [reflexivity |].
      intros _ (j & Hj & _). lia.
    - cbn [read_loop]. destruct (running k) eqn:Hr; cbn [negb].
      + (* the read extracts nothing and leaves the stream good *)
        cbn [read good ahead]. rewrite Hz.
        cbn [N.to_nat take drop length Nat.ltb Nat.leb Nat.eqb].
        rewrite take_0, drop_0. cbn [length Nat.ltb Nat.leb Nat.eqb].
        change (N.of_nat 0 =? 0) with true. cbn [good].
        destruct (follow settings_) eqn:Hf; cbn [negb].
        * (* the loop sleeps and goes round *)
          destruct (IH (S k)) as (e & input' & Hrun & _ & Hon & Hoff).
          exists e, input'. rewrite Hrun. split; [reflexivity |].
          split; [discriminate |]. split.
          -- intros _ Hall. apply Hon; [reflexivity |].
             intros j Hj. replace (S k + j)%nat with (k + S j)%nat by lia.
             apply Hall. lia.
          -- intros _ (j & Hj & Hfalse). apply Hoff; [reflexivity |].
             destruct j as [| j'].
             ++ rewrite Nat.add_0_r in Hfalse. congruence.
             ++ exists j'. split; [lia |].
                replace (S k + j')%nat with (k + S j')%nat by lia. exact Hfalse.
        * exists Returned, (mkInput data true).
          split; [reflexivity |]. split; [reflexivity |]. split; discriminate.
      + (* isRunning() is false at the head of the loop *)
        exists Returned, (mkInput data true).
        split; [reflexivity |]. split; [reflexivity |]. split.
        * intros _ Hall. specialize (Hall 0%nat ltac:(lia)).
          rewrite Nat.add_0_r in Hall. congruence.
        * reflexivity. }
  unfold run. rewrite He, Hz, Ha. cbn [negb].
  change (max_size <? 0) with false. cbv iota.
  destruct (Hloop 0%nat) as (e & input' & -> & H1 & H2 & H3).
  exists e. split; [reflexivity |]. split; [exact H1 |]. split; [exact H2 | exact H3].
Qed.

End Run.

Lemma run_pushes_the_file_in_chunks_witness :
  run LittleEndian (fun k => Z.of_nat k) (fun _ => true) (fun _ => true) 3
    ex_file_settings true [x61; x62; x63] ex_heap
  = (Returned,
     set_queue ex_heap
       [ mkEntry (mkItem "in.bin"%string 0 [x61; x62] defaultFieldNames) 2 kInvalidSlot;
         mkEntry (mkItem "in.bin"%string 1 [x63] defaultFieldNames) 1 kInvalidSlot ]).
Proof.
  refine (proj1 (run_pushes_the_file_in_chunks LittleEndian (fun k => Z.of_nat k)
                   (fun _ => true) (fun _ => true) ex_file_settings [x61; x62; x63]
                   ex_heap 3 eq_refl eq_refl _ eq_refl (fun _ => eq_refl) eq_refl eq_refl
                   _ _)).
  - split; [reflexivity | discriminate].
  - simpl. lia.
  - simpl. lia.
Defined.

Lemma oversized_chunk_ends_the_process_witness :
  run LittleEndian (fun k => Z.of_nat k) (fun _ => true) (fun _ => true) 1
    (mkFileInput true "in.bin"%string false 8 200) true
    [x61; x62; x63; x64; x65] ex_ring
  = (Escaped (runtime_error
                "Payload size exceeds configured maximum for memory-mapped buffer"%string),
     ex_ring).
Proof.
  refine (proj1 (oversized_chunk_ends_the_process LittleEndian (fun k => Z.of_nat k)
                   (fun _ => true) (fun _ => true)
                   (mkFileInput true "in.bin"%string false 8 200)
                   [x61; x62; x63; x64; x65] ex_ring (replicate 16 x00) 0 Session.initial
                   eq_refl eq_refl eq_refl eq_refl eq_refl eq_refl eq_refl
                   (conj eq_refl _) eq_refl)).
  discriminate.
Defined.

Lemma zero_chunk_size_reads_nothing_witness :
  run LittleEndian (fun k => Z.of_nat k) (fun _ => true) (fun _ => true) 7
    (mkFileInput true "in.bin"%string true 0 200) true [x61; x62; x63] ex_heap
  = (Looping, ex_heap).
Proof.
  destruct (zero_chunk_size_reads_nothing LittleEndian (fun k => Z.of_nat k)
              (fun _ => true) (fun _ => true) (mkFileInput true "in.bin"%string true 0 200)
              [x61; x62; x63] ex_heap 7 eq_refl eq_refl eq_refl)
    as (e & Hrun & _ & Hon & _).
  rewrite Hrun. rewrite (Hon eq_refl (fun _ _ => eq_refl)). reflexivity.
Defined.

End FileInputTheory.

(** * Properties of the configuration parser *)

Module ConfigTheory.

Import Config.

Local Open Scope string_scope.

(** ** [trim] *)

Lemma trim_cons (ch : ascii) (rest : string) :
  trim (String ch rest)
  = if isspace ch then trim rest else String ch (rtrim rest).
Proof.
  unfold trim, rtrim. cbn [find_if_not_space rfind_if_not_space].
  destruct (isspace ch); destruct (rfind_if_not_space rest) as [| e]; reflexivity.
Qed.

Lemma rtrim_cons (ch : ascii) (rest : string) :
  rtrim (String ch rest)
  = match rfind_if_not_space rest with
    | O => if isspace ch then EmptyString else String ch EmptyString
    | S _ => String ch (rtrim rest)
    end.
Proof.
  unfold rtrim. cbn [rfind_if_not_space].
  destruct (rfind_if_not_space rest) as [| e]; [destruct (isspace ch) |];
    try reflexivity.
  simpl. destruct rest; reflexivity.
Qed.

Lemma rfind_rtrim (s : string) :
  rfind_if_not_space (rtrim s) = rfind_if_not_space s.
Proof.
  induction s as [| ch rest IH]; [reflexivity |].
  rewrite rtrim_cons. cbn [rfind_if_not_space].
  destruct (rfind_if_not_space rest) as [| e] eqn:He.
  - destruct (isspace ch) eqn:Hc; simpl; [reflexivity | rewrite Hc; reflexivity].
  - cbn [rfind_if_not_space]. rewrite IH. reflexivity.
Qed.

Lemma rtrim_idempotent (s : string) : rtrim (rtrim s) = rtrim s.
Proof.
  induction s as [| ch rest IH]; [reflexivity |].
  rewrite rtrim_cons.
  destruct (rfind_if_not_space rest) as [| e] eqn:He.
  - destruct (isspace ch) eqn:Hc; [reflexivity |].
    rewrite rtrim_cons. simpl. rewrite Hc. reflexivity.
  - rewrite rtrim_cons, rfind_rtrim, He, IH. reflexivity.
Qed.

Lemma trim_idempotent (s : string) : trim (trim s) = trim s.
Proof.
  induction s as [| ch rest IH]; [reflexivity |].
  rewrite trim_cons. destruct (isspace ch) eqn:Hc; [exact IH |].
  rewrite trim_cons, Hc, rtrim_idempotent. reflexivity.
Qed.

Lemma rtrim_split (s : string) :
  exists r, s = rtrim s ++ r /\ all_space r = true.
Proof.
  induction s as [| ch rest (r & Hr & Hs)]; [exists EmptyString; auto |].
  rewrite rtrim_cons. destruct (rfind_if_not_space rest) as [| e] eqn:He.
  - assert (Hrest : rest = r).
    { unfold rtrim in Hr. rewrite He in Hr. destruct rest; exact Hr. }
    subst r. destruct (isspace ch) eqn:Hc.
    + exists (String ch rest). simpl. rewrite Hc, Hs. auto.
    + exists rest. auto.
  - exists r. simpl. rewrite <- Hr. auto.
Qed.

Lemma trim_split (s : string) :
  exists l r, s = l ++ trim s ++ r /\ all_space l = true /\ all_space r = true.
Proof.
  induction s as [| ch rest (l & r & Heq & Hl & Hr)].
  - exists EmptyString, EmptyString. auto.
  - rewrite trim_cons. destruct (isspace ch) eqn:Hc.
    + exists (String ch l), r. simpl. rewrite Hc, Hl, <- Heq. auto.
    + destruct (rtrim_split rest) as (r' & Hr' & Hs').
      exists EmptyString, r'. simpl. rewrite <- Hr'. auto.
Qed.

Lemma back_rtrim (s : string) (c : ascii) :
  back (rtrim s) = Some c -> isspace c = false.
Proof.
  induction s as [| ch rest IH]; [discriminate |].
  rewrite rtrim_cons. destruct (rfind_if_not_space rest) as [| e] eqn:He.
  - destruct (isspace ch) eqn:Hc; simpl; [discriminate |].
    intros H. injection H as <-. exact Hc.
  - intros H. assert (Hne : rtrim rest <> EmptyString).
    { intros Hnil. rewrite <- rfind_rtrim, Hnil in He. discriminate. }
    simpl in H. destruct (rtrim rest) eqn:Hrt; [congruence |]. auto.
Qed.

(** X19. trim takes away the white space at both ends of a text and nothing else:
    the text is its trimmed form between two runs of white space, the trimmed
    form neither starts nor ends with white space, and trimming twice is
    trimming once. *)
Theorem trim_removes_the_outer_white_space (value : string) :
  (exists l r, value = l ++ trim value ++ r /\ all_space l = true /\ all_space r = true)
  /\ (forall c, front (trim value) = Some c -> isspace c = false)
  /\ (forall c, back (trim value) = Some c -> isspace c = false)
  /\ trim (trim value) = trim value.
Proof.
  split; [apply trim_split | split; [| split; [| apply trim_idempotent]]].
  - induction value as [| ch rest IH]; [discriminate |].
    intros c. rewrite trim_cons. destruct (isspace ch) eqn:Hc; [apply IH |].
    simpl. intros H. injection H as <-. exact Hc.
  - induction value as [| ch rest IH]; [discriminate |].
    intros c. rewrite trim_cons. destruct (isspace ch) eqn:Hc; [apply IH |].
    simpl. destruct (rtrim rest) eqn:Hrt.
    + intros H. injection H as <-. exact Hc.
    + rewrite <- Hrt. apply back_rtrim.
Qed.

(** ** [stoull] and [parseSize] *)

Lemma isdigit_plain (c : ascii) :
  isdigit c = true ->
  isspace c = false /\ Ascii.eqb c "-" = false /\ Ascii.eqb c "+" = false.
Proof.
  destruct c as [[] [] [] [] [] [] [] []]; intros H; try discriminate H;
    repeat split; reflexivity.
Qed.

Lemma length_append (x y : string) :
  String.length (x ++ y) = (String.length x + String.length y)%nat.
Proof. induction x as [| c x IH]; simpl; [reflexivity | rewrite IH; reflexivity]. Qed.

Lemma substring_all (s : string) : substring 0 (String.length s) s = s.
Proof. induction s as [| c s IH]; simpl; [reflexivity | rewrite IH; reflexivity]. Qed.

Lemma substring_skip (x y : string) (m : nat) :
  substring (String.length x) m (x ++ y) = substring 0 m y.
Proof. induction x as [| c x IH]; simpl; [reflexivity | exact IH]. Qed.

Lemma substr_from_0 (s : string) : substr_from 0 s = s.
Proof. unfold substr_from. rewrite Nat.sub_0_r. apply substring_all. Qed.

Lemma substr_from_app (x y : string) : substr_from (String.length x) (x ++ y) = y.
Proof.
  unfold substr_from. rewrite substring_skip, length_append.
  replace (String.length x + String.length y - String.length x)%nat
    with (String.length y) by lia.
  apply substring_all.
Qed.

Lemma digits_app (ds sfx : string) :
  all_digits ds = true ->
  (forall c, front sfx = Some c -> isdigit c = false) ->
  forall acc : N,
    digits acc (ds ++ sfx)
    = ((acc * 10 ^ N.of_nat (String.length ds) + decimal ds)%N, String.length ds).
Proof.
  intros Hds Hsfx. induction ds as [| d ds IH]; intros acc.
  - simpl. rewrite N.mul_1_r, N.add_0_r.
    destruct sfx as [| c sfx]; [reflexivity |].
    simpl. rewrite (Hsfx c eq_refl). reflexivity.
  - simpl in Hds. apply andb_prop in Hds. destruct Hds as [Hd Hds].
    cbn [append digits]. rewrite Hd, (IH Hds).
    cbn [String.length decimal]. rewrite Nat2N.inj_succ, N.pow_succ_r'.
    f_equal. lia.
Qed.

Lemma stoull_digits (ds sfx : string) :
  ds <> EmptyString ->
  all_digits ds = true ->
  (forall c, front sfx = Some c -> isdigit c = false) ->
  (decimal ds <= SIZE_MAX)%N ->
  stoull (ds ++ sfx) = ret (decimal ds, String.length ds).
Proof.
  intros Hne Hds Hsfx Hmax.
  destruct ds as [| d ds']; [congruence |].
  assert (Hd : isdigit d = true) by (simpl in Hds; apply andb_prop in Hds; tauto).
  destruct (isdigit_plain d Hd) as (Hsp & Hminus & Hplus).
  unfold stoull. cbn [append find_if_not_space]. rewrite Hsp, substr_from_0.
  rewrite Hminus, Hplus.
  change (String d (ds' ++ sfx)) with (String d ds' ++ sfx).
  rewrite (digits_app _ _ Hds Hsfx). cbn [String.length].
  apply N.ltb_ge in Hmax. rewrite N.mul_0_l, N.add_0_l, Hmax. reflexivity.
Qed.

Lemma stoull_minus (ds sfx : string) :
  ds <> EmptyString ->
  all_digits ds = true ->
  (forall c, front sfx = Some c -> isdigit c = false) ->
  (decimal ds <= SIZE_MAX)%N ->
  stoull (String "-" (ds ++ sfx))
  = ret (wrap64 (2 ^ 64 - decimal ds), S (String.length ds)).
Proof.
  intros Hne Hds Hsfx Hmax.
  unfold stoull. cbn [find_if_not_space]. change (isspace "-") with false.
  cbv iota. rewrite substr_from_0. change (Ascii.eqb "-" "-") with true. cbv iota.
  rewrite (digits_app _ _ Hds Hsfx).
  destruct ds as [| d ds']; [congruence |]. cbn [String.length].
  apply N.ltb_ge in Hmax. rewrite N.mul_0_l, N.add_0_l, Hmax. reflexivity.
Qed.

Lemma stoull_plus (ds sfx : string) :
  ds <> EmptyString ->
  all_digits ds = true ->
  (forall c, front sfx = Some c -> isdigit c = false) ->
  (decimal ds <= SIZE_MAX)%N ->
  stoull (String "+" (ds ++ sfx)) = ret (decimal ds, S (String.length ds)).
Proof.
  intros Hne Hds Hsfx Hmax.
  unfold stoull. cbn [find_if_not_space]. change (isspace "+") with false.
  cbv iota. rewrite substr_from_0.
  change (Ascii.eqb "+" "-") with false. change (Ascii.eqb "+" "+") with true. cbv iota.
  rewrite (digits_app _ _ Hds Hsfx).
  destruct ds as [| d ds']; [congruence |]. cbn [String.length].
  apply N.ltb_ge in Hmax. rewrite N.mul_0_l, N.add_0_l, Hmax. reflexivity.
Qed.

Lemma parseSize_suffix (x sfx : string) (number m : N) :
  x <> EmptyString ->
  stoull (x ++ sfx) = ret (number, String.length x) ->
  (number < 2 ^ 64)%N ->
  multiplier sfx = Some m ->
  parseSize (x ++ sfx) = ret (wrap64 (number * m)).
Proof.
  intros Hne Hstoull Hnum Hm.
  unfold parseSize. rewrite Hstoull.
  destruct x as [| c x']; [congruence |]. cbn [append empty bind ret].
  change (String c (x' ++ sfx)) with (String c x' ++ sfx).
  rewrite substr_from_app, length_append.
  unfold multiplier in Hm.
  destruct sfx as [| c0 sfx'].
  - simpl in Hm. injection Hm as <-.
    replace (String.length (String c x') <? String.length (String c x') + String.length EmptyString)%nat
      with false by (symmetry; apply Nat.ltb_ge; simpl; lia).
    unfold wrap64. rewrite N.mul_1_r, N.mod_small by exact Hnum. reflexivity.
  - replace (String.length (String c x') <? String.length (String c x') + String.length (String c0 sfx'))%nat
      with true by (symmetry; apply Nat.ltb_lt; simpl; lia).
    destruct (empty (lower (trim (String c0 sfx')))) eqn:He.
    + injection Hm as <-.
      destruct (lower (trim (String c0 sfx'))); [| discriminate He].
      simpl. unfold wrap64. rewrite N.mul_1_r, N.mod_small by exact Hnum. reflexivity.
    + destruct ((lower (trim (String c0 sfx')) =? "k") || (lower (trim (String c0 sfx')) =? "kb")).
      { injection Hm as <-. reflexivity. }
      destruct ((lower (trim (String c0 sfx')) =? "m") || (lower (trim (String c0 sfx')) =? "mb")).
      { injection Hm as <-. reflexivity. }
      discriminate Hm.
Qed.

(** X20. parseSize reads an optional sign, a run of decimal digits and a size
    suffix: for digits whose number fits std::size_t it returns that number,
    negated modulo 2^64 after a minus sign, times the factor of the suffix
    (1 for none, 1024 for k or kb, 1024 * 1024 for m or mb, in either case and
    with white space around), reduced modulo 2^64 without any error. *)
Theorem parseSize_reads_decimal (sign ds sfx : string) (m : N) :
  sign = EmptyString \/ sign = "+" \/ sign = "-" ->
  ds <> EmptyString ->
  all_digits ds = true ->
  (forall c, front sfx = Some c -> isdigit c = false) ->
  (decimal ds <= SIZE_MAX)%N ->
  multiplier sfx = Some m ->
  parseSize (sign ++ ds ++ sfx)
  = ret (wrap64 ((if sign =? "-" then wrap64 (2 ^ 64 - decimal ds) else decimal ds) * m)).
Proof.
  intros Hsign Hne Hds Hsfx Hmax Hm.
  assert (Hlt : (decimal ds < 2 ^ 64)%N) by (unfold SIZE_MAX in Hmax; lia).
  destruct Hsign as [-> | [-> | ->]].
  - cbn [append String.eqb].
    apply (parseSize_suffix ds sfx (decimal ds) m);
      [exact Hne | apply stoull_digits; assumption | exact Hlt | exact Hm].
  - change ("+" ++ ds ++ sfx) with (String "+" ds ++ sfx).
    change ("+" =? "-") with false. cbv iota.
    apply (parseSize_suffix (String "+" ds) sfx (decimal ds) m);
      [discriminate | apply stoull_plus; assumption | exact Hlt | exact Hm].
  - change ("-" ++ ds ++ sfx) with (String "-" ds ++ sfx).
    change ("-" =? "-") with true. cbv iota.
    apply (parseSize_suffix (String "-" ds) sfx (wrap64 (2 ^ 64 - decimal ds)) m);
      [discriminate | apply stoull_minus; assumption | | exact Hm].
    unfold wrap64. apply N.mod_lt. discriminate.
Qed.

(** ** [loadFromFile] *)

Lemma line_step_trim (st : Config * Section_) (line : string) :
  line_step st (trim line) = line_step st line.
Proof. destruct st. unfold line_step. rewrite trim_idempotent. reflexivity. Qed.

Lemma ignorable_trim (line : string) : ignorable (trim line) = ignorable line.
Proof. unfold ignorable. rewrite trim_idempotent. reflexivity. Qed.

Lemma line_step_ignorable (st : Config * Section_) (line : string) :
  ignorable line = true -> line_step st line = ret st.
Proof.
  intros H. destruct st. unfold line_step. unfold ignorable in H. rewrite H. reflexivity.
Qed.

(** X21. The layout of a configuration file does not matter: loadFromFile gives
    the same configuration, or throws the same error, when the white space
    around every line and all blank lines and comment lines are removed. *)
Theorem layout_is_ignored (names : Buffer.FieldNames) (path : string) (opens : bool)
    (lines : list string) :
  loadFromFile names path opens (significant lines) = loadFromFile names path opens lines.
Proof.
  assert (Hload : forall st, load_lines st (significant lines) = load_lines st lines).
  { unfold significant. induction lines as [| line rest IH]; intros st; [reflexivity |].
    cbn [List.map List.filter load_lines]. rewrite ignorable_trim.
    destruct (ignorable line) eqn:Hi; cbn [negb].
    - (* a blank line or a comment: the loop goes on with the state it had *)
      rewrite (line_step_ignorable st line Hi). cbn [bind ret]. apply IH.
    - (* any other line is trimmed by the loop itself *)
      cbn [load_lines]. rewrite line_step_trim.
      destruct (line_step st line) as [e | st']; cbn [bind]; [reflexivity | apply IH]. }
  unfold loadFromFile. rewrite Hload. reflexivity.
Qed.

Lemma bind_ret {A B : Type} (m : parsed A) (k : A -> B) (b : B) :
  (x <- m ;; ret (k x)) = ret b -> exists a, m = ret a /\ k a = b.
Proof.
  destruct m as [e | a]; cbn [bind]; intros H; [discriminate |].
  exists a. split; [reflexivity |]. unfold ret in H. congruence.
Qed.

Lemma assign_frame (section : Section_) (key value : string) (config config' : Config) :
  assign section key value config = ret config' ->
  (section <> Common -> threading config' = threading config)
  /\ (section <> Buffer_ -> buffer config' = buffer config)
  /\ (section <> Csv_ -> csv config' = csv config)
  /\ (section <> FileInput_ -> fileInput config' = fileInput config)
  /\ (section <> SerialInput_ -> serialInput config' = serialInput config)
  /\ (section <> IpInput_ -> ipInput config' = ipInput config).
Proof.
  intros H. destruct section; unfold assign in H;
    repeat match type of H with
           | (if ?c then _ else _) = _ => destruct c
           end;
    try discriminate H;
    try (apply bind_ret in H; destruct H as (a & _ & H));
    try (unfold ret in H; injection H as H);
    subst config'; repeat split; intros Hne; try reflexivity; congruence.
Qed.

(** X22. What one line of the configuration file changes, when the loop of
    loadFromFile accepts it. A blank line or a comment changes nothing,
    neither a setting nor the current section. A section header changes no
    setting. Any other line, a key with its value, keeps the current section,
    and whatever the line is, the settings of every section other than the
    current one stay as they were. *)
Theorem line_changes_only_its_section (config config' : Config)
    (section section' : Section_) (line : string) :
  line_step (config, section) line = ret (config', section') ->
  (ignorable line = true -> config' = config /\ section' = section)
  /\ (is_section_header line = true -> config' = config)
  /\ (ignorable line = false -> is_section_header line = false -> section' = section)
  /\ (section <> Common -> threading config' = threading config)
  /\ (section <> Buffer_ -> buffer config' = buffer config)
  /\ (section <> Csv_ -> csv config' = csv config)
  /\ (section <> FileInput_ -> fileInput config' = fileInput config)
  /\ (section <> SerialInput_ -> serialInput config' = serialInput config)
  /\ (section <> IpInput_ -> ipInput config' = ipInput config).
Proof.
  unfold line_step, ignorable, is_section_header. intros H.
  destruct (empty (trim line) || is_char "#" (front (trim line))
            || is_char ";" (front (trim line))) eqn:Hskip.
  { (* skipped by [continue] *)
    unfold ret in H. injection H as <- <-.
    split; [auto |]. split; [auto |]. split; [discriminate |]. repeat split; auto. }
  split; [discriminate |].
  destruct (is_char "[" (front (trim line)) && is_char "]" (back (trim line))) eqn:Hhead.
  { (* a section header *)
    destruct (sectionMap_find sectionMap _); [| discriminate H].
    unfold ret in H. injection H as <- <-.
    split; [auto |]. split; [discriminate |]. repeat split; auto. }
  split; [discriminate |].
  destruct (find "=" (trim line)) as [pos |]; [| discriminate H].
  destruct (assign section _ _ config) as [e | c] eqn:Ha; cbn [bind] in H;
    [discriminate H |].
  unfold ret in H. injection H as <- <-.
  split; [auto | exact (assign_frame _ _ _ _ _ Ha)].
Qed.

Lemma line_changes_only_its_section_witness :
  (exists c',
      line_step (default_config Buffer.defaultFieldNames, Csv_) "  Delimiter = ; "
      = ret (c', Csv_)
      /\ Csv.delimiter (csv c') = ";"%char
      /\ buffer c' = buffer (default_config Buffer.defaultFieldNames))
  /\ (exists c' s',
      line_step (default_config Buffer.defaultFieldNames, Csv_) " ; delimiter = x"
      = ret (c', s')
      /\ c' = default_config Buffer.defaultFieldNames /\ s' = Csv_).
Proof.
  split.
  - eexists. split; [reflexivity |]. split; [reflexivity |].
    refine (proj1 (proj2 (proj2 (proj2 (proj2 (line_changes_only_its_section
              (default_config Buffer.defaultFieldNames) _ Csv_ Csv_ "  Delimiter = ; "
              eq_refl))))) _).
    discriminate.
  - eexists. eexists. split; [reflexivity |].
    exact (proj1 (line_changes_only_its_section
                    (default_config Buffer.defaultFieldNames) _ Csv_ _
                    " ; delimiter = x" eq_refl) eq_refl).
Defined.

Lemma parseSize_reads_decimal_witness :
  parseSize "-12 Kb" = ret (18446744073709539328)%N.
Proof.
  exact (parseSize_reads_decimal "-" "12" " Kb" 1024 (or_intror (or_intror eq_refl))
           ltac:(discriminate) eq_refl
           ltac:(intros c H; injection H as <-; reflexivity)
           ltac:(vm_compute; discriminate) eq_refl).
Defined.

End ConfigTheory.

(** * From the input file to the CSV file *)

Module PipelineTheory.

Import Buffer Csv Writer FileInput.

Section Run.

Variable order : byte_order.
Variable put_time : Z -> string -> string.
Variable system_now : nat -> Z.
Variable steady_now : nat -> Z.
Variable running : nat -> bool.
Variable allocates : N -> bool.




End Run.


End PipelineTheory.
